(** * proreader: a pull-based, block-aligned binary reader over a push stream

    Shallow embedding of the repository's Reader.  Three revisions of the
    class live side by side in the sources:

    - [Reader]      : the Symbol-keyed revision ([READ_CHUNK],
                      [UNREAD_CHUNK], [READ_BUFFER], ...), whose chunk queue
                      is the PassThrough stream [this[INPUT]] itself;
    - [ProReader]   : proreader.js, whose queue is the array [_data] guarded
                      by the [_end] and [_error] flags (a fourth revision
                      keeps this queue under the methods of reader.js);
    - [EventReader] : reader.js, whose queue is the array [_events].

    [NativeEndianness] is native-endianness.js, which finds the byte order
    of the machine.

    Bytes are [Byte.byte], chunks and Node Buffers are lists of bytes, the
    counters are integers.  The readers are single-threaded: a method runs
    until it awaits a chunk, and the event loop then lets the stream emit.
    An [await] on a chunk request is therefore the executor of the promise
    followed by the stream's emission, until the request is settled or the
    stream runs dry; a request that is still pending then waits for the
    producer ([Suspended]). *)

From Stdlib Require Import List Arith ZArith Lia Bool.
From Stdlib Require Import Strings.Byte.
Import ListNotations.

Set Implicit Arguments.

(** ** Bytes, chunks, endianness *)

Definition Chunk := list byte.

Inductive Endianness := LE | BE.

Definition Endianness_eqb (a b : Endianness) : bool :=
  match a, b with
  | LE, LE | BE, BE => true
  | _, _ => false
  end.

(** [buffer.slice(start, end)] for [0 <= start] and [0 <= end]; both ends are
    clamped to the buffer, an inverted range is empty. *)
Definition slice (buffer : list byte) (start end_ : nat) : list byte :=
  firstn (end_ - start) (skipn start buffer).

(** [chunk.copy(buffer, offset, 0, length)]: overwrite [length] bytes of
    [buffer] from [offset] on with the first [length] bytes of [chunk]. *)
Definition copy (chunk buffer : list byte) (offset length : nat) : list byte :=
  firstn offset buffer ++ firstn length chunk ++ skipn (offset + length) buffer.

(** ** JavaScript numbers, as far as the readers compute with them *)

Inductive Num :=
| Int (z : Z)
| Infinity
| NaN.

(** [Math.floor(offset / blockLength)] on non-negative integers. *)
Definition floor_div (offset blockLength : nat) : Num :=
  match blockLength with
  | O => match offset with O => NaN | S _ => Infinity end
  | S _ => Int (Z.of_nat (offset / blockLength))
  end.

(** [a * b] for a non-negative [b]. *)
Definition Num_mul (a : Num) (b : nat) : Num :=
  match a with
  | Int z => Int (z * Z.of_nat b)
  | Infinity => match b with O => NaN | S _ => Infinity end
  | NaN => NaN
  end.

(** [a < b] : comparisons with NaN are false. *)
Definition Num_ltb (a : Num) (b : nat) : bool :=
  match a with
  | Int z => (z <? Z.of_nat b)%Z
  | Infinity => false
  | NaN => false
  end.

(** [a == 0]. *)
Definition Num_is_zero (a : Num) : bool :=
  match a with
  | Int z => (z =? 0)%Z
  | _ => false
  end.

(** An index argument of [slice]: NaN counts as 0, anything beyond the
    buffer is clamped by [slice] itself. *)
Definition to_index (bound : nat) (a : Num) : nat :=
  match a with
  | Int z => Z.to_nat z
  | Infinity => bound
  | NaN => 0
  end.

(** ** Node's PassThrough stream, as the readers use it

    The readable side is a FIFO of chunks.  [unshift] puts a chunk in front,
    [write] appends, [end] marks that no chunk follows the buffered ones.
    A flowing stream emits its chunks one by one through ['data'], each as
    it was written; a handler that pauses the stream stops the emission
    after its chunk; a flowing stream without a ['data'] handler loses what
    it emits.  ['end'] is emitted once, when the buffer is empty and the
    stream has ended.  The handlers are those of the reader that owns the
    stream, so the emission itself is defined with each reader ([flow]). *)

Module Stream.

Record t := mk {
  buffer : list Chunk;     (* written or unshifted, not yet emitted *)
  ended : bool;            (* end() was called *)
  endEmitted : bool;       (* 'end' was emitted *)
  flowing : bool;          (* resumed and not paused since *)
  dataListener : bool;     (* the reader's 'data' handler is attached *)
  endListener : bool       (* the reader's once-'end' handler is attached *)
}.

(** [new PassThroughStream()] *)
Definition create : t := mk [] false false false false false.

Definition set_buffer (b : list Chunk) (s : t) : t :=
  mk b (ended s) (endEmitted s) (flowing s) (dataListener s) (endListener s).

Definition pause (s : t) : t :=
  mk (buffer s) (ended s) (endEmitted s) false (dataListener s) (endListener s).

Definition resume (s : t) : t :=
  mk (buffer s) (ended s) (endEmitted s) true (dataListener s) (endListener s).

Definition on_data (s : t) : t :=
  mk (buffer s) (ended s) (endEmitted s) (flowing s) true (endListener s).

Definition remove_data_listener (s : t) : t :=
  mk (buffer s) (ended s) (endEmitted s) (flowing s) false (endListener s).

Definition once_end (s : t) : t :=
  mk (buffer s) (ended s) (endEmitted s) (flowing s) (dataListener s) true.

(** The stream marks ['end'] as emitted and drops the once-listener. *)
Definition emit_end (s : t) : t :=
  mk (buffer s) (ended s) true (flowing s) (dataListener s) false.

(** [stream.unshift(chunk)]; Node refuses it once ['end'] was emitted
    ("stream.unshift() after end event"), which is [None] here. *)
Definition unshift (chunk : Chunk) (s : t) : option t :=
  if endEmitted s then None else Some (set_buffer (chunk :: buffer s) s).

(** [stream.write(chunk)] by the producer; a write after [end()] is a
    misuse of the stream and leaves the buffer alone.  A chunk of length
    zero is not queued, and so is never emitted. *)
Definition write (chunk : Chunk) (s : t) : t :=
  if ended s then s
  else if (length chunk =? 0)%nat then s
  else set_buffer (buffer s ++ [chunk]) s.

(** What the stream queues of the chunks written to it. *)
Definition written (chunks : list Chunk) : list Chunk :=
  filter (fun chunk => negb (length chunk =? 0)%nat) chunks.

(** [stream.end()] by the producer. *)
Definition end_ (s : t) : t :=
  mk (buffer s) true (endEmitted s) (flowing s) (dataListener s) (endListener s).

(** [stream.end(chunk)] *)
Definition end_with (chunk : Chunk) (s : t) : t := end_ (write chunk s).

(** The bytes still to be emitted, in order. *)
Definition bytes (s : t) : list byte := concat (buffer s).

End Stream.

(** ** Typed arrays

    A typed array is a view on its bytes; [Buffer.from(typedArray.buffer,
    typedArray.byteOffset, typedArray.byteLength)] is another view on the same
    bytes, so what is written through the one is read through the other. *)

Inductive TypedArrayKind :=
| Int8Array | Int16Array | Int32Array
| Uint8Array | Uint16Array | Uint32Array
| Float32Array | Float64Array.

Definition BYTES_PER_ELEMENT (kind : TypedArrayKind) : nat :=
  match kind with
  | Int8Array | Uint8Array => 1
  | Int16Array | Uint16Array => 2
  | Int32Array | Uint32Array | Float32Array => 4
  | Float64Array => 8
  end.

Record TypedArray := {
  kind : TypedArrayKind;       (* [typedArray.constructor] *)
  bytes : list byte
}.

(** [new TypedArray(n)]: [n] elements, all zero. *)
Definition new_TypedArray (kind : TypedArrayKind) (n : nat) : TypedArray :=
  {| kind := kind; bytes := repeat x00 (n * BYTES_PER_ELEMENT kind) |}.

Inductive Container :=
| BufferC (buffer : list byte)
| TypedArrayC (typedArray : TypedArray).

(** [container.length]: bytes of a Buffer, elements of a typed array. *)
Definition Container_length (container : Container) : nat :=
  match container with
  | BufferC buffer => length buffer
  | TypedArrayC typedArray =>
      length (bytes typedArray) / BYTES_PER_ELEMENT (kind typedArray)
  end.

(** What [typedArray[i]] evaluates to. *)
Inductive Scalar :=
| Integer (z : Z)
| FloatBits (pattern : Z).   (* the float with this IEEE 754 bit pattern *)

Fixpoint le_value (bs : list byte) : Z :=
  match bs with
  | [] => 0
  | b :: bs => Z.of_N (Byte.to_N b) + 256 * le_value bs
  end.

Definition to_signed (bits : Z) (u : Z) : Z :=
  if (u <? 2 ^ (bits - 1))%Z then u else (u - 2 ^ bits)%Z.

(** [typedArray[index]], decoded in the machine's byte order. *)
Definition element (nativeEndianness : Endianness) (typedArray : TypedArray)
    (index : nat) : Scalar :=
  let width := BYTES_PER_ELEMENT (kind typedArray) in
  let raw := slice (bytes typedArray) (index * width) (index * width + width) in
  let unsigned :=
    match nativeEndianness with
    | LE => le_value raw
    | BE => le_value (rev raw)
    end in
  match kind typedArray with
  | Int8Array | Int16Array | Int32Array =>
      Integer (to_signed (Z.of_nat (width * 8)) unsigned)
  | Uint8Array | Uint16Array | Uint32Array => Integer unsigned
  | Float32Array | Float64Array => FloatBits unsigned
  end.

(** [buffer.swap16()], [swap32()], [swap64()] reverse every group of 2, 4, 8
    bytes in place. *)
Fixpoint swap_groups (width fuel : nat) (buffer : list byte) : list byte :=
  match fuel with
  | O => []
  | S fuel =>
      match buffer with
      | [] => []
      | _ :: _ => rev (firstn width buffer) ++ swap_groups width fuel (skipn width buffer)
      end
  end.

(** The table from which every revision generates its scalar methods:
    the method's type name and the typed array it reads through. *)
Inductive MethodTypeName :=
| Int8 | Int16 | Int32 | UInt8 | UInt16 | UInt32 | Float | Double.

Definition TypedArrayOf (methodTypeName : MethodTypeName) : TypedArrayKind :=
  match methodTypeName with
  | Int8 => Int8Array
  | Int16 => Int8Array
  | Int32 => Int32Array
  | UInt8 => Uint8Array
  | UInt16 => Uint16Array
  | UInt32 => Uint32Array
  | Float => Float32Array
  | Double => Float64Array
  end.

(** ** [buffer.toString()]

    A Buffer is decoded as UTF-8 into a JavaScript string, a sequence of
    UTF-16 code units.  The decoder is the one of the Encoding Standard: a
    byte that cannot go on with the sequence that is open ends it with
    U+FFFD and is looked at again, a byte that cannot start a sequence
    gives U+FFFD, and so does a sequence that the end of the buffer cuts
    short.  Nothing is stripped, a byte order mark neither. *)

Definition JSString := list Z.

Definition REPLACEMENT_CHARACTER : Z := 0xFFFD.

(** The UTF-16 code units of a code point. *)
Definition code_units (codePoint : Z) : JSString :=
  if (codePoint <? 0x10000)%Z then [codePoint]
  else [(0xD800 + (codePoint - 0x10000) / 0x400)%Z;
        (0xDC00 + (codePoint - 0x10000) mod 0x400)%Z].

Inductive Utf8Decoder :=
| Lead                       (* no sequence is open *)
| Trail (codePoint : Z)      (* the bits read of the open sequence *)
        (needed : nat)       (* the bytes it still needs *)
        (lower upper : Z).   (* the range of its next byte *)

(** A byte that finds no sequence open. *)
Definition utf8_lead (b : Z) : JSString * Utf8Decoder :=
  if (b <=? 0x7F)%Z then ([b], Lead)
  else if ((0xC2 <=? b) && (b <=? 0xDF))%Z then
    ([], Trail (Z.land b 0x1F) 1 0x80 0xBF)
  else if ((0xE0 <=? b) && (b <=? 0xEF))%Z then
    ([], Trail (Z.land b 0xF) 2
               (if (b =? 0xE0)%Z then 0xA0 else 0x80)
               (if (b =? 0xED)%Z then 0x9F else 0xBF))
  else if ((0xF0 <=? b) && (b <=? 0xF4))%Z then
    ([], Trail (Z.land b 0x7) 3
               (if (b =? 0xF0)%Z then 0x90 else 0x80)
               (if (b =? 0xF4)%Z then 0x8F else 0xBF))
  else ([REPLACEMENT_CHARACTER], Lead).

Definition utf8_byte (decoder : Utf8Decoder) (b : Z) : JSString * Utf8Decoder :=
  match decoder with
  | Lead => utf8_lead b
  | Trail codePoint needed lower upper =>
      if ((lower <=? b) && (b <=? upper))%Z then
        let codePoint := Z.lor (Z.shiftl codePoint 6) (Z.land b 0x3F) in
        match needed with
        | S (S needed) => ([], Trail codePoint (S needed) 0x80 0xBF)
        | _ => (code_units codePoint, Lead)
        end
      else
        let '(units, decoder) := utf8_lead b in
        (REPLACEMENT_CHARACTER :: units, decoder)
  end.

Fixpoint utf8_decode (decoder : Utf8Decoder) (buffer : list byte) : JSString :=
  match buffer with
  | [] => match decoder with
          | Lead => []
          | Trail _ _ _ _ => [REPLACEMENT_CHARACTER]
          end
  | b :: buffer =>
      let '(units, decoder) := utf8_byte decoder (Z.of_N (Byte.to_N b)) in
      units ++ utf8_decode decoder buffer
  end.

Definition toString (buffer : list byte) : JSString := utf8_decode Lead buffer.

(** ** Errors and outcomes of the asynchronous methods *)

Inductive Error :=
| EndOfInput (container : option Container) (blockCount : option Num)
| NotEnoughError (container : option Container) (count : option Num)
| SourceError (error : nat)   (* whatever the source emitted with 'error' *)
| TypeError      (* a call of something that is not a function *)
| RangeError     (* swapN on a buffer that is no multiple of N bits *)
| StreamError.   (* raised by the stream itself *)

(** [readPart[`swap${bits}`]()]: Buffers have swap16, swap32 and swap64 and
    nothing else. *)
Definition swap (bits : nat) (readPart : list byte) : Error + list byte :=
  let swapN width :=
    if (length readPart mod width =? 0)%nat
    then inr (swap_groups width (length readPart) readPart)
    else inl RangeError in
  match bits with
  | 16 => swapN 2
  | 32 => swapN 4
  | 64 => swapN 8
  | _ => inl TypeError
  end.

Inductive Outcome (A : Type) (S : Type) :=
| Returned (a : A) (s : S)   (* the promise is fulfilled with [a] *)
| Threw (e : Error) (s : S)  (* the promise is rejected with [e] *)
| Suspended (s : S)          (* the await stays pending until the producer acts *)
| OutOfFuel.                 (* the loop bound of the model was too small *)

Arguments Returned {A S} a s.
Arguments Threw {A S} e s.
Arguments Suspended {A S} s.
Arguments OutOfFuel {A S}.

(** [await]: an asynchronous method goes on with the value and the state
    that the awaited call returns; an awaited call that throws, or that is
    never settled, ends the method in the same way. *)
Definition await {A B S : Type} (o : Outcome A S)
    (k : A -> S -> Outcome B S) : Outcome B S :=
  match o with
  | Returned a s => k a s
  | Threw e s => Threw e s
  | Suspended s => Suspended s
  | OutOfFuel => OutOfFuel
  end.

Notation "'let*' x , r ':=' 'await' o 'in' k" :=
  (await o (fun x r => k))
  (at level 10, x pattern, r name, o at level 100, k at level 200).

(** How a promise that nobody awaits ends up. *)
Inductive Settlement (A : Type) :=
| Fulfilled (a : A)
| Rejected (e : Error)
| Unsettled.

Arguments Fulfilled {A} a.
Arguments Rejected {A} e.
Arguments Unsettled {A}.

(** What an event handler did with the stored resolver. *)
Inductive Signal :=
| Quiet                          (* no resolver was called *)
| Resolve (value : option Chunk) (* resolve(chunk) or resolve(null) *)
| Uncaught.                      (* the handler itself threw *)

(** ** The Symbol-keyed Reader *)

Module Reader.

Record t := mk {
  DEFAULT_ENDIANNESS : Endianness;
  INPUT : Stream.t;
  BYTES_READ : Z;
  BYTES_UNREAD : option Z;   (* [None] is [undefined] *)
  RESOLVE : bool             (* a resolver is stored; [false] is [null] *)
}.

Definition set_INPUT (s : Stream.t) (r : t) : t :=
  mk (DEFAULT_ENDIANNESS r) s (BYTES_READ r) (BYTES_UNREAD r) (RESOLVE r).

Definition set_BYTES_READ (n : Z) (r : t) : t :=
  mk (DEFAULT_ENDIANNESS r) (INPUT r) n (BYTES_UNREAD r) (RESOLVE r).

Definition set_BYTES_UNREAD (n : option Z) (r : t) : t :=
  mk (DEFAULT_ENDIANNESS r) (INPUT r) (BYTES_READ r) n (RESOLVE r).

Definition set_RESOLVE (b : bool) (r : t) : t :=
  mk (DEFAULT_ENDIANNESS r) (INPUT r) (BYTES_READ r) (BYTES_UNREAD r) b.

Definition chunk_length (chunk : Chunk) : Z := Z.of_nat (length chunk).

(** [this[BYTES_UNREAD] === 0] *)
Definition unread_is_zero (r : t) : bool :=
  match BYTES_UNREAD r with
  | Some n => (n =? 0)%Z
  | None => false
  end.

(** The constructor: a paused stream with [onData] and the once-[onEnd]
    attached. *)
Definition constructor (defaultEndianness : Endianness) : t :=
  mk defaultEndianness
     (Stream.once_end (Stream.pause (Stream.on_data Stream.create)))
     0 None false.

(** The getters [bytesRead] and [bytesUnread]. *)
Definition bytesRead (r : t) : Z := BYTES_READ r.
Definition bytesUnread (r : t) : option Z := BYTES_UNREAD r.

Definition onData (chunk : Chunk) (r : t) : t * Signal :=
  if (length chunk =? 0)%nat then (r, Quiet)
  else
    let r := set_INPUT (Stream.pause (INPUT r)) r in
    let r := set_BYTES_READ (BYTES_READ r + chunk_length chunk) r in
    let r := match BYTES_UNREAD r with
             | Some n => set_BYTES_UNREAD (Some (n - chunk_length chunk)%Z) r
             | None => r
             end in
    if RESOLVE r then (set_RESOLVE false r, Resolve (Some chunk))
    else (r, Uncaught).

Definition onEnd (r : t) : t * Signal :=
  let r := set_INPUT (Stream.remove_data_listener (INPUT r)) r in
  let r := set_BYTES_UNREAD (Some 0%Z) r in
  if RESOLVE r then (set_RESOLVE false r, Resolve None)
  else (r, Quiet).

(** *** Event emission of [this[INPUT]] *)

(** The tick that emits ['end']: nothing happens unless the buffer is
    empty, the stream has ended and ['end'] was not emitted before. *)
Definition emit_end (r : t) : t * Signal :=
  let s := INPUT r in
  match Stream.buffer s with
  | [] =>
      if Stream.ended s && negb (Stream.endEmitted s) then
        let r := set_INPUT (Stream.emit_end s) r in
        if Stream.endListener s then onEnd r else (r, Quiet)
      else (r, Quiet)
  | _ :: _ => (r, Quiet)
  end.

(** The stream hands out [chunk]; without a listener the chunk is lost. *)
Definition emit_data (chunk : Chunk) (r : t) : t * Signal :=
  if Stream.dataListener (INPUT r) then onData chunk r else (r, Quiet).

(** A flowing stream emits the chunks [chunks] of its buffer until a
    handler pauses it.  A read that empties an ended stream schedules
    ['end'] on the next tick, which runs before the continuation of the
    awaiting method; so does a read that finds the ended stream empty. *)
Fixpoint flow (chunks : list Chunk) (r : t) : t * Signal :=
  match chunks with
  | [] => emit_end (set_INPUT (Stream.set_buffer [] (INPUT r)) r)
  | chunk :: rest =>
      let r := set_INPUT (Stream.set_buffer rest (INPUT r)) r in
      let '(r, signal) := emit_data chunk r in
      match signal with
      | Quiet => if Stream.flowing (INPUT r) then flow rest r else (r, Quiet)
      | Resolve value => (fst (emit_end r), Resolve value)
      | Uncaught => (r, Uncaught)
      end
  end.

(** The turns of the event loop that follow a synchronous piece of code. *)
Definition run (r : t) : t * Signal :=
  if Stream.flowing (INPUT r) then flow (Stream.buffer (INPUT r)) r
  else (r, Quiet).

(** *** The producer's side: [reader.input.write(chunk)], [reader.input.end()]

    The producer acts between two turns of the reader.  A paused stream
    only queues what is written and keeps an end to itself until a request
    resumes it; a flowing one, on which a request waits, emits at once. *)

Definition input_write (chunk : Chunk) (r : t) : t * Signal :=
  run (set_INPUT (Stream.write chunk (INPUT r)) r).

(** [reader.input.end()], in a later tick than the construction or after
    a write. *)
Definition input_end (r : t) : t * Signal :=
  run (set_INPUT (Stream.end_ (INPUT r)) r).

(** [reader.input.end()] in the very tick of the construction, nothing
    having been written.  The resume that [on('data')] scheduled before the
    [pause()] still runs in the next tick: it reads the stream, finds it
    ended and empty, and the stream emits ['end'] though no request was
    made. *)
Definition input_end_at_once (r : t) : t * Signal :=
  emit_end (set_INPUT (Stream.end_ (INPUT r)) r).

Definition writes (chunks : list Chunk) (r : t) : t :=
  fold_left (fun r chunk => fst (input_write chunk r)) chunks r.

(** *** Chunk requests *)

(** The executor of the promise made by [READ_CHUNK]. *)
Definition READ_CHUNK (r : t) : t * Signal :=
  if unread_is_zero r then (r, Resolve None)
  else
    let r := set_RESOLVE true r in
    (set_INPUT (Stream.resume (INPUT r)) r, Quiet).

(** [await this[READ_CHUNK]()] *)
Definition await_READ_CHUNK (r : t) : t * Signal :=
  let '(r, signal) := READ_CHUNK r in
  match signal with
  | Quiet => run r
  | _ => (r, signal)
  end.

Definition UNREAD_CHUNK (chunk : Chunk) (r : t) : option t :=
  if (length chunk =? 0)%nat then Some r
  else if negb (unread_is_zero r) then
    match Stream.unshift chunk (INPUT r) with
    | Some s => Some (set_INPUT s r)
    | None => None
    end
  else
    let r := set_INPUT Stream.create r in
    let r := set_INPUT (Stream.end_with chunk (INPUT r)) r in
    Some (set_BYTES_UNREAD (Some (chunk_length chunk)) r).

(** *** Filling buffers *)

(** The [while] loop of [READ_BUFFER], entered with [offset]; every
    iteration that goes round takes one unit of [fuel].  A request that
    the stream leaves pending ends the fill at [Suspended]: how the loop
    goes on once the producer acts again is not followed. *)
Fixpoint READ_BUFFER_loop (fuel : nat) (buffer : list byte) (offset : nat)
    (r : t) : Outcome (list byte * nat) t :=
  if (offset <? length buffer)%nat then
    match fuel with
    | O => OutOfFuel
    | S fuel =>
        let '(r, signal) := await_READ_CHUNK r in
        match signal with
        | Quiet => Suspended r
        | Uncaught => Suspended r   (* the handler threw, nothing settles *)
        | Resolve None => Returned (buffer, offset) r
        | Resolve (Some chunk) =>
            let length_ := Nat.min (length buffer - offset) (length chunk) in
            let buffer := copy chunk buffer offset length_ in
            let offset := offset + length_ in
            if (length_ =? length chunk)%nat
            then READ_BUFFER_loop fuel buffer offset r
            else
              match UNREAD_CHUNK (skipn length_ chunk) r with
              | Some r => READ_BUFFER_loop fuel buffer offset r
              | None => Threw StreamError r
              end
        end
    end
  else Returned (buffer, offset) r.

(** What follows the loop. *)
Definition READ_BUFFER_finish (blockLength : nat) (buffer : list byte)
    (offset : nat) (r : t) : Outcome (Num * list byte) t :=
  let blockCount := floor_div offset blockLength in
  let excess :=
    slice buffer (to_index (length buffer) (Num_mul blockCount blockLength))
          offset in
  match UNREAD_CHUNK excess r with
  | Some r => Returned (blockCount, buffer) r
  | None => Threw StreamError r
  end.

(** [this[READ_BUFFER](buffer, blockLength)]; the result carries the
    buffer as the call leaves it. *)
Definition READ_BUFFER (buffer : list byte) (blockLength : nat) (r : t)
    : Outcome (Num * list byte) t :=
  let* (buffer, offset), r :=
    await READ_BUFFER_loop (length buffer) buffer 0 r in
  READ_BUFFER_finish blockLength buffer offset r.

Section Host.

(** The byte order of the machine, found by native-endianness.js. *)
Variable nativeEndianness : Endianness.

Definition READ_TYPED_ARRAY (typedArray : TypedArray) (blockLength : nat)
    (endianness : Endianness) (r : t) : Outcome (Num * TypedArray) t :=
  let elementLength := BYTES_PER_ELEMENT (kind typedArray) in
  let buffer := bytes typedArray in
  let* (blockCount, buffer), r := await READ_BUFFER buffer (blockLength * elementLength) r in
  if negb (Endianness_eqb endianness nativeEndianness) then
    let stop :=
      to_index (length buffer)
        (Num_mul (Num_mul blockCount blockLength) elementLength) in
    match swap (elementLength * 8) (slice buffer 0 stop) with
    | inr readPart =>
        Returned (blockCount,
                  {| kind := kind typedArray;
                     bytes := readPart ++ skipn (length readPart) buffer |}) r
    | inl e => Threw e r
    end
  else Returned (blockCount, {| kind := kind typedArray; bytes := buffer |}) r.

(** *** The public methods *)

Record Options := {
  blockLength : nat;
  endianness : option Endianness;   (* [None] is [undefined] *)
  allowPart : bool
}.

Definition default_options : Options :=
  {| blockLength := 1; endianness := None; allowPart := false |}.

(** The reader at the moment a fill first yields to its caller: the
    executor of its first chunk request has run, unless there is nothing
    to fill and the fill runs through without a request. *)
Definition fill_started (container : Container) (r : t) : t :=
  let byteLength :=
    match container with
    | BufferC buffer => length buffer
    | TypedArrayC typedArray => length (bytes typedArray)
    end in
  if (byteLength =? 0)%nat then r else fst (READ_CHUNK r).

(** [read(container, options)].  The [await] binds tighter than the
    conditional: it awaits [Buffer.isBuffer(container)], and [blockCount]
    is the promise made by the fill, not its value.  With [allowPart] that
    promise is returned, so the call settles as the fill does.  Otherwise
    [blockCount * blockLength] multiplies a promise, which is NaN, the
    comparison with [container.length] is false, and the call is fulfilled
    with [undefined] as soon as the fill has yielded, before the stream
    has emitted anything.

    The first component is how the call settles: when fulfilled, with the
    returned value ([None] is [undefined]), the container and the reader
    of that moment.  The second is how the fill that the call started
    ends when nothing else is asked of the reader meanwhile. *)
Definition read (container : Container) (options : Options) (r : t)
    : Settlement (option Num * Container * t)
      * Outcome (Num * Container) t :=
  let endianness :=
    match endianness options with
    | Some e => e
    | None => DEFAULT_ENDIANNESS r
    end in
  let blockCount : Outcome (Num * Container) t :=
    match container with
    | BufferC buffer =>
        let* (n, buffer), r :=
          await READ_BUFFER buffer (blockLength options) r in
        Returned (n, BufferC buffer) r
    | TypedArrayC typedArray =>
        let* (n, typedArray), r :=
          await READ_TYPED_ARRAY typedArray (blockLength options) endianness r in
        Returned (n, TypedArrayC typedArray) r
    end in
  if allowPart options then
    (match blockCount with
     | Returned (n, filled) r => Fulfilled (Some n, filled, r)
     | Threw e _ => Rejected e
     | Suspended _ | OutOfFuel => Unsettled
     end, blockCount)
  else if Num_ltb (Num_mul NaN (blockLength options)) (Container_length container)
  then (Rejected (EndOfInput (Some container) None), blockCount)
  else (Fulfilled (None, container, fill_started container r), blockCount).

Definition readLE (container : Container) (options : Options) (r : t) :=
  read container
       {| blockLength := blockLength options; endianness := Some LE;
          allowPart := allowPart options |} r.

Definition readBE (container : Container) (options : Options) (r : t) :=
  read container
       {| blockLength := blockLength options; endianness := Some BE;
          allowPart := allowPart options |} r.

(** [this[`read${methodTypeName}`]({ endianness })] *)
Definition readX (methodTypeName : MethodTypeName)
    (endianness : option Endianness) (r : t) : Outcome Scalar t :=
  let endianness :=
    match endianness with
    | Some e => e
    | None => DEFAULT_ENDIANNESS r
    end in
  let typedArray := new_TypedArray (TypedArrayOf methodTypeName) 1 in
  let* (blockCount, typedArray), r :=
    await READ_TYPED_ARRAY typedArray 1 endianness r in
  if Num_is_zero blockCount then Threw (EndOfInput None None) r
  else Returned (element nativeEndianness typedArray 0) r.

Definition readXLE (methodTypeName : MethodTypeName) (r : t) :=
  readX methodTypeName (Some LE) r.

Definition readXBE (methodTypeName : MethodTypeName) (r : t) :=
  readX methodTypeName (Some BE) r.

End Host.

(** [readString(codeUnitCount)].  [allocated] is what
    [Buffer.allocUnsafe(codeUnitCount)] hands out: [codeUnitCount] bytes of
    whatever the memory held.  The result is [buffer.toString()], the
    string that these bytes decode to as UTF-8. *)
Definition readString (allocated : list byte) (r : t)
    : Outcome JSString t :=
  let codeUnitCount := length allocated in
  let* (blockCount, buffer), r := await READ_BUFFER allocated codeUnitCount r in
  if Num_is_zero blockCount then Threw (EndOfInput None None) r
  else Returned (toString buffer) r.

(** *** States of a reader between two calls *)

(** The chunks and the bytes that wait in [this[INPUT]]. *)
Definition queue (r : t) : list Chunk := Stream.buffer (INPUT r).
Definition queued (r : t) : list byte := Stream.bytes (INPUT r).

(** End of input was not observed: the constructor's stream, paused, with
    both handlers attached and no request pending. *)
Definition Listening (r : t) : Prop :=
  BYTES_UNREAD r = None /\ RESOLVE r = false /\
  Stream.dataListener (INPUT r) = true /\
  Stream.endListener (INPUT r) = true /\
  Stream.endEmitted (INPUT r) = false /\
  Stream.flowing (INPUT r) = false.

(** End of input was observed and nothing is queued. *)
Definition Drained (r : t) : Prop :=
  BYTES_UNREAD r = Some 0%Z /\ RESOLVE r = false /\ queue r = [].

(** A push-back finds its place: either nothing is queued and the count is
    0, or the count is not 0 and the stream still takes an [unshift]. *)
Definition Pushable (r : t) : Prop :=
  (unread_is_zero r = true /\ queue r = []) \/
  (unread_is_zero r = false /\ Stream.endEmitted (INPUT r) = false).

End Reader.

(** ** proreader.js: the queue is [_data], guarded by [_end] and [_error] *)

Module ProReader.

(** What [_dispatch] did with the stored continuations. *)
Inductive Dispatch :=
| Idle                            (* neither was called *)
| resolve (value : option Chunk)  (* resolve(chunk) or resolve(null) *)
| reject (error : nat).           (* reject(this._error) *)

Record t := mk {
  errorListener : bool;    (* the source still has [_errorHandler] attached *)
  _stream : Stream.t;      (* the PassThrough the source is piped into *)
  _error : option nat;     (* [None] is [null] *)
  _data : list Chunk;
  _end : bool;
  _bytesRemain : option Z; (* [None] is [undefined] *)
  _resolve : bool          (* [_resolve] and [_reject] are stored *)
}.

Definition set_stream (s : Stream.t) (r : t) : t :=
  mk (errorListener r) s (_error r) (_data r) (_end r) (_bytesRemain r) (_resolve r).

Definition set_data (d : list Chunk) (r : t) : t :=
  mk (errorListener r) (_stream r) (_error r) d (_end r) (_bytesRemain r) (_resolve r).

Definition set_bytesRemain (n : option Z) (r : t) : t :=
  mk (errorListener r) (_stream r) (_error r) (_data r) (_end r) n (_resolve r).

Definition set_resolve (b : bool) (r : t) : t :=
  mk (errorListener r) (_stream r) (_error r) (_data r) (_end r) (_bytesRemain r) b.

Definition chunk_length (chunk : Chunk) : Z := Z.of_nat (length chunk).

(** [n = 0; for (let chunk of this._data) n += chunk.length] *)
Definition total (data : list Chunk) : Z :=
  fold_left (fun n chunk => (n + chunk_length chunk)%Z) data 0%Z.

(** [this._end || this._error] *)
Definition finished (r : t) : bool :=
  _end r || match _error r with Some _ => true | None => false end.

Definition constructor : t :=
  mk true (Stream.once_end (Stream.pause (Stream.on_data Stream.create)))
     None [] false None false.

Definition _dispatch (r : t) : t * Dispatch :=
  if negb (_resolve r) then
    (if negb (finished r) then set_stream (Stream.pause (_stream r)) r else r,
     Idle)
  else
    match _data r with
    | chunk :: rest =>
        let r := if negb (finished r)
                 then set_stream (Stream.pause (_stream r)) r else r in
        let r := set_data rest r in
        let r := if finished r
                 then set_bytesRemain
                        (option_map (fun n => (n - chunk_length chunk)%Z)
                                    (_bytesRemain r)) r
                 else r in
        (set_resolve false r, resolve (Some chunk))
    | [] =>
        if _end r then (set_resolve false r, resolve None)
        else
          match _error r with
          | Some error => (set_resolve false r, reject error)
          | None => (set_stream (Stream.resume (_stream r)) r, Idle)
          end
    end.

Definition _errorHandler (error : nat) (r : t) : t * Dispatch :=
  let s := Stream.mk (Stream.buffer (_stream r)) (Stream.ended (_stream r))
             (Stream.endEmitted (_stream r)) (Stream.flowing (_stream r))
             false false in
  let r := mk false s (Some error) (_data r) (_end r)
              (Some (total (_data r))) (_resolve r) in
  _dispatch r.

Definition _dataHandler (chunk : Chunk) (r : t) : t * Dispatch :=
  _dispatch (set_data (_data r ++ [chunk]) r).

Definition _endHandler (r : t) : t * Dispatch :=
  let r := mk false (Stream.remove_data_listener (_stream r)) (_error r)
              (_data r) true (Some (total (_data r))) (_resolve r) in
  _dispatch r.

(** *** Event emission of [_stream], and the source piped into it *)

Definition emit_end (r : t) : t * Dispatch :=
  let s := _stream r in
  match Stream.buffer s with
  | [] =>
      if Stream.ended s && negb (Stream.endEmitted s) then
        let r := set_stream (Stream.emit_end s) r in
        if Stream.endListener s then _endHandler r else (r, Idle)
      else (r, Idle)
  | _ :: _ => (r, Idle)
  end.

Definition emit_data (chunk : Chunk) (r : t) : t * Dispatch :=
  if Stream.dataListener (_stream r) then _dataHandler chunk r else (r, Idle).

Fixpoint flow (chunks : list Chunk) (r : t) : t * Dispatch :=
  match chunks with
  | [] => emit_end (set_stream (Stream.set_buffer [] (_stream r)) r)
  | chunk :: rest =>
      let r := set_stream (Stream.set_buffer rest (_stream r)) r in
      let '(r, d) := emit_data chunk r in
      match d with
      | Idle => if Stream.flowing (_stream r) then flow rest r else emit_end r
      | _ => (fst (emit_end r), d)
      end
  end.

Definition run (r : t) : t * Dispatch :=
  if Stream.flowing (_stream r) then flow (Stream.buffer (_stream r)) r
  else (r, Idle).

(** The pipe passes a chunk of the source on to [_stream]. *)
Definition source_write (chunk : Chunk) (r : t) : t * Dispatch :=
  run (set_stream (Stream.write chunk (_stream r)) r).

(** The pipe ends [_stream], the source having ended.  The source itself
    and the moment at which the pipe acts are not modelled: here
    [_stream] may have been ended while chunks still wait in it, and the
    tick that emits ['end'] follows at once the read that empties it. *)
Definition source_end (r : t) : t * Dispatch :=
  run (set_stream (Stream.end_ (_stream r)) r).

(** The source emits ['error']. *)
Definition source_error (error : nat) (r : t) : t * Dispatch :=
  if errorListener r then _errorHandler error r else (r, Idle).

(** *** Chunk requests *)

Definition _getChunk (r : t) : t * Dispatch :=
  _dispatch (set_resolve true r).

(** [await this._getChunk()] *)
Definition await_getChunk (r : t) : t * Dispatch :=
  let '(r, d) := _getChunk r in
  match d with
  | Idle => run r
  | _ => (r, d)
  end.

Definition _ungetChunk (chunk : Chunk) (r : t) : t :=
  let r := set_data (chunk :: _data r) r in
  if finished r
  then set_bytesRemain
         (option_map (fun n => (n + chunk_length chunk)%Z) (_bytesRemain r)) r
  else r.

(** *** Filling *)

Fixpoint _fillBuffer_loop (fuel : nat) (buffer : list byte) (offset : nat)
    (r : t) : Outcome (list byte * nat) t :=
  if (offset <? length buffer)%nat then
    match fuel with
    | O => OutOfFuel
    | S fuel =>
        let '(r, d) := await_getChunk r in
        match d with
        | Idle => Suspended r
        | reject error => Threw (SourceError error) r
        | resolve None => Returned (buffer, offset) r
        | resolve (Some chunk) =>
            let length_ := Nat.min (length buffer - offset) (length chunk) in
            let buffer := copy chunk buffer offset length_ in
            let offset := offset + length_ in
            if (length_ =? length chunk)%nat
            then _fillBuffer_loop fuel buffer offset r
            else _fillBuffer_loop fuel buffer offset
                   (_ungetChunk (skipn length_ chunk) r)
        end
    end
  else Returned (buffer, offset) r.

(** [_fillBuffer(buffer)] returns [offset]; a round of the loop takes a
    chunk from [_data] or from [_stream], so their number bounds the
    rounds. *)
Definition _fillBuffer (buffer : list byte) (r : t)
    : Outcome (list byte * nat) t :=
  _fillBuffer_loop
    (S (length (_data r) + length (Stream.buffer (_stream r)))) buffer 0 r.

Section Host.

Variable nativeEndianness : Endianness.

Definition _fillTypedArray (typedArray : TypedArray)
    (endianness : Endianness) (r : t) : Outcome (nat * TypedArray) t :=
  let bytesPerElement := BYTES_PER_ELEMENT (kind typedArray) in
  let* (buffer, byteLength), r := await _fillBuffer (bytes typedArray) r in
  let length_ := byteLength / bytesPerElement in
  let chunk := slice buffer (length_ * bytesPerElement) byteLength in
  let r := if (0 <? length chunk)%nat then _ungetChunk chunk r else r in
  if negb (Endianness_eqb endianness nativeEndianness) then
    match swap (bytesPerElement * 8)
               (slice buffer 0 (length_ * bytesPerElement)) with
    | inr swapped =>
        Returned (length_,
                  {| kind := kind typedArray;
                     bytes := swapped ++ skipn (length swapped) buffer |}) r
    | inl e => Threw e r
    end
  else Returned (length_, {| kind := kind typedArray; bytes := buffer |}) r.

(** What [fill] returns: the count with [partial], else the container. *)
Inductive Fill :=
| Count (n : nat)
| Whole (container : Container).

(** [fill(container, endianness, { partial })] *)
Definition fill (container : Container) (endianness : option Endianness)
    (partial : bool) (r : t) : Outcome Fill t :=
  let endianness :=
    match endianness with
    | Some e => e
    | None => nativeEndianness
    end in
  let* (length_, container), r :=
    await
      match container with
      | BufferC buffer =>
          let* (buffer, n), r := await _fillBuffer buffer r in
          Returned (n, BufferC buffer) r
      | TypedArrayC typedArray =>
          let* (n, typedArray), r :=
            await _fillTypedArray typedArray endianness r in
          Returned (n, TypedArrayC typedArray) r
      end in
  if partial then Returned (Count length_) r
  else if (length_ <? Container_length container)%nat
  then Threw (NotEnoughError (Some container)
                             (Some (Int (Z.of_nat length_)))) r
  else Returned (Whole container) r.

Definition fillLE (container : Container) (partial : bool) (r : t) :=
  fill container (Some LE) partial r.

Definition fillBE (container : Container) (partial : bool) (r : t) :=
  fill container (Some BE) partial r.

(** [this[`read${bufferName}`](endianness)] *)
Definition readX (bufferName : MethodTypeName)
    (endianness : option Endianness) (r : t) : Outcome Scalar t :=
  let endianness :=
    match endianness with
    | Some e => e
    | None => nativeEndianness
    end in
  let typedArray := new_TypedArray (TypedArrayOf bufferName) 1 in
  let* (length_, typedArray), r :=
    await _fillTypedArray typedArray endianness r in
  if (length_ =? 0)%nat then Threw (NotEnoughError None None) r
  else Returned (element nativeEndianness typedArray 0) r.

(** Both wrappers pass ['LE'], as the source has it. *)
Definition readXLE (bufferName : MethodTypeName) (r : t) :=
  readX bufferName (Some LE) r.

Definition readXBE (bufferName : MethodTypeName) (r : t) :=
  readX bufferName (Some LE) r.

End Host.

(** *** The reader after a failure of the source *)

(** The source has failed with [error], the end was not seen, and no
    request is pending: the error is stored and both handlers of
    [_stream] are detached. *)
Definition Failed (error : nat) (r : t) : Prop :=
  _error r = Some error /\ _end r = false /\ _resolve r = false /\
  Stream.dataListener (_stream r) = false /\
  Stream.endListener (_stream r) = false.

(** *** States of a reader between two calls *)

(** The getter [bytesRemain]. *)
Definition bytesRemain (r : t) : option Z := _bytesRemain r.

(** The bytes that wait in [_data] and in [_stream], in order. *)
Definition queued (r : t) : list byte :=
  concat (_data r) ++ Stream.bytes (_stream r).

(** Neither the end nor an error of the source was seen: the stream is
    paused with both handlers attached, no request is pending. *)
Definition Open (r : t) : Prop :=
  _end r = false /\ _error r = None /\ _resolve r = false /\
  Stream.dataListener (_stream r) = true /\
  Stream.endListener (_stream r) = true /\
  Stream.endEmitted (_stream r) = false /\
  Stream.flowing (_stream r) = false.

(** The end of the source was seen: the stream is empty. *)
Definition Closed (r : t) : Prop :=
  _end r = true /\ _resolve r = false /\ Stream.buffer (_stream r) = [].

(** [_bytesRemain] is undefined until the end or an error of the source
    was seen; from then on it is the number of bytes in [_data], and the
    handlers that would add to [_data] are detached. *)
Definition Counted (r : t) : Prop :=
  if finished r then
    _bytesRemain r = Some (total (_data r)) /\
    errorListener r = false /\
    Stream.dataListener (_stream r) = false /\
    Stream.endListener (_stream r) = false
  else _bytesRemain r = None.

End ProReader.


(** ** reader.js: the queue is [_events] *)

Module EventReader.

Inductive Event :=
| data (chunk : Chunk)   (* { data } *)
| end_                   (* { end: true } *)
| error (e : nat).       (* { error } *)

Inductive Dispatch :=
| Idle
| resolve (value : option Chunk)
| reject (e : nat).

Record t := mk {
  errorListener : bool;    (* the source still has [_errorHandler] attached *)
  _stream : Stream.t;
  _events : list Event;
  _bytesRemain : option Z; (* [None] is [undefined] *)
  _resolve : bool          (* [_resolve] and [_reject] are stored *)
}.

Definition set_stream (s : Stream.t) (r : t) : t :=
  mk (errorListener r) s (_events r) (_bytesRemain r) (_resolve r).

Definition set_events (e : list Event) (r : t) : t :=
  mk (errorListener r) (_stream r) e (_bytesRemain r) (_resolve r).

Definition set_bytesRemain (n : option Z) (r : t) : t :=
  mk (errorListener r) (_stream r) (_events r) n (_resolve r).

Definition set_resolve (b : bool) (r : t) : t :=
  mk (errorListener r) (_stream r) (_events r) (_bytesRemain r) b.

Definition chunk_length (chunk : Chunk) : Z := Z.of_nat (length chunk).

Definition constructor : t :=
  mk true (Stream.once_end (Stream.pause (Stream.on_data Stream.create)))
     [] None false.

Definition _dispatch (r : t) : t * Dispatch :=
  if negb (_resolve r) then (r, Idle)
  else
    match _events r with
    | [] => (set_stream (Stream.resume (_stream r)) r, Idle)
    | event :: rest =>
        let r := set_events rest r in
        match event with
        | data chunk =>
            let r := set_resolve false r in
            let r := set_bytesRemain
                       (option_map (fun n => (n - chunk_length chunk)%Z)
                                   (_bytesRemain r)) r in
            (r, resolve (Some chunk))
        | end_ =>
            let r := set_resolve false r in
            let r := set_events (event :: _events r) r in
            let r := set_bytesRemain (Some 0%Z) r in
            (r, resolve None)
        | error e => (set_resolve false r, reject e)
        end
    end.

Definition _errorHandler (e : nat) (r : t) : t * Dispatch :=
  let r := mk false (Stream.pause (_stream r)) (_events r ++ [error e])
              (_bytesRemain r) (_resolve r) in
  _dispatch r.

Definition _dataHandler (chunk : Chunk) (r : t) : t * Dispatch :=
  let r := set_stream (Stream.pause (_stream r)) r in
  _dispatch (set_events (_events r ++ [data chunk]) r).

Definition _endHandler (r : t) : t * Dispatch :=
  let r := mk false (Stream.remove_data_listener (_stream r))
              (_events r ++ [end_]) (_bytesRemain r) (_resolve r) in
  _dispatch r.

(** *** Event emission of [_stream], and the source piped into it *)

Definition emit_end (r : t) : t * Dispatch :=
  let s := _stream r in
  match Stream.buffer s with
  | [] =>
      if Stream.ended s && negb (Stream.endEmitted s) then
        let r := set_stream (Stream.emit_end s) r in
        if Stream.endListener s then _endHandler r else (r, Idle)
      else (r, Idle)
  | _ :: _ => (r, Idle)
  end.

Definition emit_data (chunk : Chunk) (r : t) : t * Dispatch :=
  if Stream.dataListener (_stream r) then _dataHandler chunk r else (r, Idle).

Fixpoint flow (chunks : list Chunk) (r : t) : t * Dispatch :=
  match chunks with
  | [] => emit_end (set_stream (Stream.set_buffer [] (_stream r)) r)
  | chunk :: rest =>
      let r := set_stream (Stream.set_buffer rest (_stream r)) r in
      let '(r, d) := emit_data chunk r in
      match d with
      | Idle => if Stream.flowing (_stream r) then flow rest r else emit_end r
      | _ => (fst (emit_end r), d)
      end
  end.

Definition run (r : t) : t * Dispatch :=
  if Stream.flowing (_stream r) then flow (Stream.buffer (_stream r)) r
  else (r, Idle).

(** The pipe passes a chunk of the source on to [_stream]. *)
Definition source_write (chunk : Chunk) (r : t) : t * Dispatch :=
  run (set_stream (Stream.write chunk (_stream r)) r).

(** The pipe ends [_stream], the source having ended.  The source itself
    and the moment at which the pipe acts are not modelled: here
    [_stream] may have been ended while chunks still wait in it, and the
    tick that emits ['end'] follows at once the read that empties it. *)
Definition source_end (r : t) : t * Dispatch :=
  run (set_stream (Stream.end_ (_stream r)) r).

Definition source_error (e : nat) (r : t) : t * Dispatch :=
  if errorListener r then _errorHandler e r else (r, Idle).

(** *** Chunk requests *)

Definition _readChunk (r : t) : t * Dispatch :=
  _dispatch (set_resolve true r).

(** [await this._readChunk()] *)
Definition await_readChunk (r : t) : t * Dispatch :=
  let '(r, d) := _readChunk r in
  match d with
  | Idle => run r
  | _ => (r, d)
  end.

Definition _unreadChunk (chunk : Chunk) (r : t) : t :=
  let r := set_events (data chunk :: _events r) r in
  set_bytesRemain
    (option_map (fun n => (n + chunk_length chunk)%Z) (_bytesRemain r)) r.

(** *** Filling *)

Fixpoint _readBuffer_loop (fuel : nat) (buffer : list byte) (offset : nat)
    (r : t) : Outcome (list byte * nat) t :=
  if (offset <? length buffer)%nat then
    match fuel with
    | O => OutOfFuel
    | S fuel =>
        let '(r, d) := await_readChunk r in
        match d with
        | Idle => Suspended r
        | reject e => Threw (SourceError e) r
        | resolve None => Returned (buffer, offset) r
        | resolve (Some chunk) =>
            let length_ := Nat.min (length buffer - offset) (length chunk) in
            let buffer := copy chunk buffer offset length_ in
            let offset := offset + length_ in
            if (length_ =? length chunk)%nat
            then _readBuffer_loop fuel buffer offset r
            else _readBuffer_loop fuel buffer offset
                   (_unreadChunk (skipn length_ chunk) r)
        end
    end
  else Returned (buffer, offset) r.

Definition _readBuffer_finish (blockLength : nat) (buffer : list byte)
    (offset : nat) (r : t) : Outcome (Num * list byte) t :=
  let blockCount := floor_div offset blockLength in
  let excess :=
    slice buffer (to_index (length buffer) (Num_mul blockCount blockLength))
          offset in
  Returned (blockCount, buffer) (_unreadChunk excess r).

(** [_readBuffer(buffer, blockLength)]; a round of the loop takes an
    event from [_events] or a chunk from [_stream]. *)
Definition _readBuffer (buffer : list byte) (blockLength : nat) (r : t)
    : Outcome (Num * list byte) t :=
  let* (buffer, offset), r :=
    await _readBuffer_loop
            (S (length (_events r) + length (Stream.buffer (_stream r))))
            buffer 0 r in
  _readBuffer_finish blockLength buffer offset r.

Section Host.

Variable nativeEndianness : Endianness.

Definition _readTypedArray (typedArray : TypedArray) (blockLength : nat)
    (endianness : Endianness) (r : t) : Outcome (Num * TypedArray) t :=
  let elementLength := BYTES_PER_ELEMENT (kind typedArray) in
  let buffer := bytes typedArray in
  let* (blockCount, buffer), r := await _readBuffer buffer (blockLength * elementLength) r in
  if negb (Endianness_eqb endianness nativeEndianness) then
    let stop :=
      to_index (length buffer)
        (Num_mul (Num_mul blockCount blockLength) elementLength) in
    match swap (elementLength * 8) (slice buffer 0 stop) with
    | inr readPart =>
        Returned (blockCount,
                  {| kind := kind typedArray;
                     bytes := readPart ++ skipn (length readPart) buffer |}) r
    | inl e => Threw e r
    end
  else Returned (blockCount, {| kind := kind typedArray; bytes := buffer |}) r.

(** [read(container, { blockLength, endianness, allowPart })]: here each
    branch of the conditional is awaited.  The result is the returned
    value ([None] is [undefined]) and the container as the call leaves
    it. *)
Definition read (container : Container) (blockLength : nat)
    (endianness : option Endianness) (allowPart : bool) (r : t)
    : Outcome (option Num * Container) t :=
  let endianness :=
    match endianness with
    | Some e => e
    | None => nativeEndianness
    end in
  let* (blockCount, container), r :=
    await
      match container with
      | BufferC buffer =>
          let* (n, buffer), r := await _readBuffer buffer blockLength r in
          Returned (n, BufferC buffer) r
      | TypedArrayC typedArray =>
          let* (n, typedArray), r :=
            await _readTypedArray typedArray blockLength endianness r in
          Returned (n, TypedArrayC typedArray) r
      end in
  if allowPart then Returned (Some blockCount, container) r
  else if Num_ltb (Num_mul blockCount blockLength) (Container_length container)
  then Threw (NotEnoughError (Some container) (Some blockCount)) r
  else Returned (None, container) r.

Definition readLE (container : Container) (blockLength : nat)
    (allowPart : bool) (r : t) :=
  read container blockLength (Some LE) allowPart r.

Definition readBE (container : Container) (blockLength : nat)
    (allowPart : bool) (r : t) :=
  read container blockLength (Some BE) allowPart r.

Definition readX (methodTypeName : MethodTypeName)
    (endianness : option Endianness) (r : t) : Outcome Scalar t :=
  let endianness :=
    match endianness with
    | Some e => e
    | None => nativeEndianness
    end in
  let typedArray := new_TypedArray (TypedArrayOf methodTypeName) 1 in
  let* (blockCount, typedArray), r :=
    await _readTypedArray typedArray 1 endianness r in
  if Num_is_zero blockCount then Threw (NotEnoughError None None) r
  else Returned (element nativeEndianness typedArray 0) r.

Definition readXLE (methodTypeName : MethodTypeName) (r : t) :=
  readX methodTypeName (Some LE) r.

Definition readXBE (methodTypeName : MethodTypeName) (r : t) :=
  readX methodTypeName (Some BE) r.

End Host.

(** *** States of a reader between two calls *)

(** The chunks that wait in [_events], and the bytes that wait there and in
    [_stream], in order. *)
Definition chunks_of (events : list Event) : list Chunk :=
  flat_map (fun event => match event with data chunk => [chunk] | _ => [] end)
           events.

Definition queued (r : t) : list byte :=
  concat (chunks_of (_events r)) ++ Stream.bytes (_stream r).

(** The end of the source was not seen: [_events] holds data only, the
    stream is paused with both handlers attached, no request is pending. *)
Definition Steady (r : t) : Prop :=
  _resolve r = false /\
  _events r = map data (chunks_of (_events r)) /\
  Stream.dataListener (_stream r) = true /\
  Stream.endListener (_stream r) = true /\
  Stream.endEmitted (_stream r) = false /\
  Stream.flowing (_stream r) = false.

(** The end of the source was seen: [_events] holds data and then the end,
    and the stream is empty. *)
Definition Ended (r : t) : Prop :=
  _resolve r = false /\
  _events r = map data (chunks_of (_events r)) ++ [end_] /\
  Stream.buffer (_stream r) = [].

(** The getter [bytesRemain]. *)
Definition bytesRemain (r : t) : option Z := _bytesRemain r.

(** The count is exact: the end was seen and [_bytesRemain] is the number
    of bytes that wait. *)
Definition Exact (r : t) : Prop :=
  Ended r /\ _bytesRemain r = Some (Z.of_nat (length (queued r))).

End EventReader.

(** ** native-endianness.js: the byte order of the machine

    The module stores the 16-bit element 1 and looks at the first byte of
    its storage.  proreader.js computes the same constant in place. *)

Module NativeEndianness.

(** The byte [value mod 256]. *)
Definition low_byte (value : Z) : byte :=
  match Byte.of_N (Z.to_N (value mod 256)) with
  | Some b => b
  | None => x00
  end.

(** The [width] low bytes of [value], least significant first. *)
Fixpoint le_bytes (width : nat) (value : Z) : list byte :=
  match width with
  | O => []
  | S width => low_byte value :: le_bytes width (value / 256)
  end.

(** [TypedArray.of(value)] for an integer [value], on a machine of byte
    order [machine]: one element, stored in that order. *)
Definition TypedArray_of (machine : Endianness) (kind : TypedArrayKind)
    (value : Z) : TypedArray :=
  let raw := le_bytes (BYTES_PER_ELEMENT kind) value in
  {| kind := kind;
     bytes := match machine with LE => raw | BE => rev raw end |}.

(** What the module exports when it is loaded on that machine. *)
Definition nativeEndianness (machine : Endianness) : Endianness :=
  let u16 := TypedArray_of machine Uint16Array 1 in
  let u8 := {| kind := Uint8Array; bytes := bytes u16 |} in
  match element machine u8 0 with
  | Integer 0 => BE       (* [u8[0]] is falsy *)
  | _ => LE
  end.

End NativeEndianness.


(** ** Scenarios on the Symbol-keyed Reader *)

Module Scenarios.
Import Reader.

(** A reader whose producer wrote [chunks] and then ended the input, in
    later ticks than the construction. *)
Definition fed (defaultEndianness : Endianness) (chunks : list Chunk) : t :=
  fst (input_end (writes chunks (constructor defaultEndianness))).

(** The scenario of the specification: five chunks, then the end. *)
Definition scenario_chunks : list Chunk :=
  [[x01; x00; x00; x00]; [x02; x00; x00]; [x00; x03];
   [x00; x00; x00; x04]; [x00; x00]].

End Scenarios.

(** * Properties *)

(** ** Facts about the buffer primitives *)

Section BufferFacts.

Implicit Types chunk buffer rest : list byte.

Lemma copy_length chunk buffer offset n :
  offset + n <= length buffer -> n <= length chunk ->
  length (copy chunk buffer offset n) = length buffer.
Proof.
  intros H1 H2. unfold copy.
  rewrite !length_app, !length_firstn, length_skipn. lia.
Qed.

Lemma copy_nothing chunk buffer offset :
  copy chunk buffer offset 0 = buffer.
Proof.
  unfold copy. simpl. rewrite Nat.add_0_r. apply firstn_skipn.
Qed.

Lemma copy_prefix chunk rest buffer offset n :
  n <= length chunk ->
  copy (chunk ++ rest) buffer offset n = copy chunk buffer offset n.
Proof.
  intros H. unfold copy. rewrite firstn_app.
  replace (n - length chunk) with 0 by lia. simpl. now rewrite app_nil_r.
Qed.

Lemma copy_twice chunk rest buffer offset n :
  offset + length chunk <= length buffer ->
  copy rest (copy chunk buffer offset (length chunk))
       (offset + length chunk) n
  = copy (chunk ++ rest) buffer offset (length chunk + n).
Proof.
  intros H. unfold copy.
  rewrite firstn_all.
  assert (Hf : length (firstn offset buffer) = offset)
    by (rewrite length_firstn; lia).
  rewrite (app_assoc (firstn offset buffer) chunk).
  rewrite firstn_app.
  rewrite length_app, Hf.
  replace (offset + length chunk - (offset + length chunk)) with 0 by lia.
  rewrite firstn_all2 by (rewrite length_app, Hf; lia).
  simpl. rewrite app_nil_r.
  rewrite skipn_app. rewrite length_app, Hf.
  rewrite skipn_all2 by (rewrite length_app, Hf; lia).
  replace (offset + length chunk + n - (offset + length chunk)) with n by lia.
  simpl. rewrite skipn_skipn.
  rewrite (firstn_app (length chunk + n)).
  rewrite (firstn_all2 chunk) by lia.
  replace (length chunk + n - length chunk) with n by lia.
  rewrite <- !app_assoc.
  replace (n + (offset + length chunk)) with (offset + (length chunk + n)) by lia.
  reflexivity.
Qed.


Lemma slice_copy_prefix chunk buffer start stop :
  stop <= length chunk -> stop <= length buffer ->
  slice (copy chunk buffer 0 stop) start stop = slice chunk start stop.
Proof.
  intros H1 H2. unfold slice, copy. simpl.
  destruct (Nat.le_gt_cases start stop) as [Hle|Hgt].
  - rewrite skipn_app, length_firstn.
    replace (Nat.min stop (length chunk)) with stop by lia.
    replace (start - stop) with 0 by lia. simpl.
    rewrite firstn_app, length_skipn, length_firstn.
    replace (stop - start - (Nat.min stop (length chunk) - start)) with 0 by lia.
    simpl. rewrite app_nil_r.
    rewrite skipn_firstn_comm.
    rewrite firstn_firstn. now rewrite Nat.min_id.
  - now replace (stop - start) with 0 by lia.
Qed.

Lemma slice_then_rest chunk start stop :
  start <= stop -> slice chunk start stop ++ skipn stop chunk = skipn start chunk.
Proof.
  intros H. unfold slice.
  replace stop with (start + (stop - start)) at 2 by lia.
  rewrite Nat.add_comm, <- skipn_skipn. apply firstn_skipn.
Qed.

End BufferFacts.

Module ReaderFacts.
Import Reader.

Lemma Listening_Pushable r : Listening r -> Pushable r.
Proof.
  intros (Hu & _ & _ & _ & He & _). right. split; [|exact He].
  unfold unread_is_zero. now rewrite Hu.
Qed.

Lemma Drained_Pushable r : Drained r -> Pushable r.
Proof.
  intros (Hu & _ & Hq). left. split; [|exact Hq].
  unfold unread_is_zero. now rewrite Hu.
Qed.

Lemma constructor_Listening e : Listening (constructor e).
Proof. repeat split. Qed.

(** An end in the tick of the construction is observed without a
    request. *)
Lemma input_end_at_once_Drained e :
  input_end_at_once (constructor e)
  = (fst (input_end_at_once (constructor e)), Quiet) /\
  Drained (fst (input_end_at_once (constructor e))).
Proof. repeat split. Qed.

(** What the producer writes to a paused stream queues up behind. *)
Lemma writes_paused later : forall r,
  Stream.flowing (INPUT r) = false ->
  writes later r
  = set_INPUT
      (Stream.set_buffer
         (queue r ++ if Stream.ended (INPUT r) then [] else Stream.written later)
         (INPUT r)) r.
Proof.
  unfold queue.
  induction later as [|chunk later IH];
    intros [d [b e ee f dl el] br bu res]; simpl; intros ->.
  - destruct e; now rewrite app_nil_r.
  - unfold writes in *. simpl. unfold input_write, run, Stream.write. simpl.
    destruct e; simpl.
    + rewrite IH by reflexivity. reflexivity.
    + destruct (length chunk =? 0)%nat; simpl.
      * rewrite IH by reflexivity. reflexivity.
      * rewrite IH by reflexivity. simpl. now rewrite <- app_assoc.
Qed.

(** The chunks that are not queued hold no byte. *)
Lemma concat_written chunks : concat (Stream.written chunks) = concat chunks.
Proof.
  induction chunks as [|chunk chunks IH]; [reflexivity|].
  unfold Stream.written in *. simpl.
  destruct (length chunk =? 0)%nat eqn:Hlen; simpl.
  - apply Nat.eqb_eq, length_zero_iff_nil in Hlen. now subst chunk.
  - now rewrite IH.
Qed.

(** So a reader whose producer has written [chunks] since the
    construction listens with exactly these chunks queued, those of length
    zero apart. *)
Lemma writes_constructor e chunks :
  Listening (writes chunks (constructor e)) /\
  queue (writes chunks (constructor e)) = Stream.written chunks.
Proof.
  rewrite writes_paused by reflexivity. split; [repeat split | reflexivity].
Qed.

(** A push-back puts its bytes in front of the queued ones, as one chunk,
    and touches no counter of delivered bytes. *)
Lemma UNREAD_CHUNK_Pushable chunk r :
  Pushable r ->
  exists r',
    UNREAD_CHUNK chunk r = Some r' /\
    queue r' = (if (length chunk =? 0)%nat then queue r else chunk :: queue r) /\
    queued r' = chunk ++ queued r /\
    BYTES_READ r' = BYTES_READ r /\
    DEFAULT_ENDIANNESS r' = DEFAULT_ENDIANNESS r /\
    Pushable r'.
Proof.
  intros HP. unfold UNREAD_CHUNK.
  destruct (length chunk =? 0)%nat eqn:Hlen.
  - exists r. apply Nat.eqb_eq, length_zero_iff_nil in Hlen. subst chunk.
    repeat split; auto.
  - assert (Hpos : length chunk <> 0) by now apply Nat.eqb_neq.
    destruct HP as [[Hz Hq] | [Hz He]]; rewrite Hz; simpl.
    + eexists; split; [reflexivity|].
      unfold queue, queued, Stream.bytes, Stream.end_with, Stream.write in *;
        simpl.
      rewrite Hlen, Hq. simpl. rewrite !app_nil_r.
      split; [reflexivity|]. split; [reflexivity|].
      split; [reflexivity|]. split; [reflexivity|].
      right. split; [|reflexivity]. unfold unread_is_zero; simpl.
      apply Z.eqb_neq. unfold chunk_length. lia.
    + unfold Stream.unshift. rewrite He.
      eexists; split; [reflexivity|].
      unfold queue, queued, Stream.bytes in *; simpl.
      split; [reflexivity|]. split; [reflexivity|].
      split; [reflexivity|]. split; [reflexivity|].
      right. split; assumption.
Qed.

(** What a resumed stream does for the request that resumed it. *)
Lemma flow_listening chunks : forall r r' signal,
  BYTES_UNREAD r = None -> RESOLVE r = true ->
  Stream.dataListener (INPUT r) = true ->
  Stream.endListener (INPUT r) = true ->
  Stream.endEmitted (INPUT r) = false ->
  Stream.flowing (INPUT r) = true ->
  flow chunks r = (r', signal) ->
  DEFAULT_ENDIANNESS r' = DEFAULT_ENDIANNESS r /\
  Stream.ended (INPUT r') = Stream.ended (INPUT r) /\
  match signal with
  | Resolve (Some chunk) =>
      chunk <> [] /\ concat chunks = chunk ++ queued r' /\
      BYTES_READ r' = (BYTES_READ r + chunk_length chunk)%Z /\
      (Listening r' \/ Drained r')
  | Resolve None =>
      concat chunks = [] /\ Stream.ended (INPUT r) = true /\
      BYTES_READ r' = BYTES_READ r /\ Drained r'
  | Quiet =>
      concat chunks = [] /\ Stream.ended (INPUT r) = false /\
      RESOLVE r' = true
  | Uncaught => False
  end.
Proof.
  induction chunks as [|chunk rest IH];
    intros [d [b e ee f dl el] br bu res] r' signal; simpl;
    intros -> -> -> -> -> ->.
  - unfold emit_end; simpl. destruct e; simpl.
    + intros [= <- <-]. simpl. repeat split.
    + intros [= <- <-]. simpl. repeat split.
  - unfold emit_data, onData; simpl.
    destruct chunk as [|x chunk]; simpl.
    + intros H. apply IH in H; try reflexivity. simpl in H. exact H.
    + unfold emit_end; simpl.
      destruct rest as [|c rest]; simpl.
      * destruct e; simpl; intros [= <- <-]; simpl;
          (split; [reflexivity|]); (split; [reflexivity|]);
          (split; [discriminate|]); unfold queued, Stream.bytes; simpl;
          rewrite ?app_nil_r; (split; [reflexivity|]);
          (split; [unfold chunk_length; simpl; lia|]).
        -- right. repeat split.
        -- left. repeat split.
      * intros [= <- <-]; simpl.
        (split; [reflexivity|]); (split; [reflexivity|]);
          (split; [discriminate|]); unfold queued, Stream.bytes; simpl.
        split; [reflexivity|]. split; [unfold chunk_length; simpl; lia|].
        left. repeat split.
Qed.

(** A chunk request of a listening reader: the next non-empty chunk, or
    [null] at the end of input, or nothing yet. *)
Lemma await_READ_CHUNK_Listening r r' signal :
  Listening r ->
  await_READ_CHUNK r = (r', signal) ->
  DEFAULT_ENDIANNESS r' = DEFAULT_ENDIANNESS r /\
  Stream.ended (INPUT r') = Stream.ended (INPUT r) /\
  match signal with
  | Resolve (Some chunk) =>
      chunk <> [] /\ queued r = chunk ++ queued r' /\
      BYTES_READ r' = (BYTES_READ r + chunk_length chunk)%Z /\
      (Listening r' \/ Drained r')
  | Resolve None =>
      queued r = [] /\ Stream.ended (INPUT r) = true /\
      BYTES_READ r' = BYTES_READ r /\ Drained r'
  | Quiet =>
      queued r = [] /\ Stream.ended (INPUT r) = false /\ RESOLVE r' = true
  | Uncaught => False
  end.
Proof.
  intros (Hu & Hr & Hd & He & Hee & Hf).
  unfold await_READ_CHUNK, READ_CHUNK, unread_is_zero. rewrite Hu.
  unfold run. simpl. intros H.
  apply flow_listening in H; simpl; auto.
Qed.

Lemma await_READ_CHUNK_Drained r :
  Drained r -> await_READ_CHUNK r = (r, Resolve None).
Proof.
  intros (Hu & _). unfold await_READ_CHUNK, READ_CHUNK, unread_is_zero.
  now rewrite Hu.
Qed.

(** Whatever the state of the reader, a chunk that settles a request is
    not empty: [onData] lets no empty chunk through. *)
Lemma flow_chunk_not_empty chunks : forall r r' chunk,
  flow chunks r = (r', Resolve (Some chunk)) -> chunk <> [].
Proof.
  induction chunks as [|c rest IH];
    intros [d [b e ee f dl el] br bu res] r' chunk; simpl.
  - unfold emit_end, onEnd; simpl.
    destruct (e && negb ee); [|discriminate].
    destruct el; [|discriminate].
    simpl. destruct res; discriminate.
  - unfold emit_data, onData; simpl.
    destruct dl; simpl.
    + destruct c as [|x c]; simpl.
      * destruct f; [apply IH | discriminate].
      * destruct bu, res; simpl; try discriminate;
          intros [= _ <-]; discriminate.
    + destruct f; [apply IH | discriminate].
Qed.

Lemma await_READ_CHUNK_not_empty r r' chunk :
  await_READ_CHUNK r = (r', Resolve (Some chunk)) -> chunk <> [].
Proof.
  unfold await_READ_CHUNK, READ_CHUNK.
  destruct (unread_is_zero r); [discriminate|].
  unfold run. simpl. apply flow_chunk_not_empty.
Qed.

(** So a fill never needs more rounds than its buffer has bytes: the bound
    built into [READ_BUFFER] is enough in every state. *)
Lemma READ_BUFFER_loop_fuel fuel : forall buffer offset r,
  offset <= length buffer -> length buffer - offset <= fuel ->
  READ_BUFFER_loop fuel buffer offset r <> OutOfFuel.
Proof.
  induction fuel as [|fuel IH]; intros buffer offset r Hle Hfuel; simpl.
  - replace (offset <? length buffer) with false
      by (symmetry; apply Nat.ltb_ge; lia).
    discriminate.
  - destruct (offset <? length buffer) eqn:Hlt; [|discriminate].
    apply Nat.ltb_lt in Hlt.
    destruct (await_READ_CHUNK r) as [r1 signal] eqn:Hawait.
    destruct signal as [|[chunk|]|]; try discriminate.
    apply await_READ_CHUNK_not_empty in Hawait.
    assert (Hpos : 0 < length chunk)
      by (destruct chunk; simpl; [congruence | lia]).
    set (n := Nat.min (length buffer - offset) (length chunk)).
    assert (Hlen : length (copy chunk buffer offset n) = length buffer)
      by (apply copy_length; subst n; lia).
    destruct (n =? length chunk).
    + apply IH; rewrite Hlen; subst n; lia.
    + destruct (UNREAD_CHUNK _ r1); [|discriminate].
      apply IH; rewrite Hlen; subst n; lia.
Qed.

Lemma READ_BUFFER_never_OutOfFuel buffer blockLength r :
  READ_BUFFER buffer blockLength r <> OutOfFuel.
Proof.
  unfold READ_BUFFER, await.
  pose proof (@READ_BUFFER_loop_fuel (length buffer) buffer 0 r) as H.
  destruct (READ_BUFFER_loop (length buffer) buffer 0 r) as [[b o] r'|e r'|r'|];
    try discriminate.
  - unfold READ_BUFFER_finish. destruct (UNREAD_CHUNK _ r'); discriminate.
  - exfalso. apply H; [lia | lia | reflexivity].
Qed.

Lemma READ_BUFFER_loop_full fuel buffer r :
  READ_BUFFER_loop fuel buffer (length buffer) r
  = Returned (buffer, length buffer) r.
Proof.
  destruct fuel; simpl; now rewrite Nat.ltb_irrefl.
Qed.

(** The loop copies the queued bytes, in order, until the buffer is full
    or the input is exhausted, and leaves the rest queued in order. *)
Lemma READ_BUFFER_loop_spec fuel : forall buffer offset r,
  (Listening r /\
   (Stream.ended (INPUT r) = true \/ length buffer - offset <= length (queued r)))
  \/ Drained r ->
  offset <= length buffer ->
  length buffer - offset <= fuel ->
  let n := Nat.min (length buffer - offset) (length (queued r)) in
  exists r',
    READ_BUFFER_loop fuel buffer offset r
    = Returned (copy (queued r) buffer offset n, offset + n) r' /\
    queued r' = skipn n (queued r) /\
    DEFAULT_ENDIANNESS r' = DEFAULT_ENDIANNESS r /\
    Pushable r' /\
    (BYTES_READ r + Z.of_nat n <= BYTES_READ r')%Z.
Proof.
  induction fuel as [|fuel IH]; intros buffer offset r Hr Hle Hfuel n.
  - assert (offset = length buffer) by lia. subst offset.
    subst n. rewrite Nat.sub_diag. simpl.
    rewrite Nat.ltb_irrefl, copy_nothing, Nat.add_0_r.
    exists r. split; [reflexivity|]. split; [reflexivity|].
    split; [reflexivity|]. split; [|lia].
    destruct Hr as [[Hl _]|Hd];
      [now apply Listening_Pushable | now apply Drained_Pushable].
  - simpl. destruct (offset <? length buffer) eqn:Hlt.
    2:{ apply Nat.ltb_ge in Hlt. subst n.
        replace (length buffer - offset) with 0 by lia. simpl.
        rewrite copy_nothing, Nat.add_0_r.
        exists r. split; [reflexivity|]. split; [reflexivity|].
        split; [reflexivity|]. split; [|lia].
        destruct Hr as [[Hl _]|Hd];
          [now apply Listening_Pushable | now apply Drained_Pushable]. }
    apply Nat.ltb_lt in Hlt.
    destruct Hr as [[Hl Hin]|Hd].
    2:{ rewrite (await_READ_CHUNK_Drained Hd).
        assert (Hq : queued r = []).
        { destruct Hd as (_ & _ & Hq). unfold queued, Stream.bytes.
          unfold queue in Hq. now rewrite Hq. }
        subst n. rewrite Hq. simpl. rewrite Nat.min_0_r.
        rewrite copy_nothing, Nat.add_0_r.
        exists r. split; [reflexivity|]. split; [exact Hq|].
        split; [reflexivity|]. split; [now apply Drained_Pushable | simpl; lia]. }
    destruct (await_READ_CHUNK r) as [r1 signal] eqn:Hawait.
    destruct (await_READ_CHUNK_Listening Hl Hawait) as (Hde & Hen & Hsig).
    destruct signal as [|[chunk|]|].
    + destruct Hsig as (Hq & Hne & _). rewrite Hq in Hin. simpl in Hin.
      destruct Hin; [congruence | lia].
    + destruct Hsig as (Hne & Hq & Hbr & Hst).
      assert (Hpos : 0 < length chunk) by (destruct chunk; simpl; [congruence|lia]).
      destruct (Nat.min (length buffer - offset) (length chunk) =? length chunk)
        eqn:Hmin.
      * apply Nat.eqb_eq in Hmin. rewrite Hmin.
        assert (Hfit : length chunk <= length buffer - offset) by lia.
        assert (Hlen := @copy_length chunk buffer offset (length chunk)
                          ltac:(lia) ltac:(lia)).
        destruct (IH (copy chunk buffer offset (length chunk))
                     (offset + length chunk) r1)
          as (r' & Hrun & Hq' & Hd' & Hp' & Hb').
        { destruct Hst as [Hl1|Hd1]; [left; split; [exact Hl1|] | now right].
          rewrite Hen, Hlen. destruct Hin as [Hin|Hin]; [now left | right].
          rewrite Hq, length_app in Hin. lia. }
        { lia. }
        { lia. }
        exists r'. rewrite Hrun, Hlen, copy_twice by lia.
        subst n. rewrite Hq, length_app.
        replace (Nat.min (length buffer - offset)
                   (length chunk + length (queued r1)))
          with (length chunk
                + Nat.min (length buffer - (offset + length chunk))
                    (length (queued r1))) by lia.
        rewrite Nat.add_assoc. split; [reflexivity|].
        rewrite Hlen in Hq', Hb'.
        rewrite Hq'. split; [|split; [congruence | split; [exact Hp'|]]].
        { rewrite skipn_app.
          set (m := Nat.min _ _).
          rewrite (skipn_all2 chunk) by lia.
          now replace (length chunk + m - length chunk) with m by lia. }
        unfold chunk_length in Hbr. lia.
      * apply Nat.eqb_neq in Hmin.
        assert (Hcut : Nat.min (length buffer - offset) (length chunk)
                       = length buffer - offset) by lia.
        rewrite Hcut.
        assert (Hp1 : Pushable r1).
        { destruct Hst; [now apply Listening_Pushable | now apply Drained_Pushable]. }
        destruct (UNREAD_CHUNK_Pushable (skipn (length buffer - offset) chunk) Hp1)
          as (r2 & Hun & _ & Hq2 & Hb2 & Hd2 & Hp2).
        rewrite Hun.
        assert (Hlen := @copy_length chunk buffer offset (length buffer - offset)
                          ltac:(lia) ltac:(lia)).
        replace (offset + (length buffer - offset))
          with (length (copy chunk buffer offset (length buffer - offset)))
          by lia.
        rewrite READ_BUFFER_loop_full.
        exists r2. subst n. rewrite Hq, length_app.
        replace (Nat.min (length buffer - offset)
                   (length chunk + length (queued r1)))
          with (length buffer - offset) by lia.
        rewrite copy_prefix by lia.
        rewrite Hlen. replace (offset + (length buffer - offset)) with (length buffer) by lia.
        split; [reflexivity|].
        split; [|split; [congruence | split; [exact Hp2|]]].
        { rewrite Hq2, skipn_app.
          now replace (length buffer - offset - length chunk) with 0 by lia. }
        unfold chunk_length in Hbr. lia.
    + destruct Hsig as (Hq & Hend & Hbr & Hd1).
      subst n. rewrite Hq. simpl. rewrite Nat.min_0_r.
      rewrite copy_nothing, Nat.add_0_r.
      exists r1. split; [reflexivity|].
      split; [|split; [exact Hde | split; [now apply Drained_Pushable | lia]]].
      destruct Hd1 as (_ & _ & Hq1). unfold queued, Stream.bytes.
      unfold queue in Hq1. now rewrite Hq1.
    + contradiction.
Qed.

End ReaderFacts.

(** ** reader.js: the same fill over the queue of events *)

Module EventReaderFacts.
Import EventReader.

Lemma chunks_of_data chunks : chunks_of (map data chunks) = chunks.
Proof. induction chunks; simpl; congruence. Qed.

Lemma chunks_of_data_end chunks : chunks_of (map data chunks ++ [end_]) = chunks.
Proof. induction chunks; simpl; congruence. Qed.

(** A push-back goes in front, whatever the state. *)
Lemma _unreadChunk_queued chunk r :
  _events (_unreadChunk chunk r) = data chunk :: _events r /\
  queued (_unreadChunk chunk r) = chunk ++ queued r /\
  (Steady r -> Steady (_unreadChunk chunk r)) /\
  (Ended r -> Ended (_unreadChunk chunk r)).
Proof.
  destruct r as [l s ev br res]. unfold _unreadChunk, queued, Steady, Ended; simpl.
  split; [reflexivity|]. split; [now rewrite app_assoc|].
  split.
  - intros (-> & Hev & H). split; [reflexivity|]. split; [now f_equal | exact H].
  - intros (-> & Hev & H). split; [reflexivity|]. split; [now f_equal | exact H].
Qed.

(** A chunk request: the next chunk in order, be it empty, or [null] at the
    end of the source, or nothing yet. *)
Lemma await_readChunk_spec r :
  Steady r \/ Ended r ->
  exists r',
    (exists chunk,
       await_readChunk r = (r', resolve (Some chunk)) /\
       queued r = chunk ++ queued r' /\
       length (chunks_of (_events r')) + length (Stream.buffer (_stream r'))
       < length (chunks_of (_events r)) + length (Stream.buffer (_stream r)) /\
       (Steady r' /\ Stream.ended (_stream r') = Stream.ended (_stream r)
        \/ Ended r') /\
       (Ended r -> Ended r'))
    \/ (await_readChunk r = (r', resolve None) /\
        queued r = [] /\ queued r' = [] /\ Ended r' /\
        (Steady r -> Stream.ended (_stream r) = true))
    \/ (await_readChunk r = (r', Idle) /\
        queued r = [] /\ Steady r /\ Stream.ended (_stream r) = false).
Proof.
  destruct r as [l [b e ee f dl el] ev br res].
  unfold Steady, Ended, queued, Stream.bytes; simpl.
  intros [(-> & Hev & -> & -> & -> & ->) | (-> & Hev & ->)].
  - (* the end was not seen *)
    destruct (chunks_of ev) as [|chunk chunks] eqn:Hc; simpl in Hev; subst ev.
    + unfold await_readChunk, _readChunk, _dispatch, run; simpl.
      destruct b as [|chunk rest]; simpl.
      * unfold emit_end, _endHandler, _dispatch; simpl.
        destruct e; simpl; eexists.
        -- right; left. split; [reflexivity|]. simpl.
           repeat split.
        -- right; right. repeat split.
      * unfold emit_data, _dataHandler, _dispatch, emit_end; simpl.
        destruct rest; [destruct e|]; simpl; eexists; left; exists chunk;
          (split; [reflexivity|]); simpl; rewrite ?app_nil_r;
          (split; [reflexivity|]); (split; [lia|]);
          (split; [|intros (_ & Habs & _); simpl in Habs;
                    now destruct (chunks_of [])]).
        -- right. repeat split.
        -- left. repeat split.
        -- left. repeat split.
    + unfold await_readChunk, _readChunk, _dispatch; simpl.
      eexists; left; exists chunk. split; [reflexivity|]. simpl.
      rewrite chunks_of_data, <- app_assoc.
      split; [reflexivity|]. split; [lia|].
      split.
      * left. repeat split; now rewrite ?chunks_of_data.
      * intros (_ & Habs & _). simpl in Habs. exfalso.
        apply (f_equal (@length _)) in Habs.
        simpl in Habs. rewrite length_app in Habs. simpl in Habs. lia.
  - (* the end was seen *)
    destruct (chunks_of ev) as [|chunk chunks] eqn:Hc; simpl in Hev; subst ev.
    + unfold await_readChunk, _readChunk, _dispatch; simpl.
      eexists; right; left. split; [reflexivity|]. simpl.
      repeat split. intros (_ & Habs & _). discriminate.
    + unfold await_readChunk, _readChunk, _dispatch; simpl.
      eexists; left; exists chunk. split; [reflexivity|]. simpl.
      rewrite chunks_of_data_end, !app_nil_r.
      split; [reflexivity|]. split; [lia|].
      split; [right; repeat split | intros _; repeat split].
Qed.

Lemma _readBuffer_loop_full fuel buffer r :
  _readBuffer_loop fuel buffer (length buffer) r
  = Returned (buffer, length buffer) r.
Proof. destruct fuel; simpl; now rewrite Nat.ltb_irrefl. Qed.

(** The loop copies the queued bytes, in order, until the buffer is full
    or the source is exhausted, and leaves the rest queued in order. *)
Lemma _readBuffer_loop_spec fuel : forall buffer offset r,
  (Steady r /\
   (Stream.ended (_stream r) = true \/ length buffer - offset <= length (queued r)))
  \/ Ended r ->
  offset <= length buffer ->
  length (chunks_of (_events r)) + length (Stream.buffer (_stream r)) < fuel ->
  let n := Nat.min (length buffer - offset) (length (queued r)) in
  exists r',
    _readBuffer_loop fuel buffer offset r
    = Returned (copy (queued r) buffer offset n, offset + n) r' /\
    queued r' = skipn n (queued r).
Proof.
  induction fuel as [|fuel IH]; intros buffer offset r Hr Hle Hfuel n; [lia|].
  simpl. destruct (offset <? length buffer) eqn:Hlt.
  2:{ apply Nat.ltb_ge in Hlt. subst n.
      replace (length buffer - offset) with 0 by lia. simpl.
      rewrite copy_nothing, Nat.add_0_r. now exists r. }
  apply Nat.ltb_lt in Hlt.
  destruct (@await_readChunk_spec r) as (r1 & Hcases).
  { destruct Hr as [[Hs _]|He]; [now left | now right]. }
  destruct Hcases as [(chunk & Hawait & Hq & Hm & Hst & Hee)
                     | [(Hawait & Hq & Hq1 & He1 & Hend)
                       | (Hawait & Hq & Hs & Hend)]];
    rewrite Hawait.
  - destruct (Nat.min (length buffer - offset) (length chunk) =? length chunk)
      eqn:Hmin.
    + apply Nat.eqb_eq in Hmin. rewrite Hmin.
      assert (Hlen := @copy_length chunk buffer offset (length chunk)
                        ltac:(lia) ltac:(lia)).
      destruct (IH (copy chunk buffer offset (length chunk))
                   (offset + length chunk) r1) as (r' & Hrun & Hq').
      { destruct Hr as [[_ Hin]|He]; [|right; now apply Hee].
        destruct Hst as [[Hs1 Hen]|He1]; [left; split; [exact Hs1|] | now right].
        rewrite Hen, Hlen.
        destruct Hin as [Hin|Hin]; [now left | right].
        rewrite Hq, length_app in Hin. lia. }
      { lia. }
      { lia. }
      exists r'. rewrite Hrun, Hlen, copy_twice by lia.
      subst n. rewrite Hq, length_app.
      replace (Nat.min (length buffer - offset)
                 (length chunk + length (queued r1)))
        with (length chunk
              + Nat.min (length buffer - (offset + length chunk))
                  (length (queued r1))) by lia.
      rewrite Nat.add_assoc. split; [reflexivity|].
      rewrite Hlen in Hq'. rewrite Hq', skipn_app.
      set (m := Nat.min _ _).
      rewrite (skipn_all2 chunk) by lia.
      now replace (length chunk + m - length chunk) with m by lia.
    + apply Nat.eqb_neq in Hmin.
      assert (Hcut : Nat.min (length buffer - offset) (length chunk)
                     = length buffer - offset) by lia.
      rewrite Hcut.
      destruct (_unreadChunk_queued (skipn (length buffer - offset) chunk) r1)
        as (_ & Hq2 & _).
      assert (Hlen := @copy_length chunk buffer offset (length buffer - offset)
                        ltac:(lia) ltac:(lia)).
      replace (offset + (length buffer - offset))
        with (length (copy chunk buffer offset (length buffer - offset)))
        by lia.
      rewrite _readBuffer_loop_full.
      eexists. subst n. rewrite Hq, length_app.
      replace (Nat.min (length buffer - offset)
                 (length chunk + length (queued r1)))
        with (length buffer - offset) by lia.
      rewrite copy_prefix by lia.
      rewrite Hlen. replace (offset + (length buffer - offset)) with (length buffer) by lia.
      split; [reflexivity|].
      rewrite Hq2, skipn_app.
      now replace (length buffer - offset - length chunk) with 0 by lia.
  - subst n. rewrite Hq. simpl. rewrite Nat.min_0_r.
    rewrite copy_nothing, Nat.add_0_r. exists r1. now split.
  - destruct Hr as [[_ [Hin|Hin]]|He].
    + congruence.
    + rewrite Hq in Hin. simpl in Hin. lia.
    + destruct Hs as (_ & Hev & _). destruct He as (_ & Hev' & _).
      exfalso. apply (f_equal (@length _)) in Hev, Hev'.
      rewrite length_app, length_map in Hev'. rewrite length_map in Hev.
      simpl in Hev'. lia.
Qed.

Lemma chunks_of_length events : length (chunks_of events) <= length events.
Proof.
  induction events as [|[chunk| |e] events IH]; simpl; lia.
Qed.

(** reader.js: [_readBuffer] returns floor(offset / blockLength) as well
    and puts the bytes past the last whole block back in front of
    [_events]. *)
Lemma _readBuffer_block_count buffer blockLength r :
  1 <= blockLength ->
  (Steady r /\
   (Stream.ended (_stream r) = true \/ length buffer <= length (queued r)))
  \/ Ended r ->
  let offset := Nat.min (length buffer) (length (queued r)) in
  let blockCount := offset / blockLength in
  let filled := copy (queued r) buffer 0 offset in
  let excess := slice filled (blockCount * blockLength) offset in
  exists r1,
    _readBuffer buffer blockLength r
    = Returned (Int (Z.of_nat blockCount), filled) (_unreadChunk excess r1) /\
    length excess = offset - blockCount * blockLength /\
    _events (_unreadChunk excess r1) = data excess :: _events r1 /\
    queued (_unreadChunk excess r1) = skipn (blockCount * blockLength) (queued r).
Proof.
  intros Hbl Hr offset blockCount filled excess.
  destruct (@_readBuffer_loop_spec
              (S (length (_events r) + length (Stream.buffer (_stream r))))
              buffer 0 r) as (r1 & Hloop & Hq1).
  { now rewrite Nat.sub_0_r. }
  { lia. }
  { pose proof (chunks_of_length (_events r)). lia. }
  rewrite Nat.sub_0_r in Hloop, Hq1. rewrite Nat.add_0_l in Hloop.
  fold offset in Hloop, Hq1. fold filled in Hloop.
  assert (Hblock : blockCount * blockLength <= offset).
  { subst blockCount. rewrite Nat.mul_comm. apply Nat.Div0.mul_div_le. }
  assert (Hoff : offset <= length (queued r) /\ offset <= length buffer)
    by (subst offset; lia).
  assert (Hexcess : excess = slice (queued r) (blockCount * blockLength) offset).
  { subst excess filled. apply slice_copy_prefix; lia. }
  destruct (_unreadChunk_queued excess r1) as (Hev2 & Hq2 & _).
  exists r1. split.
  { unfold _readBuffer. rewrite Hloop. unfold await, _readBuffer_finish.
    destruct blockLength as [|k]; [lia|]. unfold floor_div, Num_mul, to_index.
    fold blockCount. rewrite <- Nat2Z.inj_mul, Nat2Z.id. reflexivity. }
  split.
  { rewrite Hexcess. unfold slice. rewrite length_firstn, length_skipn. lia. }
  split; [exact Hev2|].
  rewrite Hq2, Hq1, Hexcess. now apply slice_then_rest.
Qed.

End EventReaderFacts.

(** ** Block alignment of the buffer fill *)

Module BufferFill.
Import Reader ReaderFacts Scenarios.

(** For every destination buffer and every block length of at least
    1, on a reader that can serve the call (end of input not yet observed
    and either announced or preceded by enough bytes, or observed with
    nothing queued), READ_BUFFER returns.  With [offset] the number of
    bytes its loop copied into the destination, the call returns
    floor(offset / blockLength); the bytes of the destination between the
    last whole block and [offset] are put back in front of the queue as
    one chunk, so the queue then holds every byte from the end of the last
    whole block on, in order. *)
Theorem READ_BUFFER_block_count buffer blockLength r :
  1 <= blockLength ->
  (Listening r /\
   (Stream.ended (INPUT r) = true \/ length buffer <= length (queued r)))
  \/ Drained r ->
  let offset := Nat.min (length buffer) (length (queued r)) in
  let blockCount := offset / blockLength in
  let filled := copy (queued r) buffer 0 offset in
  let excess := slice filled (blockCount * blockLength) offset in
  exists r1 r2,
    READ_BUFFER_loop (length buffer) buffer 0 r = Returned (filled, offset) r1 /\
    READ_BUFFER buffer blockLength r
    = Returned (Int (Z.of_nat blockCount), filled) r2 /\
    length excess = offset - blockCount * blockLength /\
    queue r2 = (if (length excess =? 0)%nat then queue r1 else excess :: queue r1) /\
    queued r2 = skipn (blockCount * blockLength) (queued r).
Proof.
  intros Hbl Hr offset blockCount filled excess.
  destruct (@READ_BUFFER_loop_spec (length buffer) buffer 0 r)
    as (r1 & Hloop & Hq1 & _ & Hp1 & _).
  { now rewrite Nat.sub_0_r. }
  { lia. }
  { lia. }
  rewrite Nat.sub_0_r in Hloop, Hq1. simpl in Hloop.
  fold offset in Hloop, Hq1. fold filled in Hloop.
  assert (Hblock : blockCount * blockLength <= offset).
  { subst blockCount. rewrite Nat.mul_comm. apply Nat.Div0.mul_div_le. }
  assert (Hoff : offset <= length (queued r) /\ offset <= length buffer)
    by (subst offset; lia).
  assert (Hexcess : excess = slice (queued r) (blockCount * blockLength) offset).
  { subst excess filled. apply slice_copy_prefix; lia. }
  destruct (UNREAD_CHUNK_Pushable excess Hp1) as (r2 & Hun & Hq2 & Hqd2 & _ & _ & _).
  exists r1, r2. split; [exact Hloop|].
  split.
  { unfold READ_BUFFER. rewrite Hloop. unfold await, READ_BUFFER_finish.
    destruct blockLength as [|k]; [lia|]. unfold floor_div, Num_mul, to_index.
    fold blockCount. rewrite <- Nat2Z.inj_mul, Nat2Z.id.
    fold excess. now rewrite Hun. }
  split.
  { rewrite Hexcess. unfold slice. rewrite length_firstn, length_skipn. lia. }
  split; [exact Hq2|].
  rewrite Hqd2, Hq1, Hexcess. now apply slice_then_rest.
Qed.

(** The theorem applies to a reader fed [1, 2, 3] and [4, 5], asked for 3
    bytes in blocks of 2: one block is returned, the byte 3 goes back in
    front of the chunk [4, 5]. *)
Lemma READ_BUFFER_block_count_witness :
  (1 <= 2 /\
   ((Listening (fed LE [[x01; x02; x03]; [x04; x05]]) /\
     (Stream.ended (INPUT (fed LE [[x01; x02; x03]; [x04; x05]])) = true \/
      length [x00; x00; x00]
      <= length (queued (fed LE [[x01; x02; x03]; [x04; x05]]))))
    \/ Drained (fed LE [[x01; x02; x03]; [x04; x05]]))) /\
  exists r1 r2,
    READ_BUFFER_loop 3 [x00; x00; x00] 0 (fed LE [[x01; x02; x03]; [x04; x05]])
    = Returned ([x01; x02; x03], 3) r1 /\
    READ_BUFFER [x00; x00; x00] 2 (fed LE [[x01; x02; x03]; [x04; x05]])
    = Returned (Int 1, [x01; x02; x03]) r2 /\
    length [x03] = 3 - 1 * 2 /\
    queue r2 = [x03] :: queue r1 /\
    queued r2 = [x03; x04; x05].
Proof.
  assert (H : (Listening (fed LE [[x01; x02; x03]; [x04; x05]]) /\
     (Stream.ended (INPUT (fed LE [[x01; x02; x03]; [x04; x05]])) = true \/
      length [x00; x00; x00]
      <= length (queued (fed LE [[x01; x02; x03]; [x04; x05]]))))
    \/ Drained (fed LE [[x01; x02; x03]; [x04; x05]])).
  { left. split; [repeat split | left; reflexivity]. }
  split; [split; [lia | exact H]|].
  exact (@READ_BUFFER_block_count [x00; x00; x00] 2
           (fed LE [[x01; x02; x03]; [x04; x05]]) ltac:(lia) H).
Defined.

(** C1, at a failing input.  The producer wrote [1, 2, 3] and ended.  A
    fill of four bytes in blocks of two returns 1, which is floor(3 / 2),
    and pushes the byte 3 back; the fill has observed the end, so the
    byte goes into a fresh stream that has no listener.  The next fill, of
    one byte, never returns, and when the stream has run dry the byte is
    gone; so the bulk reads with [allowPart] that make these fills are
    fulfilled with 1 and then never settled.  On the same input, the fills
    of reader.js return 1 and then 1 again, with the byte 3. *)
Theorem excess_pushed_back_after_end_is_dropped native :
  let r := fed native [[x01; x02; x03]] in
  let partial n :=
    {| blockLength := n; endianness := None; allowPart := true |} in
  let source :=
    fst (EventReader.source_end
           (fst (EventReader.source_write [x01; x02; x03]
                   EventReader.constructor))) in
  (exists r1,
     READ_BUFFER [x00; x00; x00; x00] 2 r
     = Returned (Int 1, [x01; x02; x03; x00]) r1 /\
     fst (read native (BufferC [x00; x00; x00; x00]) (partial 2) r)
     = Fulfilled (Some (Int 1), BufferC [x01; x02; x03; x00], r1) /\
     queue r1 = [[x03]] /\
     Stream.dataListener (INPUT r1) = false /\
     (exists r2, READ_BUFFER [x00] 1 r1 = Suspended r2 /\ queue r2 = []) /\
     fst (read native (BufferC [x00]) (partial 1) r1) = Unsettled) /\
  (exists e1 e2,
     EventReader._readBuffer [x00; x00; x00; x00] 2 source
     = Returned (Int 1, [x01; x02; x03; x00]) e1 /\
     EventReader._readBuffer [x00] 1 e1 = Returned (Int 1, [x03]) e2).
Proof.
  split.
  - destruct native.
    all: eexists; split; [vm_compute; reflexivity|].
    all: split; [vm_compute; reflexivity|].
    all: split; [reflexivity|]; split; [reflexivity|].
    all: split; [eexists; split; [vm_compute; reflexivity | reflexivity]|].
    all: vm_compute; reflexivity.
  - eexists; eexists. split; vm_compute; reflexivity.
Qed.

End BufferFill.

(** ** The bulk read and its report of a short read *)

Module BulkRead.
Import Reader Scenarios.

(** Without [allowPart] the call is fulfilled with [undefined], whatever
    the fill it started achieves: the product it compares is NaN.  The
    container is then as it was passed. *)
Lemma read_is_fulfilled native container options r :
  allowPart options = false ->
  fst (read native container options r)
  = Fulfilled (None, container, fill_started container r).
Proof.
  intros H. unfold read. rewrite H. reflexivity.
Qed.

(** C2, at a failing input.  The input has ended without a byte and one
    byte is asked for, [allowPart] being false: the fill achieves 0 blocks
    of the 1 requested, and still the call is fulfilled instead of failing
    with EndOfInput. *)
Theorem read_short_not_reported native :
  (exists r1 r2,
     read native (BufferC [x00]) default_options (fed native [])
     = (Fulfilled (None, BufferC [x00], r1),
        Returned (Int 0, BufferC [x00]) r2)) /\
  allowPart default_options = false /\
  Num_ltb (Num_mul (Int 0) (blockLength default_options))
          (Container_length (BufferC [x00])) = true.
Proof.
  split; [|split; reflexivity].
  destruct native; eexists; eexists; vm_compute; reflexivity.
Qed.

(** reader.js awaits each branch of the conditional, and its [read]
    reports a short read: it throws exactly when
    [blockCount * blockLength < container.length], and the error carries
    the container as filled and the block count achieved. *)
Lemma EventReader_read_after_readBuffer native buffer blockLength r
    blockCount filled r' :
  EventReader._readBuffer buffer blockLength r = Returned (blockCount, filled) r' ->
  EventReader.read native (BufferC buffer) blockLength None false r
  = if Num_ltb (Num_mul blockCount blockLength) (length filled)
    then Threw (NotEnoughError (Some (BufferC filled)) (Some blockCount)) r'
    else Returned (None, BufferC filled) r'.
Proof.
  intros H. unfold EventReader.read. rewrite H. reflexivity.
Qed.

(** X21.  reader.js: on a reader that can serve it, [read] into a Buffer
    without [allowPart] fails with NotEnoughError exactly when the whole
    blocks obtained do not fill the buffer, the error carrying the buffer
    as filled and the block count; else it is fulfilled with [undefined]
    and the buffer is full. *)
Lemma EventReader_read_reports native buffer blockLength r :
  1 <= blockLength ->
  (EventReader.Steady r /\
   (Stream.ended (EventReader._stream r) = true \/
    length buffer <= length (EventReader.queued r)))
  \/ EventReader.Ended r ->
  let offset := Nat.min (length buffer) (length (EventReader.queued r)) in
  let blockCount := offset / blockLength in
  let filled := copy (EventReader.queued r) buffer 0 offset in
  exists r',
    EventReader.read native (BufferC buffer) blockLength None false r
    = if (blockCount * blockLength <? length buffer)%nat
      then Threw (NotEnoughError (Some (BufferC filled))
                                 (Some (Int (Z.of_nat blockCount)))) r'
      else Returned (None, BufferC filled) r'.
Proof.
  intros Hbl Hr offset blockCount filled.
  destruct (EventReaderFacts._readBuffer_block_count buffer Hbl Hr)
    as (r1 & Hread & _).
  fold offset blockCount filled in Hread.
  eexists. rewrite (EventReader_read_after_readBuffer native _ _ _ Hread).
  unfold Num_ltb, Num_mul.
  assert (Hlen : length filled = length buffer).
  { subst filled. apply copy_length; subst offset; lia. }
  rewrite Hlen, <- Nat2Z.inj_mul.
  destruct (blockCount * blockLength <? length buffer)%nat eqn:Hlt.
  - apply Nat.ltb_lt in Hlt.
    replace (Z.of_nat (blockCount * blockLength) <? Z.of_nat (length buffer))%Z
      with true by (symmetry; apply Z.ltb_lt; lia).
    reflexivity.
  - apply Nat.ltb_ge in Hlt.
    replace (Z.of_nat (blockCount * blockLength) <? Z.of_nat (length buffer))%Z
      with false by (symmetry; apply Z.ltb_ge; lia).
    reflexivity.
Qed.

Lemma EventReader_read_reports_witness :
  (1 <= 2 /\
   ((EventReader.Steady
       (fst (EventReader.source_end
               (fst (EventReader.source_write [x01; x02; x03]
                       EventReader.constructor)))) /\
     (Stream.ended
        (EventReader._stream
           (fst (EventReader.source_end
                   (fst (EventReader.source_write [x01; x02; x03]
                           EventReader.constructor))))) = true \/
      length [x00; x00; x00; x00]
      <= length (EventReader.queued
                   (fst (EventReader.source_end
                           (fst (EventReader.source_write [x01; x02; x03]
                                   EventReader.constructor)))))))
    \/ EventReader.Ended
         (fst (EventReader.source_end
                 (fst (EventReader.source_write [x01; x02; x03]
                         EventReader.constructor)))))) /\
  exists r',
    EventReader.read LE (BufferC [x00; x00; x00; x00]) 2 None false
      (fst (EventReader.source_end
              (fst (EventReader.source_write [x01; x02; x03]
                      EventReader.constructor))))
    = Threw (NotEnoughError (Some (BufferC [x01; x02; x03; x00]))
                            (Some (Int 1))) r'.
Proof.
  assert (H : (EventReader.Steady
       (fst (EventReader.source_end
               (fst (EventReader.source_write [x01; x02; x03]
                       EventReader.constructor)))) /\
     (Stream.ended
        (EventReader._stream
           (fst (EventReader.source_end
                   (fst (EventReader.source_write [x01; x02; x03]
                           EventReader.constructor))))) = true \/
      length [x00; x00; x00; x00]
      <= length (EventReader.queued
                   (fst (EventReader.source_end
                           (fst (EventReader.source_write [x01; x02; x03]
                                   EventReader.constructor)))))))
    \/ EventReader.Ended
         (fst (EventReader.source_end
                 (fst (EventReader.source_write [x01; x02; x03]
                         EventReader.constructor))))).
  { left. split; [repeat split | left; reflexivity]. }
  split; [split; [lia | exact H]|].
  exact (@EventReader_read_reports LE [x00; x00; x00; x00] 2
           (fst (EventReader.source_end
                   (fst (EventReader.source_write [x01; x02; x03]
                           EventReader.constructor))))
           ltac:(lia) H).
Defined.

End BulkRead.

(** ** Push-back and the order of delivery *)

Module PushBack.
Import Reader ReaderFacts Scenarios.

(** A listening reader hands out the chunk at the head of its queue, if
    that chunk is not empty, and keeps the rest queued. *)
Lemma await_READ_CHUNK_head chunk rest r :
  Listening r -> queue r = chunk :: rest -> chunk <> [] ->
  exists r',
    await_READ_CHUNK r = (r', Resolve (Some chunk)) /\ queue r' = rest.
Proof.
  intros (Hu & Hr & Hd & He & Hee & Hf) Hq Hne.
  destruct chunk as [|x chunk]; [congruence|].
  destruct r as [d [b e ee f dl el] br bu res]; unfold queue in *;
    simpl in *; subst.
  unfold await_READ_CHUNK, READ_CHUNK, run; simpl.
  unfold emit_data, onData, emit_end; simpl.
  destruct rest; [destruct e|]; simpl; eexists; split; reflexivity.
Qed.

(** X4.  Before end of input is observed a push-back is the very next
    chunk delivered, whatever the producer writes in between, and the
    queue behind it is the one the reader would have had without it. *)
Lemma UNREAD_CHUNK_then_READ_CHUNK chunk later r :
  Listening r -> chunk <> [] ->
  exists r1 r2,
    UNREAD_CHUNK chunk r = Some r1 /\
    await_READ_CHUNK (writes later r1) = (r2, Resolve (Some chunk)) /\
    queue r2 = queue (writes later r).
Proof.
  intros Hl Hne.
  destruct (UNREAD_CHUNK_Pushable chunk (Listening_Pushable Hl))
    as (r1 & Hun & Hq1 & _).
  assert (Hlen : (length chunk =? 0)%nat = false).
  { apply Nat.eqb_neq. destruct chunk; simpl; [congruence | lia]. }
  rewrite Hlen in Hq1.
  assert (Hl1 : Listening r1 /\
                Stream.ended (INPUT r1) = Stream.ended (INPUT r)).
  { destruct Hl as (Hu & Hr & Hd & He & Hee & Hf).
    unfold UNREAD_CHUNK, unread_is_zero, Stream.unshift in Hun.
    rewrite Hlen, Hu, Hee in Hun. simpl in Hun. injection Hun as <-.
    repeat split; assumption. }
  destruct Hl1 as (Hl1 & Hend).
  assert (Hp : Stream.flowing (INPUT r) = false) by apply Hl.
  assert (Hp1 : Stream.flowing (INPUT r1) = false) by apply Hl1.
  destruct (@await_READ_CHUNK_head chunk
              (queue r ++ if Stream.ended (INPUT r) then []
                          else Stream.written later)
              (writes later r1)) as (r2 & Hawait & Hq2).
  - rewrite writes_paused by exact Hp1.
    destruct Hl1 as (Hu & Hr & Hd & He & Hee & Hf). repeat split; assumption.
  - rewrite writes_paused by exact Hp1. unfold queue at 1. simpl.
    now rewrite Hq1, Hend.
  - exact Hne.
  - exists r1, r2. split; [exact Hun|]. split; [exact Hawait|].
    rewrite Hq2, writes_paused by exact Hp. reflexivity.
Qed.

Lemma UNREAD_CHUNK_then_READ_CHUNK_witness :
  (Listening (writes [[x01]] (constructor LE)) /\ [x09] <> []) /\
  exists r1 r2,
    UNREAD_CHUNK [x09] (writes [[x01]] (constructor LE)) = Some r1 /\
    await_READ_CHUNK (writes [[x05]] r1) = (r2, Resolve (Some [x09])) /\
    queue r2 = queue (writes [[x05]] (writes [[x01]] (constructor LE))).
Proof.
  assert (Hl : Listening (writes [[x01]] (constructor LE))) by (repeat split).
  assert (Hne : [x09] <> []) by discriminate.
  split; [split; assumption|].
  exact (@UNREAD_CHUNK_then_READ_CHUNK [x09] [[x05]]
           (writes [[x01]] (constructor LE)) Hl Hne).
Defined.

(** X23.  proreader.js: a push-back is the very next chunk delivered,
    whatever the state of the reader, and the request that takes it
    leaves [_data] and [_bytesRemain] as they were before the push-back. *)
Lemma ProReader_ungetChunk_then_getChunk chunk r :
  exists r',
    ProReader.await_getChunk (ProReader._ungetChunk chunk r)
    = (r', ProReader.resolve (Some chunk)) /\
    ProReader._data r' = ProReader._data r /\
    ProReader._bytesRemain r' = ProReader._bytesRemain r.
Proof.
  destruct r as [l s e d en br res].
  unfold ProReader.await_getChunk, ProReader._getChunk, ProReader._ungetChunk,
    ProReader._dispatch, ProReader.finished; simpl.
  destruct en, e, br; simpl; eexists; (split; [reflexivity|]); simpl;
    split; try reflexivity; f_equal; lia.
Qed.

(** C3, at a failing input.  The input ended without a byte and a chunk
    request observed the end.  Two bytes are pushed back: they sit in the
    queue, yet the next chunk request is never settled, and when the
    stream has run dry the bytes are gone. *)
Theorem push_back_after_end_not_delivered native :
  let r := fst (await_READ_CHUNK (fed native [])) in
  snd (await_READ_CHUNK (fed native [])) = Resolve None /\
  exists r1,
    UNREAD_CHUNK [x01; x02] r = Some r1 /\
    queue r1 = [[x01; x02]] /\
    snd (await_READ_CHUNK r1) = Quiet /\
    queue (fst (await_READ_CHUNK r1)) = [].
Proof.
  destruct native; vm_compute; (split; [reflexivity|]);
    eexists; repeat split.
Qed.

End PushBack.

(** ** The count of unread bytes *)

Module BytesUnread.
Import Reader ReaderFacts Scenarios.

(** X5.  Until end of input is observed bytesUnread is undefined; the
    chunk request that observes the end sets it to 0, with nothing left
    queued. *)
Lemma BYTES_UNREAD_at_end r r' :
  Listening r -> await_READ_CHUNK r = (r', Resolve None) ->
  BYTES_UNREAD r = None /\ BYTES_UNREAD r' = Some 0%Z /\ queued r' = [].
Proof.
  intros Hl Ha. split; [apply Hl|].
  destruct (await_READ_CHUNK_Listening Hl Ha) as (_ & _ & _ & _ & _ & Hd).
  destruct Hd as (Hu & _ & Hq). split; [exact Hu|].
  unfold queued, Stream.bytes. unfold queue in Hq. now rewrite Hq.
Qed.

Lemma BYTES_UNREAD_at_end_witness :
  (Listening (fed LE []) /\
   await_READ_CHUNK (fed LE [])
   = (fst (await_READ_CHUNK (fed LE [])), Resolve None)) /\
  BYTES_UNREAD (fed LE []) = None /\
  BYTES_UNREAD (fst (await_READ_CHUNK (fed LE []))) = Some 0%Z /\
  queued (fst (await_READ_CHUNK (fed LE []))) = [].
Proof.
  assert (Hl : Listening (fed LE [])) by (repeat split).
  split; [split; [exact Hl | reflexivity]|].
  exact (@BYTES_UNREAD_at_end (fed LE []) (fst (await_READ_CHUNK (fed LE [])))
           Hl eq_refl).
Defined.

(** C4, at a failing input.  The producer wrote [1, 2] and ended.  The
    count is undefined at first.  A 32-bit scalar read fails and pushes
    the two bytes back after the end was observed: the count is 2.  A
    second push-back of one byte leaves the count at 2 with 3 bytes
    queued.  The next read is never settled; the stream runs dry without
    delivering a byte and the count stays 2 over an empty queue. *)
Theorem bytesUnread_not_kept native :
  let r := fed native [[x01; x02]] in
  bytesUnread r = None /\
  exists r1,
    readX native UInt32 None r = Threw (EndOfInput None None) r1 /\
    bytesUnread r1 = Some 2%Z /\ queued r1 = [x01; x02] /\
    (exists r2,
       UNREAD_CHUNK [x03] r1 = Some r2 /\
       bytesUnread r2 = Some 2%Z /\ queued r2 = [x03; x01; x02]) /\
    (exists r3,
       readX native UInt8 None r1 = Suspended r3 /\
       bytesUnread r3 = Some 2%Z /\ queued r3 = [] /\
       bytesRead r3 = bytesRead r1).
Proof.
  destruct native.
  all: split; [reflexivity|].
  all: eexists; split; [vm_compute; reflexivity|].
  all: split; [reflexivity|]; split; [reflexivity|].
  all: split; eexists; (split; [vm_compute; reflexivity|]); repeat split.
Qed.

End BytesUnread.

(** ** Endianness of the scalar wrappers *)

Module Wrappers.
Import Scenarios.

(** In the Symbol-keyed Reader each wrapper passes its own byte order. *)
Lemma Reader_wrappers native methodTypeName r :
  Reader.readXLE native methodTypeName r
  = Reader.readX native methodTypeName (Some LE) r /\
  Reader.readXBE native methodTypeName r
  = Reader.readX native methodTypeName (Some BE) r.
Proof. split; reflexivity. Qed.

(** There the two 32-bit wrappers disagree on bytes that are no
    palindrome. *)
Lemma Reader_UInt32_wrappers_differ native :
  exists r,
    Reader.readXLE native UInt32 (fed native [[x01; x02; x03; x04]])
    = Returned (Integer 0x04030201) r /\
    Reader.readXBE native UInt32 (fed native [[x01; x02; x03; x04]])
    = Returned (Integer 0x01020304) r.
Proof. destruct native; vm_compute; eexists; split; reflexivity. Qed.

(** C5, at failing inputs.  In proreader.js the big-endian wrapper is the
    little-endian one: both read the bytes [1, 2] as 0x0201.  In the
    Symbol-keyed Reader the Int16 methods read through an Int8Array: on
    the bytes [1, 2] of a little-endian machine [readInt16LE] returns 1
    and [readInt16BE] ends in a TypeError, there being no swap8. *)
Theorem readXBE_reads_little_endian :
  (forall native bufferName r,
     ProReader.readXBE native bufferName r
     = ProReader.readXLE native bufferName r) /\
  (let r := fst (ProReader.source_write [x01; x02] ProReader.constructor) in
   exists r',
     ProReader.readXLE LE UInt16 r = Returned (Integer 0x0201) r' /\
     ProReader.readXBE LE UInt16 r = Returned (Integer 0x0201) r') /\
  (let r := Reader.writes [[x01; x02]] (Reader.constructor LE) in
   exists r',
     Reader.readXLE LE Int16 r = Returned (Integer 1) r' /\
     Reader.readXBE LE Int16 r = Threw TypeError r').
Proof.
  split; [reflexivity|].
  split; vm_compute; eexists; split; reflexivity.
Qed.

End Wrappers.

(** ** The scenario of the specification *)

Module Scenario.
Import Reader Scenarios.

(** C6 as stated fails: the second element does not come out as
    0x02000003. *)
Lemma scenario_not_as_stated :
  ~ (exists typedArray r,
       READ_TYPED_ARRAY LE (new_TypedArray Uint32Array 2) 1 BE
                        (fed LE scenario_chunks)
       = Returned (Int 2, typedArray) r /\
       element LE typedArray 0 = Integer 0x01000000 /\
       element LE typedArray 1 = Integer 0x02000003).
Proof.
  intros (typedArray & r & Hread & _ & Hsecond).
  vm_compute in Hread. inversion Hread; subst; clear Hread.
  vm_compute in Hsecond. discriminate.
Qed.

(** C6, amended.  On the five chunks followed by the end, a big-endian
    read into two unsigned 32-bit elements returns 2 and fills them with
    0x01000000 and 0x02000000; the chunks [3], [0,0,0,4], [0,0] stay
    queued, 7 bytes, and bytesUnread is still undefined, the end not
    having been observed.  A second, little-endian read into two elements
    returns 1 with the element 3, observes the end and puts [4,0,0] back:
    bytesUnread is then 3, the number of bytes that remain. *)
Theorem scenario_big_endian native :
  exists typedArray r,
    READ_TYPED_ARRAY native (new_TypedArray Uint32Array 2) 1 BE
                     (fed native scenario_chunks)
    = Returned (Int 2, typedArray) r /\
    element native typedArray 0 = Integer 0x01000000 /\
    element native typedArray 1 = Integer 0x02000000 /\
    queue r = [[x03]; [x00; x00; x00; x04]; [x00; x00]] /\
    bytesUnread r = None /\
    exists typedArray' r',
      READ_TYPED_ARRAY native (new_TypedArray Uint32Array 2) 1 LE r
      = Returned (Int 1, typedArray') r' /\
      element native typedArray' 0 = Integer 3 /\
      queue r' = [[x04; x00; x00]] /\
      bytesUnread r' = Some 3%Z.
Proof.
  destruct native.
  all: eexists; eexists; split; [vm_compute; reflexivity|].
  all: split; [vm_compute; reflexivity|].
  all: split; [vm_compute; reflexivity|].
  all: split; [reflexivity|]; split; [reflexivity|].
  all: eexists; eexists; split; [vm_compute; reflexivity|].
  all: split; [vm_compute; reflexivity|]; split; reflexivity.
Qed.

(** reader.js, against which the repository runs this scenario, agrees:
    the same two elements, and after the second read [_bytesRemain] is 3
    with [4, 0, 0] in front of the end event. *)
Lemma scenario_big_endian_EventReader :
  exists typedArray r,
    EventReader._readTypedArray LE (new_TypedArray Uint32Array 2) 1 BE
      (fst (EventReader.source_end
              (fold_left (fun r chunk => fst (EventReader.source_write chunk r))
                         scenario_chunks EventReader.constructor)))
    = Returned (Int 2, typedArray) r /\
    element LE typedArray 0 = Integer 0x01000000 /\
    element LE typedArray 1 = Integer 0x02000000 /\
    EventReader.queued r = [x03; x00; x00; x00; x04; x00; x00] /\
    EventReader._bytesRemain r = None /\
    exists typedArray' r',
      EventReader._readTypedArray LE (new_TypedArray Uint32Array 2) 1 LE r
      = Returned (Int 1, typedArray') r' /\
      element LE typedArray' 0 = Integer 3 /\
      EventReader._events r'
      = [EventReader.data [x04; x00; x00]; EventReader.end_] /\
      EventReader._bytesRemain r' = Some 3%Z.
Proof.
  eexists; eexists; split; [vm_compute; reflexivity|].
  split; [vm_compute; reflexivity|].
  split; [vm_compute; reflexivity|].
  split; [reflexivity|]; split; [reflexivity|].
  eexists; eexists; split; [vm_compute; reflexivity|].
  split; [vm_compute; reflexivity|]; split; reflexivity.
Qed.

End Scenario.

(** ** The count of bytes read *)

Module BytesRead.
Import Reader ReaderFacts Scenarios.

(** When the queued bytes suffice the buffer is filled completely, with
    the first of them in order. *)
Lemma READ_BUFFER_fills buffer r :
  Listening r -> length buffer <= length (queued r) ->
  exists r',
    READ_BUFFER buffer 1 r
    = Returned (Int (Z.of_nat (length buffer)),
                firstn (length buffer) (queued r)) r' /\
    (BYTES_READ r + Z.of_nat (length buffer) <= BYTES_READ r')%Z.
Proof.
  intros Hl Hlen.
  destruct (@READ_BUFFER_loop_spec (length buffer) buffer 0 r)
    as (r1 & Hloop & _ & _ & Hp1 & Hb1).
  { left. split; [exact Hl | right; lia]. }
  { lia. }
  { lia. }
  rewrite Nat.sub_0_r in Hloop, Hb1. rewrite Nat.add_0_l in Hloop.
  replace (Nat.min (length buffer) (length (queued r)))
    with (length buffer) in Hloop, Hb1 by lia.
  unfold READ_BUFFER. rewrite Hloop.
  unfold await, READ_BUFFER_finish, floor_div, Num_mul, to_index.
  rewrite Nat.div_1_r, Z.mul_1_r, Nat2Z.id.
  unfold slice at 1. rewrite Nat.sub_diag. simpl firstn.
  exists r1. unfold UNREAD_CHUNK. simpl.
  unfold copy. simpl. rewrite skipn_all, app_nil_r. now split.
Qed.

(** In particular, whatever sequence of chunks the producer has written
    since the construction, if they hold as many bytes as the buffer, the
    fill returns with the buffer filled completely by the first of them;
    bytesRead has then advanced by the length of the buffer at least. *)
Lemma READ_BUFFER_after_writes e chunks buffer :
  length buffer <= length (concat chunks) ->
  exists r',
    READ_BUFFER buffer 1 (writes chunks (constructor e))
    = Returned (Int (Z.of_nat (length buffer)),
                firstn (length buffer) (concat chunks)) r' /\
    (Z.of_nat (length buffer) <= BYTES_READ r')%Z.
Proof.
  intros Hlen.
  destruct (writes_constructor e chunks) as (Hl & Hq).
  assert (Hqd : queued (writes chunks (constructor e)) = concat chunks).
  { unfold queued, Stream.bytes. unfold queue in Hq.
    rewrite Hq. apply concat_written. }
  destruct (@READ_BUFFER_fills buffer (writes chunks (constructor e)) Hl)
    as (r' & Hread & Hb).
  { now rewrite Hqd. }
  exists r'. rewrite Hread, Hqd. split; [reflexivity|].
  assert (Hz : BYTES_READ (writes chunks (constructor e)) = 0%Z).
  { rewrite writes_paused by reflexivity. reflexivity. }
  lia.
Qed.

(** C7, at a failing input.  The producer wrote the one chunk
    [1, 2, 3, 4] and a buffer of 2 bytes is read.  With the default
    options the call is fulfilled while the buffer is still as it was
    passed; the fill it started then puts [1, 2] there and leaves
    bytesRead at 4.  With [allowPart] the call waits for the fill: the
    buffer is filled with [1, 2] and bytesRead is 4; a second such read
    fills [3, 4] and leaves bytesRead at 6, of 4 bytes ever written. *)
Theorem bytesRead_counts_chunks native :
  let r := writes [[x01; x02; x03; x04]] (constructor native) in
  let partial := {| blockLength := 1; endianness := None; allowPart := true |} in
  bytesRead r = 0%Z /\
  (exists r0 r1,
     read native (BufferC [x00; x00]) default_options r
     = (Fulfilled (None, BufferC [x00; x00], r0),
        Returned (Int 2, BufferC [x01; x02]) r1) /\
     bytesRead r0 = 0%Z /\ bytesRead r1 = 4%Z) /\
  exists r1,
    fst (read native (BufferC [x00; x00]) partial r)
    = Fulfilled (Some (Int 2), BufferC [x01; x02], r1) /\
    bytesRead r1 = 4%Z /\
    exists r2,
      fst (read native (BufferC [x00; x00]) partial r1)
      = Fulfilled (Some (Int 2), BufferC [x03; x04], r2) /\
      bytesRead r2 = 6%Z.
Proof.
  destruct native.
  all: split; [reflexivity|].
  all: split;
    [eexists; eexists; split; [vm_compute; reflexivity | split; reflexivity]|].
  all: eexists; split; [vm_compute; reflexivity|].
  all: split; [reflexivity|].
  all: eexists; split; [vm_compute; reflexivity | reflexivity].
Qed.

End BytesRead.

(** ** Scalar reads that run into the end of input *)

Module ScalarRead.
Import Reader ReaderFacts Scenarios.



(** When the bytes of a single-byte element are to be swapped, the read
    ends in a TypeError instead, there being no swap8: so does
    [readUInt8BE] on a little-endian machine, here at the end of input. *)
Lemma readX_single_byte_swap :
  exists r', readXBE LE UInt8 (fed LE []) = Threw TypeError r'.
Proof. eexists. vm_compute. reflexivity. Qed.

(** C9, at a failing input.  The producer wrote [3] and [0] and ended.
    A 32-bit scalar read fails with EndOfInput and pushes the two bytes
    back; the single-byte read that follows is never settled, and the
    bytes are gone from the queue. *)
Theorem failed_scalar_read_loses_bytes native :
  let r := fed native [[x03]; [x00]] in
  exists r1,
    readX native UInt32 None r = Threw (EndOfInput None None) r1 /\
    queue r1 = [[x03; x00]] /\
    exists r2,
      readX native UInt8 None r1 = Suspended r2 /\ queue r2 = [].
Proof.
  destruct native.
  all: eexists; split; [vm_compute; reflexivity|].
  all: split; [reflexivity|].
  all: eexists; split; [vm_compute; reflexivity | reflexivity].
Qed.

End ScalarRead.

(** ** Chunks and push-backs of length zero *)

Module ZeroLength.
Import Reader.

(** C10.  A zero-length chunk handed to the reader changes nothing of its
    state and calls no resolver, whether the ['data'] handler is attached
    or not; a zero-length push-back changes nothing either. *)
Theorem zero_length_is_ignored r :
  onData [] r = (r, Quiet) /\
  emit_data [] r = (r, Quiet) /\
  UNREAD_CHUNK [] r = Some r.
Proof.
  unfold emit_data, onData, UNREAD_CHUNK. simpl.
  destruct (Stream.dataListener (INPUT r)); repeat split.
Qed.

(** So a request that waits on an empty queue keeps waiting when the
    producer writes a zero-length chunk. *)
Lemma zero_length_write_keeps_waiting r :
  Stream.flowing (INPUT r) = true -> Stream.ended (INPUT r) = false ->
  queue r = [] ->
  input_write [] r = (r, Quiet).
Proof.
  destruct r as [d [b e ee f dl el] br bu res]; simpl.
  unfold queue; simpl. intros -> -> ->.
  unfold input_write, run, Stream.write; simpl.
  unfold emit_data, onData, emit_end; simpl.
  destruct dl; reflexivity.
Qed.

End ZeroLength.

(** ** Failure of the source *)

Module SourceFailure.
Import ProReader.

(** Without handlers the stream only loses what it holds. *)
Lemma flow_detached chunks : forall r,
  Stream.dataListener (_stream r) = false ->
  Stream.endListener (_stream r) = false ->
  snd (flow chunks r) = Idle /\
  _data (fst (flow chunks r)) = _data r /\
  _error (fst (flow chunks r)) = _error r /\
  _end (fst (flow chunks r)) = _end r /\
  _resolve (fst (flow chunks r)) = _resolve r /\
  Stream.dataListener (_stream (fst (flow chunks r))) = false /\
  Stream.endListener (_stream (fst (flow chunks r))) = false.
Proof.
  induction chunks as [|chunk rest IH];
    intros [l [b e ee f dl el] er d en br res]; simpl; intros -> ->.
  - unfold emit_end; simpl.
    destruct (e && negb ee); simpl; repeat split.
  - unfold emit_data; simpl. destruct f.
    + apply IH; reflexivity.
    + unfold emit_end; simpl.
      destruct rest; [destruct (e && negb ee)|]; simpl; repeat split.
Qed.

Lemma Failed_request_rejected error r :
  Failed error r -> _data r = [] -> await_getChunk r = (r, reject error).
Proof.
  destruct r as [l s er d en br res]. unfold Failed; simpl.
  intros (-> & -> & -> & _) ->. reflexivity.
Qed.

Lemma Failed_request_served error r chunk rest :
  Failed error r -> _data r = chunk :: rest ->
  exists r',
    await_getChunk r = (r', resolve (Some chunk)) /\
    _data r' = rest /\ Failed error r'.
Proof.
  destruct r as [l s er d en br res]. unfold Failed; simpl.
  intros (-> & -> & -> & Hd & He) ->.
  unfold await_getChunk, _getChunk, _dispatch, finished; simpl.
  eexists. split; [reflexivity|]. simpl. repeat split; assumption.
Qed.

Lemma Failed_ungetChunk error r chunk :
  Failed error r ->
  Failed error (_ungetChunk chunk r) /\
  _data (_ungetChunk chunk r) = chunk :: _data r.
Proof.
  destruct r as [l s er d en br res]. unfold Failed; simpl.
  intros (-> & -> & -> & Hd & He).
  unfold _ungetChunk, finished; simpl. repeat split; assumption.
Qed.

Lemma Failed_source_write error r chunk :
  Failed error r ->
  snd (source_write chunk r) = Idle /\
  Failed error (fst (source_write chunk r)) /\
  _data (fst (source_write chunk r)) = _data r.
Proof.
  intros (Her & Hen & Hres & Hd & He).
  unfold source_write, run.
  set (r1 := set_stream (Stream.write chunk (_stream r)) r).
  assert (Hd1 : Stream.dataListener (_stream r1) = false).
  { subst r1. unfold Stream.write. simpl.
    destruct (Stream.ended (_stream r));
      [|destruct (length chunk =? 0)%nat]; simpl; assumption. }
  assert (He1 : Stream.endListener (_stream r1) = false).
  { subst r1. unfold Stream.write. simpl.
    destruct (Stream.ended (_stream r));
      [|destruct (length chunk =? 0)%nat]; simpl; assumption. }
  destruct (Stream.flowing (_stream r1)).
  - destruct (flow_detached (Stream.buffer (_stream r1)) r1 Hd1 He1)
      as (Hs & Hdata & Herr & Hend & Hr & Hd2 & He2).
    split; [exact Hs|]. split; [|exact Hdata].
    unfold Failed. rewrite Herr, Hend, Hr. repeat split; assumption.
  - simpl. split; [reflexivity|]. split; [|reflexivity].
    unfold Failed. repeat split; assumption.
Qed.

(** reader.js follows a third policy: the error is an event of the queue,
    handed to one request; the request after it resumes the stream and is
    served the next chunk the source writes. *)
Lemma EventReader_error_once :
  snd (EventReader.await_readChunk
         (fst (EventReader.source_error 7 EventReader.constructor)))
  = EventReader.reject 7 /\
  snd (EventReader.await_readChunk
         (fst (EventReader.await_readChunk
                 (fst (EventReader.source_error 7 EventReader.constructor)))))
  = EventReader.Idle /\
  snd (EventReader.source_write [x01]
         (fst (EventReader.await_readChunk
                 (fst (EventReader.await_readChunk
                         (fst (EventReader.source_error 7
                                 EventReader.constructor)))))))
  = EventReader.resolve (Some [x01]).
Proof. repeat split. Qed.

(** C8 as stated fails.  The source writes [1, 2], a single-byte read
    takes 1 and pushes 2 back, and the source fails with error 7.  The
    next chunk request is served the chunk [2], not the error; the two
    requests after it are both rejected with error 7. *)
Lemma source_error_more_than_once :
  let r := fst (source_write [x01; x02] constructor) in
  exists r1,
    readX LE UInt8 None r = Returned (Integer 1) r1 /\
    let failed := fst (source_error 7 r1) in
    let first := await_getChunk failed in
    let second := await_getChunk (fst first) in
    let third := await_getChunk (fst second) in
    snd first = resolve (Some [x02]) /\
    snd second = reject 7 /\
    snd third = reject 7.
Proof.
  eexists. split; [vm_compute; reflexivity|].
  vm_compute. repeat split.
Qed.

(** C8, amended.  When the source signals an error and no request is
    pending, the error is stored and the queue is left as it is.  From
    then on a chunk request is served the head of the queue while the
    queue is not empty, pushed-back chunks included, and is rejected with
    the stored error, the reader staying as it is, whenever the queue is
    empty; so every later request on an empty queue is rejected with it
    again.  What the source writes afterwards never enters the queue.
    When a request is pending on an empty queue at the moment of the
    error, that request is rejected with it. *)
Theorem source_error_is_kept error r :
  errorListener r = true -> _end r = false ->
  (_resolve r = false ->
   snd (source_error error r) = Idle /\
   Failed error (fst (source_error error r)) /\
   _data (fst (source_error error r)) = _data r) /\
  (_resolve r = true -> _data r = [] ->
   snd (source_error error r) = reject error /\
   Failed error (fst (source_error error r))) /\
  (forall r', Failed error r' -> _data r' = [] ->
              await_getChunk r' = (r', reject error)) /\
  (forall r' chunk rest, Failed error r' -> _data r' = chunk :: rest ->
     exists r'', await_getChunk r' = (r'', resolve (Some chunk)) /\
                 _data r'' = rest /\ Failed error r'') /\
  (forall r' chunk, Failed error r' ->
     Failed error (_ungetChunk chunk r') /\
     _data (_ungetChunk chunk r') = chunk :: _data r') /\
  (forall r' chunk, Failed error r' ->
     snd (source_write chunk r') = Idle /\
     Failed error (fst (source_write chunk r')) /\
     _data (fst (source_write chunk r')) = _data r').
Proof.
  intros Hl Hen.
  split.
  { destruct r as [l s er d en br res]; simpl in *. subst.
    intros ->. unfold source_error, _errorHandler, _dispatch, finished, Failed; simpl.
    repeat split. }
  split.
  { destruct r as [l s er d en br res]; simpl in *. subst.
    intros -> ->. unfold source_error, _errorHandler, _dispatch, finished, Failed; simpl.
    repeat split. }
  split; [intros; now apply Failed_request_rejected|].
  split; [intros; now apply Failed_request_served|].
  split; [intros; now apply Failed_ungetChunk|].
  intros; now apply Failed_source_write.
Qed.

(** The theorem applies to a reader that has just been constructed. *)
Lemma source_error_is_kept_witness :
  (errorListener constructor = true /\ _end constructor = false) /\
  ((_resolve constructor = false ->
    snd (source_error 7 constructor) = Idle /\
    Failed 7 (fst (source_error 7 constructor)) /\
    _data (fst (source_error 7 constructor)) = _data constructor) /\
   (_resolve constructor = true -> _data constructor = [] ->
    snd (source_error 7 constructor) = reject 7 /\
    Failed 7 (fst (source_error 7 constructor))) /\
   (forall r', Failed 7 r' -> _data r' = [] ->
               await_getChunk r' = (r', reject 7)) /\
   (forall r' chunk rest, Failed 7 r' -> _data r' = chunk :: rest ->
      exists r'', await_getChunk r' = (r'', resolve (Some chunk)) /\
                  _data r'' = rest /\ Failed 7 r'') /\
   (forall r' chunk, Failed 7 r' ->
      Failed 7 (_ungetChunk chunk r') /\
      _data (_ungetChunk chunk r') = chunk :: _data r') /\
   (forall r' chunk, Failed 7 r' ->
      snd (source_write chunk r') = Idle /\
      Failed 7 (fst (source_write chunk r')) /\
      _data (fst (source_write chunk r')) = _data r')).
Proof.
  split; [split; reflexivity|].
  apply (source_error_is_kept 7 constructor); reflexivity.
Defined.

End SourceFailure.

(** ** Typed arrays: swapping and decoding *)

Section TypedArrayFacts.

Implicit Types buffer raw : list byte.

Lemma swap_groups_length width : 0 < width -> forall fuel buffer,
  length buffer <= fuel ->
  length (swap_groups width fuel buffer) = length buffer.
Proof.
  intros Hw. induction fuel as [|fuel IH]; intros buffer Hfuel.
  - destruct buffer; [reflexivity | simpl in Hfuel; lia].
  - destruct buffer as [|b buffer]; [reflexivity|].
    cbn [swap_groups]. rewrite length_app, length_rev, length_firstn.
    rewrite IH by (rewrite length_skipn; cbn [length] in *; lia).
    rewrite length_skipn. lia.
Qed.

Lemma slice_app_right (front back : list byte) start stop :
  length front <= start ->
  slice (front ++ back) start stop
  = slice back (start - length front) (stop - length front).
Proof.
  intros H. unfold slice. rewrite skipn_app, skipn_all2 by lia. simpl.
  f_equal. lia.
Qed.

Lemma slice_skipn buffer k start stop :
  slice (skipn k buffer) start stop = slice buffer (k + start) (k + stop).
Proof.
  unfold slice. rewrite skipn_skipn. f_equal; [lia|]. f_equal. lia.
Qed.

(** After [swapN] the [i]-th group of [width] bytes is the [i]-th group of
    before, reversed. *)
Lemma swap_groups_slice width : 0 < width -> forall fuel buffer i,
  length buffer <= fuel -> i * width + width <= length buffer ->
  slice (swap_groups width fuel buffer) (i * width) (i * width + width)
  = rev (slice buffer (i * width) (i * width + width)).
Proof.
  intros Hw. induction fuel as [|fuel IH]; intros buffer i Hfuel Hi.
  - lia.
  - destruct buffer as [|b buffer]; [simpl in Hi; lia|].
    cbn [swap_groups]. set (whole := b :: buffer) in *.
    assert (Hf : length (firstn width whole) = width)
      by (rewrite length_firstn; lia).
    destruct i as [|i].
    + simpl. unfold slice. simpl. rewrite Nat.sub_0_r.
      rewrite firstn_app, length_rev, Hf, Nat.sub_diag. simpl.
      rewrite app_nil_r, firstn_all2 by (rewrite length_rev; lia).
      reflexivity.
    + rewrite Nat.mul_succ_l in Hi |- *.
      rewrite slice_app_right by (rewrite length_rev, Hf; lia).
      rewrite length_rev, Hf.
      replace (i * width + width - width) with (i * width) by lia.
      replace (i * width + width + width - width) with (i * width + width)
        by lia.
      rewrite IH.
      * rewrite slice_skipn. f_equal. f_equal; lia.
      * rewrite length_skipn. subst whole. cbn [length] in *. lia.
      * rewrite length_skipn. lia.
Qed.

Lemma slice_prefix buffer n : slice buffer 0 n = firstn n buffer.
Proof. unfold slice. simpl. now rewrite Nat.sub_0_r. Qed.

Lemma width_positive kind : 0 < BYTES_PER_ELEMENT kind.
Proof. destruct kind; simpl; lia. Qed.

(** The Buffers have a swap for every element of more than one byte. *)
Lemma swap_wide kind raw :
  1 < BYTES_PER_ELEMENT kind ->
  length raw mod BYTES_PER_ELEMENT kind = 0 ->
  swap (BYTES_PER_ELEMENT kind * 8) raw
  = inr (swap_groups (BYTES_PER_ELEMENT kind) (length raw) raw).
Proof.
  intros Hw Hm.
  destruct kind; simpl in Hw; try lia; simpl in Hm |- *;
    unfold swap; rewrite Hm; reflexivity.
Qed.
Lemma Endianness_eqb_eq a b : Endianness_eqb a b = true -> a = b.
Proof. destruct a, b; simpl; congruence. Qed.

Lemma slice_app_left (front back : list byte) start stop :
  stop <= length front ->
  slice (front ++ back) start stop = slice front start stop.
Proof.
  intros H. unfold slice. rewrite skipn_app, firstn_app, length_skipn.
  replace (stop - start - (length front - start)) with 0 by lia.
  simpl. apply app_nil_r.
Qed.

Lemma slice_firstn buffer n start stop :
  stop <= n -> slice (firstn n buffer) start stop = slice buffer start stop.
Proof.
  intros H. unfold slice. rewrite skipn_firstn_comm, firstn_firstn.
  f_equal. lia.
Qed.

(** What the machine reads from an element whose bytes were swapped is what
    a machine of the other byte order reads from the bytes as they came. *)
Lemma element_swapped native e k buffer stop i :
  Endianness_eqb e native = false ->
  stop <= length buffer ->
  i * BYTES_PER_ELEMENT k + BYTES_PER_ELEMENT k <= stop ->
  element native
    {| kind := k;
       bytes := swap_groups (BYTES_PER_ELEMENT k) stop (firstn stop buffer)
                ++ skipn stop buffer |} i
  = element e {| kind := k; bytes := buffer |} i.
Proof.
  intros Hne Hstop Hi. unfold element. cbn [kind bytes].
  pose proof (width_positive k) as Hw.
  assert (Hf : length (firstn stop buffer) = stop)
    by (rewrite length_firstn; lia).
  rewrite slice_app_left
    by (rewrite swap_groups_length by (try exact Hw; lia); lia).
  rewrite swap_groups_slice by (try exact Hw; lia).
  rewrite slice_firstn by lia.
  destruct native, e; try discriminate; cbn match; rewrite ?rev_involutive;
    reflexivity.
Qed.

End TypedArrayFacts.

(** ** The Symbol-keyed Reader on a listening input *)

Module ReaderReads.
Import Reader ReaderFacts.

(** A push-back on a listening reader leaves it listening. *)
Lemma UNREAD_CHUNK_Listening chunk r :
  Listening r ->
  exists r',
    UNREAD_CHUNK chunk r = Some r' /\ Listening r' /\
    Stream.ended (INPUT r') = Stream.ended (INPUT r) /\
    queue r' = (if (length chunk =? 0)%nat then queue r else chunk :: queue r) /\
    queued r' = chunk ++ queued r /\
    BYTES_READ r' = BYTES_READ r /\
    DEFAULT_ENDIANNESS r' = DEFAULT_ENDIANNESS r.
Proof.
  intros (Hu & Hr & Hd & He & Hee & Hf).
  unfold UNREAD_CHUNK, unread_is_zero, Stream.unshift. rewrite Hu, Hee.
  destruct (length chunk =? 0)%nat eqn:Hlen; simpl.
  - apply Nat.eqb_eq, length_zero_iff_nil in Hlen. subst chunk.
    exists r. repeat split; assumption.
  - eexists. split; [reflexivity|]. repeat split; assumption.
Qed.

(** While the producer has not ended the input, a resumed stream that
    delivers a chunk leaves the reader listening. *)
Lemma flow_open chunks : forall r r' chunk,
  BYTES_UNREAD r = None -> RESOLVE r = true ->
  Stream.dataListener (INPUT r) = true ->
  Stream.endListener (INPUT r) = true ->
  Stream.endEmitted (INPUT r) = false ->
  Stream.flowing (INPUT r) = true ->
  Stream.ended (INPUT r) = false ->
  flow chunks r = (r', Resolve (Some chunk)) ->
  Listening r'.
Proof.
  induction chunks as [|c rest IH];
    intros [d [b e ee f dl el] br bu res] r' chunk; simpl;
    intros -> -> -> -> -> -> ->.
  - unfold emit_end; simpl. discriminate.
  - unfold emit_data, onData; simpl.
    destruct c as [|x c]; simpl.
    + intros H. apply IH in H; try reflexivity. exact H.
    + unfold emit_end; simpl.
      destruct rest; simpl; intros [= <- _]; repeat split.
Qed.

Lemma await_READ_CHUNK_open r r' chunk :
  Listening r -> Stream.ended (INPUT r) = false ->
  await_READ_CHUNK r = (r', Resolve (Some chunk)) ->
  Listening r'.
Proof.
  intros (Hu & Hr & Hd & He & Hee & Hf) Hend.
  unfold await_READ_CHUNK, READ_CHUNK, unread_is_zero. rewrite Hu.
  unfold run. simpl. intros H.
  apply flow_open in H; simpl; auto.
Qed.

(** So the loop of a fill leaves it listening as well. *)
Lemma READ_BUFFER_loop_open fuel : forall buffer offset r out r',
  Listening r -> Stream.ended (INPUT r) = false ->
  READ_BUFFER_loop fuel buffer offset r = Returned out r' ->
  Listening r' /\ Stream.ended (INPUT r') = false.
Proof.
  induction fuel as [|fuel IH]; intros buffer offset r out r' Hl Hend; simpl.
  - destruct (offset <? length buffer); [discriminate|].
    intros [= _ <-]. now split.
  - destruct (offset <? length buffer); [|intros [= _ <-]; now split].
    destruct (await_READ_CHUNK r) as [r1 signal] eqn:Hawait.
    destruct (await_READ_CHUNK_Listening Hl Hawait) as (_ & Hen & Hsig).
    destruct signal as [|[chunk|]|]; try discriminate.
    + pose proof (await_READ_CHUNK_open Hl Hend Hawait) as Hl1.
      rewrite Hend in Hen.
      destruct (_ =? length chunk).
      * now apply IH.
      * destruct (UNREAD_CHUNK_Listening
                    (skipn (Nat.min (length buffer - offset) (length chunk)) chunk)
                    Hl1) as (r2 & Hun & Hl2 & Hen2 & _).
        rewrite Hun. apply IH; [exact Hl2 | congruence].
    + destruct Hsig as (_ & Habs & _). congruence.
Qed.

(** What a fill achieves on a reader that can serve it: the block count,
    the buffer, the bytes left queued. *)
Lemma READ_BUFFER_served buffer blockLength r :
  1 <= blockLength ->
  (Listening r /\
   (Stream.ended (INPUT r) = true \/ length buffer <= length (queued r)))
  \/ Drained r ->
  let offset := Nat.min (length buffer) (length (queued r)) in
  let blockCount := offset / blockLength in
  exists r',
    READ_BUFFER buffer blockLength r
    = Returned (Int (Z.of_nat blockCount), copy (queued r) buffer 0 offset) r' /\
    queued r' = skipn (blockCount * blockLength) (queued r) /\
    DEFAULT_ENDIANNESS r' = DEFAULT_ENDIANNESS r /\
    (BYTES_READ r + Z.of_nat offset <= BYTES_READ r')%Z.
Proof.
  intros Hbl Hr offset blockCount.
  destruct (@READ_BUFFER_loop_spec (length buffer) buffer 0 r)
    as (r1 & Hloop & Hq1 & Hd1 & Hp1 & Hb1).
  { now rewrite Nat.sub_0_r. }
  { lia. }
  { lia. }
  rewrite Nat.sub_0_r in Hloop, Hq1, Hb1. rewrite Nat.add_0_l in Hloop.
  fold offset in Hloop, Hq1, Hb1.
  set (filled := copy (queued r) buffer 0 offset) in *.
  set (excess := slice filled (blockCount * blockLength) offset).
  assert (Hblock : blockCount * blockLength <= offset).
  { subst blockCount. rewrite Nat.mul_comm. apply Nat.Div0.mul_div_le. }
  assert (Hoff : offset <= length (queued r) /\ offset <= length buffer)
    by (subst offset; lia).
  assert (Hexcess : excess = slice (queued r) (blockCount * blockLength) offset).
  { subst excess filled. apply slice_copy_prefix; lia. }
  destruct (UNREAD_CHUNK_Pushable excess Hp1)
    as (r2 & Hun & _ & Hqd2 & Hb2 & Hd2 & _).
  exists r2. split.
  { unfold READ_BUFFER. rewrite Hloop. unfold await, READ_BUFFER_finish.
    destruct blockLength as [|k]; [lia|]. unfold floor_div, Num_mul, to_index.
    fold blockCount. rewrite <- Nat2Z.inj_mul, Nat2Z.id.
    fold excess. now rewrite Hun. }
  split; [rewrite Hqd2, Hq1, Hexcess; now apply slice_then_rest|].
  split; [congruence | lia].
Qed.

(** While the producer has not ended the input, a fill that finds enough
    bytes leaves the reader listening. *)
Lemma READ_BUFFER_open buffer blockLength r out r' :
  Listening r -> Stream.ended (INPUT r) = false ->
  READ_BUFFER buffer blockLength r = Returned out r' ->
  Listening r' /\ Stream.ended (INPUT r') = false.
Proof.
  intros Hl Hend. unfold READ_BUFFER.
  destruct (READ_BUFFER_loop (length buffer) buffer 0 r)
    as [[filled offset] r1|e r1|r1|] eqn:Hloop; try discriminate.
  destruct (READ_BUFFER_loop_open _ _ _ Hl Hend Hloop) as (Hl1 & Hend1).
  unfold await, READ_BUFFER_finish.
  set (excess := slice _ _ _).
  destruct (UNREAD_CHUNK_Listening excess Hl1) as (r2 & Hun & Hl2 & Hen2 & _).
  rewrite Hun. intros [= _ <-]. split; [exact Hl2 | congruence].
Qed.

Lemma copy_whole (chunk buffer : list byte) :
  length buffer <= length chunk ->
  copy chunk buffer 0 (length buffer) = firstn (length buffer) chunk.
Proof.
  intros H. unfold copy. simpl. now rewrite skipn_all, app_nil_r.
Qed.

End ReaderReads.

(** ** Delivery of chunks *)

Module ChunkDelivery.
Import Reader ReaderFacts ReaderReads Scenarios.

(** X1.  Whatever the producer has written since the construction, the
    first chunk request is served the first chunk written that is not
    empty; the chunks written after it wait in order, those of length zero
    apart, and bytesRead is the length of the chunk served. *)
Theorem first_request_is_served_the_first_chunk e chunks chunk rest :
  Stream.written chunks = chunk :: rest ->
  exists r',
    await_READ_CHUNK (writes chunks (constructor e))
    = (r', Resolve (Some chunk)) /\
    queue r' = rest /\
    bytesRead r' = Z.of_nat (length chunk).
Proof.
  intros Hw.
  destruct (writes_constructor e chunks) as (Hl & Hq).
  rewrite Hw in Hq.
  assert (Hne : chunk <> []).
  { assert (Hin : In chunk (Stream.written chunks))
      by (rewrite Hw; now left).
    apply filter_In in Hin. destruct Hin as (_ & Hlen).
    intros ->. discriminate. }
  destruct (PushBack.await_READ_CHUNK_head Hl Hq Hne) as (r' & Hawait & Hq').
  exists r'. split; [exact Hawait|]. split; [exact Hq'|].
  destruct (await_READ_CHUNK_Listening Hl Hawait) as (_ & _ & _ & _ & Hb & _).
  unfold bytesRead. rewrite Hb, writes_paused by reflexivity. reflexivity.
Qed.

Lemma first_request_is_served_the_first_chunk_witness :
  Stream.written [[]; [x01]; []; [x02]] = [x01] :: [[x02]] /\
  exists r',
    await_READ_CHUNK (writes [[]; [x01]; []; [x02]] (constructor LE))
    = (r', Resolve (Some [x01])) /\
    queue r' = [[x02]] /\
    bytesRead r' = 1%Z.
Proof.
  split; [reflexivity|].
  exact (@first_request_is_served_the_first_chunk LE [[]; [x01]; []; [x02]]
           [x01] [[x02]] eq_refl).
Defined.

(** Whatever the state of the reader, what a flowing stream hands to a
    request is one of its chunks, and not an empty one. *)
Lemma flow_delivers_queued chunks : forall r r' chunk,
  flow chunks r = (r', Resolve (Some chunk)) ->
  chunk <> [] /\ In chunk chunks.
Proof.
  induction chunks as [|c rest IH];
    intros [d [b e ee f dl el] br bu res] r' chunk; simpl.
  - unfold emit_end, onEnd; simpl.
    destruct (e && negb ee); [|discriminate].
    destruct el; [|discriminate].
    simpl. destruct res; discriminate.
  - unfold emit_data, onData; simpl.
    destruct dl; simpl.
    + destruct c as [|x c]; simpl.
      * destruct f; [|discriminate].
        intros H. apply IH in H. destruct H as (Hne & Hin).
        split; [exact Hne | now right].
      * destruct bu, res; simpl; try discriminate;
          intros [= _ <-]; (split; [discriminate | now left]).
    + destruct f; [|discriminate].
      intros H. apply IH in H. destruct H as (Hne & Hin).
      split; [exact Hne | now right].
Qed.

(** X2.  Whatever the state of the reader, the chunk that settles a chunk
    request is one of the chunks that were queued in the input, and it is
    not empty. *)
Theorem delivered_chunk_was_queued r r' chunk :
  await_READ_CHUNK r = (r', Resolve (Some chunk)) ->
  chunk <> [] /\ In chunk (queue r).
Proof.
  unfold await_READ_CHUNK, READ_CHUNK.
  destruct (unread_is_zero r); [discriminate|].
  unfold run, queue. simpl. apply flow_delivers_queued.
Qed.

Lemma delivered_chunk_was_queued_witness :
  await_READ_CHUNK (writes [[]; [x07]; [x08]] (constructor LE))
  = (fst (await_READ_CHUNK (writes [[]; [x07]; [x08]] (constructor LE))),
     Resolve (Some [x07])) /\
  [x07] <> [] /\
  In [x07] (queue (writes [[]; [x07]; [x08]] (constructor LE))).
Proof.
  split; [reflexivity|].
  exact (@delivered_chunk_was_queued
           (writes [[]; [x07]; [x08]] (constructor LE))
           (fst (await_READ_CHUNK (writes [[]; [x07]; [x08]] (constructor LE))))
           [x07] eq_refl).
Defined.

(** X3.  Until a read asks for a chunk the reader takes nothing from its
    input: what the producer writes queues up in order behind what is
    queued, the chunks of length zero apart, which are not queued; the
    reader keeps listening, and neither counter moves. *)
Theorem writes_wait_for_a_request chunks r :
  Listening r -> Stream.ended (INPUT r) = false ->
  Listening (writes chunks r) /\
  queue (writes chunks r) = queue r ++ Stream.written chunks /\
  bytesRead (writes chunks r) = bytesRead r /\
  bytesUnread (writes chunks r) = None.
Proof.
  intros (Hu & Hr & Hd & He & Hee & Hf) Hend.
  rewrite writes_paused by exact Hf. rewrite Hend.
  unfold queue, bytesRead, bytesUnread. simpl. repeat split; assumption.
Qed.

Lemma writes_wait_for_a_request_witness :
  (Listening (constructor BE) /\
   Stream.ended (INPUT (constructor BE)) = false) /\
  Listening (writes [[x01]; []; [x02; x03]] (constructor BE)) /\
  queue (writes [[x01]; []; [x02; x03]] (constructor BE))
  = queue (constructor BE) ++ [[x01]; [x02; x03]] /\
  bytesRead (writes [[x01]; []; [x02; x03]] (constructor BE)) = 0%Z /\
  bytesUnread (writes [[x01]; []; [x02; x03]] (constructor BE)) = None.
Proof.
  split; [split; [apply constructor_Listening | reflexivity]|].
  exact (@writes_wait_for_a_request [[x01]; []; [x02; x03]] (constructor BE)
           (constructor_Listening BE) eq_refl).
Defined.

End ChunkDelivery.

(** ** Fills, strings and the end of input *)

Module Fills.
Import Reader ReaderFacts ReaderReads Scenarios.

(** X9.  Once the end of input was observed and nothing is queued, the end
    is final: a fill returns 0 blocks and leaves the buffer and the reader
    as they are, [readString] of at least one code unit and the scalar
    reads fail with EndOfInput, the reader again as it was. *)
Theorem end_of_input_is_final r :
  Drained r ->
  (forall buffer blockLength, 1 <= blockLength ->
     READ_BUFFER buffer blockLength r = Returned (Int 0, buffer) r) /\
  (forall allocated, allocated <> [] ->
     readString allocated r = Threw (EndOfInput None None) r) /\
  (forall native methodTypeName e,
     e = native \/ 1 < BYTES_PER_ELEMENT (TypedArrayOf methodTypeName) ->
     readX native methodTypeName (Some e) r = Threw (EndOfInput None None) r).
Proof.
  intros Hd.
  assert (Hfill : forall buffer blockLength, 1 <= blockLength ->
            READ_BUFFER buffer blockLength r = Returned (Int 0, buffer) r).
  { intros buffer blockLength Hbl. unfold READ_BUFFER.
    assert (Hloop : READ_BUFFER_loop (length buffer) buffer 0 r
                    = Returned (buffer, 0) r).
    { destruct buffer as [|b buffer]; [reflexivity|].
      cbn [length READ_BUFFER_loop Nat.ltb Nat.leb].
      now rewrite (await_READ_CHUNK_Drained Hd). }
    rewrite Hloop. unfold await, READ_BUFFER_finish.
    destruct blockLength as [|k]; [lia|].
    unfold floor_div. rewrite Nat.Div0.div_0_l.
    unfold Num_mul, to_index, slice. simpl. reflexivity. }
  split; [exact Hfill|]. split.
  - intros allocated Hne. unfold readString.
    rewrite Hfill by (destruct allocated; simpl; [congruence | lia]).
    reflexivity.
  - intros native methodTypeName e Hswap.
    unfold readX, READ_TYPED_ARRAY.
    rewrite Hfill by (destruct methodTypeName; simpl; lia).
    cbv beta iota zeta delta [await].
    destruct (Endianness_eqb e native) eqn:Heq; [reflexivity|].
    assert (Hw : 1 < BYTES_PER_ELEMENT (TypedArrayOf methodTypeName)).
    { destruct Hswap as [->|Hw]; [destruct native; discriminate | exact Hw]. }
    destruct methodTypeName; simpl in Hw; try lia; reflexivity.
Qed.

Lemma end_of_input_is_final_witness :
  Drained (fst (await_READ_CHUNK (fed LE []))) /\
  (forall buffer blockLength, 1 <= blockLength ->
     READ_BUFFER buffer blockLength (fst (await_READ_CHUNK (fed LE [])))
     = Returned (Int 0, buffer) (fst (await_READ_CHUNK (fed LE [])))) /\
  (forall allocated, allocated <> [] ->
     readString allocated (fst (await_READ_CHUNK (fed LE [])))
     = Threw (EndOfInput None None) (fst (await_READ_CHUNK (fed LE [])))) /\
  (forall native methodTypeName e,
     e = native \/ 1 < BYTES_PER_ELEMENT (TypedArrayOf methodTypeName) ->
     readX native methodTypeName (Some e) (fst (await_READ_CHUNK (fed LE [])))
     = Threw (EndOfInput None None) (fst (await_READ_CHUNK (fed LE [])))).
Proof.
  assert (Hd : Drained (fst (await_READ_CHUNK (fed LE [])))) by (repeat split).
  split; [exact Hd|].
  exact (@end_of_input_is_final (fst (await_READ_CHUNK (fed LE []))) Hd).
Defined.

(** X6.  While the producer has not ended the input, a fill that finds as
    many bytes queued as its buffer holds fills the buffer with the first
    of them, returns the whole blocks among them, leaves queued every byte
    from the end of the last whole block on, and leaves the reader
    listening on an input that has not ended: the next fill finds the
    reader as this one did. *)
Theorem READ_BUFFER_on_open_input buffer blockLength r :
  1 <= blockLength ->
  Listening r -> Stream.ended (INPUT r) = false ->
  length buffer <= length (queued r) ->
  exists r',
    READ_BUFFER buffer blockLength r
    = Returned (Int (Z.of_nat (length buffer / blockLength)),
                firstn (length buffer) (queued r)) r' /\
    queued r' = skipn (length buffer / blockLength * blockLength) (queued r) /\
    Listening r' /\ Stream.ended (INPUT r') = false /\
    (bytesRead r + Z.of_nat (length buffer) <= bytesRead r')%Z.
Proof.
  intros Hbl Hl Hend Hlen.
  destruct (@READ_BUFFER_served buffer blockLength r Hbl)
    as (r' & Hread & Hq & _ & Hb).
  { left. split; [exact Hl | now right]. }
  replace (Nat.min (length buffer) (length (queued r)))
    with (length buffer) in Hread, Hq, Hb by lia.
  rewrite copy_whole in Hread by exact Hlen.
  exists r'. split; [exact Hread|]. split; [exact Hq|].
  destruct (READ_BUFFER_open _ _ Hl Hend Hread) as (Hl' & Hend').
  split; [exact Hl'|]. split; [exact Hend' | exact Hb].
Qed.

Lemma READ_BUFFER_on_open_input_witness :
  (1 <= 2 /\ Listening (writes [[x01; x02]; [x03; x04]] (constructor LE)) /\
   Stream.ended (INPUT (writes [[x01; x02]; [x03; x04]] (constructor LE)))
   = false /\
   length [x00; x00; x00]
   <= length (queued (writes [[x01; x02]; [x03; x04]] (constructor LE)))) /\
  exists r',
    READ_BUFFER [x00; x00; x00] 2
      (writes [[x01; x02]; [x03; x04]] (constructor LE))
    = Returned (Int 1, [x01; x02; x03]) r' /\
    queued r' = [x03; x04] /\
    Listening r' /\ Stream.ended (INPUT r') = false /\
    (0 + 3 <= bytesRead r')%Z.
Proof.
  assert (Hl : Listening (writes [[x01; x02]; [x03; x04]] (constructor LE)))
    by (repeat split).
  assert (Hlen : length [x00; x00; x00]
                 <= length (queued (writes [[x01; x02]; [x03; x04]]
                                      (constructor LE))))
    by (simpl; lia).
  split; [split; [lia | split; [exact Hl | split; [reflexivity | exact Hlen]]]|].
  exact (@READ_BUFFER_on_open_input [x00; x00; x00] 2
           (writes [[x01; x02]; [x03; x04]] (constructor LE))
           ltac:(lia) Hl eq_refl Hlen).
Defined.

(** X7.  Consecutive fills hand out consecutive bytes: while the producer
    has not ended the input and enough bytes are queued for both, a fill
    of [first] and then a fill of [second], in blocks of one byte, return
    the first bytes of the queue and then the bytes that follow them, and
    leave queued what follows those. *)
Theorem consecutive_fills first second r :
  Listening r -> Stream.ended (INPUT r) = false ->
  length first + length second <= length (queued r) ->
  exists r1 r2,
    READ_BUFFER first 1 r
    = Returned (Int (Z.of_nat (length first)),
                firstn (length first) (queued r)) r1 /\
    READ_BUFFER second 1 r1
    = Returned (Int (Z.of_nat (length second)),
                firstn (length second) (skipn (length first) (queued r))) r2 /\
    queued r2 = skipn (length first + length second) (queued r).
Proof.
  intros Hl Hend Hlen.
  destruct (@READ_BUFFER_served first 1 r (le_n 1))
    as (r1 & Hread1 & Hq1 & _).
  { left. split; [exact Hl | right; lia]. }
  replace (Nat.min (length first) (length (queued r)))
    with (length first) in Hread1, Hq1 by lia.
  rewrite copy_whole in Hread1 by lia.
  rewrite Nat.div_1_r in Hread1, Hq1. rewrite Nat.mul_1_r in Hq1.
  destruct (READ_BUFFER_open _ _ Hl Hend Hread1) as (Hl1 & Hend1).
  assert (Hlen1 : length second <= length (queued r1))
    by (rewrite Hq1, length_skipn; lia).
  destruct (@READ_BUFFER_served second 1 r1 (le_n 1))
    as (r2 & Hread2 & Hq2 & _).
  { left. split; [exact Hl1 | right; exact Hlen1]. }
  replace (Nat.min (length second) (length (queued r1)))
    with (length second) in Hread2, Hq2 by lia.
  rewrite copy_whole in Hread2 by lia.
  rewrite Nat.div_1_r in Hread2, Hq2. rewrite Nat.mul_1_r in Hq2.
  exists r1, r2. split; [exact Hread1|]. rewrite <- Hq1.
  split; [exact Hread2|].
  rewrite Hq2, Hq1, skipn_skipn. f_equal. lia.
Qed.

Lemma consecutive_fills_witness :
  (Listening (writes [[x01; x02; x03]; [x04]; [x05]] (constructor LE)) /\
   Stream.ended (INPUT (writes [[x01; x02; x03]; [x04]; [x05]] (constructor LE)))
   = false /\
   length [x00; x00] + length [x00; x00]
   <= length (queued (writes [[x01; x02; x03]; [x04]; [x05]] (constructor LE)))) /\
  exists r1 r2,
    READ_BUFFER [x00; x00] 1
      (writes [[x01; x02; x03]; [x04]; [x05]] (constructor LE))
    = Returned (Int 2, [x01; x02]) r1 /\
    READ_BUFFER [x00; x00] 1 r1 = Returned (Int 2, [x03; x04]) r2 /\
    queued r2 = [x05].
Proof.
  assert (Hl : Listening (writes [[x01; x02; x03]; [x04]; [x05]] (constructor LE)))
    by (repeat split).
  assert (Hlen : length [x00; x00] + length [x00; x00]
                 <= length (queued (writes [[x01; x02; x03]; [x04]; [x05]]
                                      (constructor LE))))
    by (simpl; lia).
  split; [split; [exact Hl | split; [reflexivity | exact Hlen]]|].
  exact (@consecutive_fills [x00; x00] [x00; x00]
           (writes [[x01; x02; x03]; [x04]; [x05]] (constructor LE))
           Hl eq_refl Hlen).
Defined.

(** X11.  [readString] returns the string that the first [codeUnitCount]
    bytes of the queue decode to as UTF-8, whatever the allocated memory
    held, and leaves the rest queued. *)
Theorem readString_returns_the_first_bytes allocated r :
  Listening r -> 1 <= length allocated <= length (queued r) ->
  exists r',
    readString allocated r
    = Returned (toString (firstn (length allocated) (queued r))) r' /\
    queued r' = skipn (length allocated) (queued r).
Proof.
  intros Hl [Hpos Hlen].
  destruct (@READ_BUFFER_served allocated (length allocated) r Hpos)
    as (r' & Hread & Hq & _).
  { left. split; [exact Hl | now right]. }
  replace (Nat.min (length allocated) (length (queued r)))
    with (length allocated) in Hread, Hq by lia.
  rewrite copy_whole in Hread by exact Hlen.
  rewrite Nat.div_same in Hread, Hq by lia. rewrite Nat.mul_1_l in Hq.
  exists r'. split; [|exact Hq].
  unfold readString. rewrite Hread. reflexivity.
Qed.

Lemma readString_returns_the_first_bytes_witness :
  (Listening (writes [[x68]; [xe2; x82]; [xac; xff; x21]] (constructor LE)) /\
   1 <= length [xff; xff; xff; xff]
     <= length (queued (writes [[x68]; [xe2; x82]; [xac; xff; x21]]
                          (constructor LE)))) /\
  exists r',
    readString [xff; xff; xff; xff]
      (writes [[x68]; [xe2; x82]; [xac; xff; x21]] (constructor LE))
    = Returned [0x68; 0x20AC]%Z r' /\
    queued r' = [xff; x21].
Proof.
  assert (Hl : Listening (writes [[x68]; [xe2; x82]; [xac; xff; x21]]
                            (constructor LE)))
    by (repeat split).
  assert (Hlen : 1 <= length [xff; xff; xff; xff]
                   <= length (queued (writes [[x68]; [xe2; x82]; [xac; xff; x21]]
                                        (constructor LE))))
    by (simpl; lia).
  split; [split; assumption|].
  exact (@readString_returns_the_first_bytes [xff; xff; xff; xff]
           (writes [[x68]; [xe2; x82]; [xac; xff; x21]] (constructor LE))
           Hl Hlen).
Defined.



End Fills.

(** ** A fill that waits, a fill of nothing *)

Module Waiting.
Import Reader ReaderFacts ReaderReads Scenarios.

(** A resumed stream that runs dry before the producer has ended the input
    leaves the request pending. *)
Lemma flow_waits chunks : forall r r',
  BYTES_UNREAD r = None -> RESOLVE r = true ->
  Stream.dataListener (INPUT r) = true ->
  Stream.flowing (INPUT r) = true ->
  Stream.ended (INPUT r) = false ->
  flow chunks r = (r', Quiet) ->
  RESOLVE r' = true /\ queue r' = [] /\ Stream.flowing (INPUT r') = true /\
  Stream.ended (INPUT r') = false /\ BYTES_READ r' = BYTES_READ r.
Proof.
  induction chunks as [|c rest IH];
    intros [d [b e ee f dl el] br bu res] r'; simpl;
    intros -> -> -> -> ->.
  - unfold emit_end; simpl. intros [= <-]. repeat split.
  - unfold emit_data, onData; simpl.
    destruct c as [|x c]; simpl.
    + intros H. apply IH in H; try reflexivity. exact H.
    + discriminate.
Qed.

Lemma await_READ_CHUNK_waits r r' :
  Listening r -> Stream.ended (INPUT r) = false ->
  await_READ_CHUNK r = (r', Quiet) ->
  RESOLVE r' = true /\ queue r' = [] /\ Stream.flowing (INPUT r') = true /\
  Stream.ended (INPUT r') = false /\ BYTES_READ r' = BYTES_READ r.
Proof.
  intros (Hu & Hr & Hd & He & Hee & Hf) Hend.
  unfold await_READ_CHUNK, READ_CHUNK, unread_is_zero. rewrite Hu.
  unfold run. simpl. intros H.
  apply flow_waits in H; simpl; auto.
Qed.

Lemma READ_BUFFER_loop_waits fuel : forall buffer offset r,
  Listening r -> Stream.ended (INPUT r) = false ->
  length (queued r) < length buffer - offset ->
  length buffer - offset <= fuel ->
  exists r',
    READ_BUFFER_loop fuel buffer offset r = Suspended r' /\
    RESOLVE r' = true /\ queue r' = [] /\
    Stream.flowing (INPUT r') = true /\ Stream.ended (INPUT r') = false /\
    (BYTES_READ r' = BYTES_READ r + Z.of_nat (length (queued r)))%Z.
Proof.
  induction fuel as [|fuel IH]; intros buffer offset r Hl Hend Hshort Hfuel;
    [lia|].
  simpl.
  replace (offset <? length buffer) with true
    by (symmetry; apply Nat.ltb_lt; lia).
  destruct (await_READ_CHUNK r) as [r1 signal] eqn:Hawait.
  destruct (await_READ_CHUNK_Listening Hl Hawait) as (_ & Hen & Hsig).
  destruct signal as [|[chunk|]|].
  - destruct Hsig as (Hq & _).
    destruct (await_READ_CHUNK_waits Hl Hend Hawait)
      as (H1 & H2 & H3 & H4 & H5).
    exists r1. rewrite Hq. simpl. rewrite Z.add_0_r. repeat split; assumption.
  - destruct Hsig as (Hne & Hq & Hbr & _).
    pose proof (await_READ_CHUNK_open Hl Hend Hawait) as Hl1.
    assert (Hpos : 0 < length chunk)
      by (destruct chunk; simpl; [congruence | lia]).
    rewrite Hq, length_app in Hshort.
    replace (Nat.min (length buffer - offset) (length chunk))
      with (length chunk) by lia.
    rewrite Nat.eqb_refl.
    assert (Hlen := @copy_length chunk buffer offset (length chunk)
                      ltac:(lia) ltac:(lia)).
    destruct (IH (copy chunk buffer offset (length chunk))
                 (offset + length chunk) r1)
      as (r' & Hrun & H1 & H2 & H3 & H4 & H5).
    { exact Hl1. }
    { congruence. }
    { rewrite Hlen. lia. }
    { rewrite Hlen. lia. }
    exists r'. split; [exact Hrun|].
    split; [exact H1|]. split; [exact H2|]. split; [exact H3|].
    split; [exact H4|].
    rewrite H5, Hbr, Hq, length_app. unfold chunk_length. lia.
  - destruct Hsig as (_ & Habs & _). congruence.
  - contradiction.
Qed.

(** X8.  A fill waits for the producer: while the input has not ended and
    holds fewer bytes than the buffer, the fill neither returns nor fails.
    It has taken every queued byte, counted them in bytesRead, and its
    chunk request is pending on a flowing, empty stream.  So a bulk read
    with [allowPart] stays unsettled. *)
Theorem READ_BUFFER_waits_for_the_producer native buffer blockLength r :
  Listening r -> Stream.ended (INPUT r) = false ->
  length (queued r) < length buffer ->
  exists r',
    READ_BUFFER buffer blockLength r = Suspended r' /\
    RESOLVE r' = true /\ queue r' = [] /\
    Stream.flowing (INPUT r') = true /\
    bytesRead r' = (bytesRead r + Z.of_nat (length (queued r)))%Z /\
    forall endianness,
      fst (read native (BufferC buffer)
                {| blockLength := blockLength; endianness := endianness;
                   allowPart := true |} r)
      = Unsettled.
Proof.
  intros Hl Hend Hshort.
  destruct (@READ_BUFFER_loop_waits (length buffer) buffer 0 r Hl Hend)
    as (r' & Hloop & H1 & H2 & H3 & _ & H5); [lia | lia |].
  assert (Hread : READ_BUFFER buffer blockLength r = Suspended r')
    by (unfold READ_BUFFER; now rewrite Hloop).
  exists r'. split; [exact Hread|].
  split; [exact H1|]. split; [exact H2|]. split; [exact H3|].
  split; [exact H5|].
  intros endianness. unfold read. cbn [Reader.blockLength Reader.allowPart].
  now rewrite Hread.
Qed.

Lemma READ_BUFFER_waits_for_the_producer_witness :
  (Listening (writes [[x01]; [x02]] (constructor LE)) /\
   Stream.ended (INPUT (writes [[x01]; [x02]] (constructor LE))) = false /\
   length (queued (writes [[x01]; [x02]] (constructor LE)))
   < length [x00; x00; x00]) /\
  exists r',
    READ_BUFFER [x00; x00; x00] 1 (writes [[x01]; [x02]] (constructor LE))
    = Suspended r' /\
    RESOLVE r' = true /\ queue r' = [] /\
    Stream.flowing (INPUT r') = true /\
    bytesRead r' = 2%Z /\
    forall endianness,
      fst (read LE (BufferC [x00; x00; x00])
                {| blockLength := 1; endianness := endianness;
                   allowPart := true |}
                (writes [[x01]; [x02]] (constructor LE)))
      = Unsettled.
Proof.
  assert (Hl : Listening (writes [[x01]; [x02]] (constructor LE)))
    by (repeat split).
  assert (Hshort : length (queued (writes [[x01]; [x02]] (constructor LE)))
                   < length [x00; x00; x00]) by (simpl; lia).
  split; [split; [exact Hl | split; [reflexivity | exact Hshort]]|].
  exact (@READ_BUFFER_waits_for_the_producer LE [x00; x00; x00] 1
           (writes [[x01]; [x02]] (constructor LE)) Hl eq_refl Hshort).
Defined.

(** X10.  A fill of an empty buffer returns at once, in every state of the
    reader, and leaves the reader as it is.  So [readString(0)] returns
    the empty string even at the end of input: its block length is 0,
    0 / 0 is NaN, and NaN is not 0. *)
Theorem nothing_to_fill blockLength r :
  READ_BUFFER [] blockLength r = Returned (floor_div 0 blockLength, []) r /\
  readString [] r = Returned [] r.
Proof.
  split; [|reflexivity].
  unfold READ_BUFFER. simpl. unfold READ_BUFFER_finish.
  destruct blockLength; reflexivity.
Qed.

End Waiting.

(** ** The fill that observes the end of input *)

Module EndObserved.
Import Reader ReaderFacts ReaderReads Scenarios.

(** A loop that stops short of the buffer has been told the end. *)
Lemma READ_BUFFER_loop_short fuel : forall buffer offset r filled stop r',
  Listening r \/ Drained r ->
  offset <= length buffer ->
  READ_BUFFER_loop fuel buffer offset r = Returned (filled, stop) r' ->
  length filled = length buffer /\ (stop < length buffer -> Drained r').
Proof.
  induction fuel as [|fuel IH]; intros buffer offset r filled stop r' Hr Hle;
    simpl.
  - destruct (offset <? length buffer) eqn:Hlt; [discriminate|].
    apply Nat.ltb_ge in Hlt. intros [= <- <- <-].
    split; [reflexivity | intros; lia].
  - destruct (offset <? length buffer) eqn:Hlt.
    2:{ apply Nat.ltb_ge in Hlt. intros [= <- <- <-].
        split; [reflexivity | intros; lia]. }
    apply Nat.ltb_lt in Hlt.
    destruct Hr as [Hl|Hd].
    2:{ rewrite (await_READ_CHUNK_Drained Hd). intros [= <- <- <-].
        split; [reflexivity | intros _; exact Hd]. }
    destruct (await_READ_CHUNK r) as [r1 signal] eqn:Hawait.
    destruct (await_READ_CHUNK_Listening Hl Hawait) as (_ & _ & Hsig).
    destruct signal as [|[chunk|]|]; try discriminate.
    + destruct Hsig as (Hne & Hq & Hbr & Hst).
      set (n := Nat.min (length buffer - offset) (length chunk)).
      assert (Hlen : length (copy chunk buffer offset n) = length buffer)
        by (apply copy_length; subst n; lia).
      destruct (n =? length chunk) eqn:Hn.
      * intros Hloop. apply IH in Hloop; [|exact Hst | rewrite Hlen; subst n; lia].
        now rewrite Hlen in Hloop.
      * apply Nat.eqb_neq in Hn.
        destruct (UNREAD_CHUNK (skipn n chunk) r1) as [r2|]; [|discriminate].
        replace (offset + n) with (length (copy chunk buffer offset n))
          by (rewrite Hlen; subst n; lia).
        rewrite READ_BUFFER_loop_full. intros [= <- <- <-].
        split; [exact Hlen | intros; lia].
    + intros [= <- <- <-]. split; [reflexivity | intros _; apply Hsig].
Qed.

Lemma UNREAD_CHUNK_Drained excess r :
  Drained r ->
  exists r',
    UNREAD_CHUNK excess r = Some r' /\ queued r' = excess /\
    BYTES_UNREAD r' = Some (Z.of_nat (length excess)).
Proof.
  intros (Hu & _ & Hq). unfold UNREAD_CHUNK, unread_is_zero. rewrite Hu.
  destruct (length excess =? 0)%nat eqn:Hlen; simpl.
  - apply Nat.eqb_eq, length_zero_iff_nil in Hlen. subst excess.
    exists r. split; [reflexivity|]. split; [|exact Hu].
    unfold queued, Stream.bytes. unfold queue in Hq. now rewrite Hq.
  - eexists. split; [reflexivity|]. split; [|reflexivity].
    unfold queued, Stream.bytes, Stream.end_with, Stream.write. simpl.
    rewrite Hlen. simpl. apply app_nil_r.
Qed.

(** X28.  The read that observes the end of input leaves bytesUnread
    exact: when the input has ended with fewer bytes queued than the
    buffer holds, the fill returns the whole blocks among them, pushes
    the bytes past the last whole block back, and bytesUnread is then the
    number of bytes queued, which is the number of bytes of the input
    modulo the block length. *)
Theorem bytesUnread_when_the_end_is_observed buffer blockLength r :
  1 <= blockLength ->
  Listening r -> Stream.ended (INPUT r) = true ->
  length (queued r) < length buffer ->
  exists filled r',
    READ_BUFFER buffer blockLength r
    = Returned (Int (Z.of_nat (length (queued r) / blockLength)), filled) r' /\
    bytesUnread r' = Some (Z.of_nat (length (queued r'))) /\
    length (queued r') = length (queued r) mod blockLength.
Proof.
  intros Hbl Hl Hend Hshort.
  destruct (@READ_BUFFER_loop_spec (length buffer) buffer 0 r)
    as (r1 & Hloop & _).
  { left. split; [exact Hl | now left]. }
  { lia. }
  { lia. }
  rewrite Nat.sub_0_r in Hloop. rewrite Nat.add_0_l in Hloop.
  replace (Nat.min (length buffer) (length (queued r)))
    with (length (queued r)) in Hloop by lia.
  destruct (@READ_BUFFER_loop_short _ _ _ _ _ _ _ (or_introl Hl)
              (Nat.le_0_l _) Hloop) as (Hfilled & Hd1).
  specialize (Hd1 Hshort).
  set (filled := copy (queued r) buffer 0 (length (queued r))) in *.
  set (blockCount := length (queued r) / blockLength).
  assert (Hblock : blockCount * blockLength <= length (queued r)).
  { subst blockCount. rewrite Nat.mul_comm. apply Nat.Div0.mul_div_le. }
  set (excess := slice filled (blockCount * blockLength) (length (queued r))).
  assert (Hexcess : length excess = length (queued r) mod blockLength).
  { subst excess. unfold slice. rewrite length_firstn, length_skipn.
    rewrite Nat.Div0.mod_eq. fold blockCount. nia. }
  destruct (UNREAD_CHUNK_Drained excess Hd1) as (r2 & Hun & Hq2 & Hb2).
  exists filled, r2. split.
  { unfold READ_BUFFER. rewrite Hloop. unfold await, READ_BUFFER_finish.
    destruct blockLength as [|k]; [lia|]. unfold floor_div, Num_mul, to_index.
    fold blockCount. rewrite <- Nat2Z.inj_mul, Nat2Z.id.
    fold excess. now rewrite Hun. }
  unfold bytesUnread. rewrite Hb2, Hq2. split; [reflexivity | exact Hexcess].
Qed.

Lemma bytesUnread_when_the_end_is_observed_witness :
  (1 <= 2 /\ Listening (fed LE [[x01; x02]; [x03]]) /\
   Stream.ended (INPUT (fed LE [[x01; x02]; [x03]])) = true /\
   length (queued (fed LE [[x01; x02]; [x03]])) < length [x00; x00; x00; x00]) /\
  exists filled r',
    READ_BUFFER [x00; x00; x00; x00] 2 (fed LE [[x01; x02]; [x03]])
    = Returned (Int 1, filled) r' /\
    bytesUnread r' = Some (Z.of_nat (length (queued r'))) /\
    length (queued r') = 1.
Proof.
  assert (Hl : Listening (fed LE [[x01; x02]; [x03]])) by (repeat split).
  assert (Hshort : length (queued (fed LE [[x01; x02]; [x03]]))
                   < length [x00; x00; x00; x00]) by (simpl; lia).
  split; [split; [lia | split; [exact Hl | split; [reflexivity | exact Hshort]]]|].
  exact (@bytesUnread_when_the_end_is_observed [x00; x00; x00; x00] 2
           (fed LE [[x01; x02]; [x03]]) ltac:(lia) Hl eq_refl Hshort).
Defined.

End EndObserved.

(** ** Reads through typed arrays *)

Module TypedReads.
Import Reader ReaderFacts ReaderReads Scenarios.

(** What [READ_TYPED_ARRAY] achieves when enough bytes are queued for the
    whole array: the elements of the whole blocks, each decoded in the
    byte order asked for. *)
Lemma READ_TYPED_ARRAY_served native e typedArray blockLength n r :
  1 <= blockLength ->
  length (bytes typedArray) = n * BYTES_PER_ELEMENT (kind typedArray) ->
  Listening r ->
  n * BYTES_PER_ELEMENT (kind typedArray) <= length (queued r) ->
  e = native \/ 1 < BYTES_PER_ELEMENT (kind typedArray) ->
  exists typedArray' r',
    READ_TYPED_ARRAY native typedArray blockLength e r
    = Returned (Int (Z.of_nat (n / blockLength)), typedArray') r' /\
    kind typedArray' = kind typedArray /\
    (forall i, i < n / blockLength * blockLength ->
       element native typedArray' i
       = element e
           {| kind := kind typedArray;
              bytes := firstn (n * BYTES_PER_ELEMENT (kind typedArray))
                              (queued r) |} i) /\
    queued r'
    = skipn (n / blockLength * blockLength * BYTES_PER_ELEMENT (kind typedArray))
            (queued r) /\
    DEFAULT_ENDIANNESS r' = DEFAULT_ENDIANNESS r.
Proof.
  intros Hbl Hlen Hl Hq Hswap.
  set (w := BYTES_PER_ELEMENT (kind typedArray)) in *.
  assert (Hw : 0 < w) by apply width_positive.
  destruct (@READ_BUFFER_served (bytes typedArray) (blockLength * w) r)
    as (r' & Hread & Hq' & Hd' & _).
  { nia. }
  { left. split; [exact Hl | right; lia]. }
  replace (Nat.min (length (bytes typedArray)) (length (queued r)))
    with (length (bytes typedArray)) in Hread, Hq' by lia.
  rewrite copy_whole in Hread by lia.
  rewrite Hlen in Hread, Hq'.
  rewrite Nat.Div0.div_mul_cancel_r in Hread, Hq' by lia.
  set (blockCount := n / blockLength) in *.
  set (filled := firstn (n * w) (queued r)) in *.
  assert (Hfilled : length filled = n * w)
    by (subst filled; rewrite length_firstn; lia).
  assert (Hblock : blockCount * blockLength <= n).
  { subst blockCount. rewrite Nat.mul_comm. apply Nat.Div0.mul_div_le. }
  unfold READ_TYPED_ARRAY. fold w. rewrite Hread.
  cbv beta iota zeta delta [await].
  destruct (Endianness_eqb e native) eqn:Heq; cbv beta iota zeta delta [negb].
  - apply Endianness_eqb_eq in Heq. subst e.
    eexists; eexists. split; [reflexivity|].
    split; [reflexivity|]. split; [reflexivity|].
    split; [|exact Hd']. rewrite Hq'. f_equal. lia.
  - assert (Hwide : 1 < w).
    { destruct Hswap as [->|Hwide]; [destruct native; discriminate | exact Hwide]. }
    unfold Num_mul, to_index.
    rewrite <- !Nat2Z.inj_mul, Nat2Z.id.
    set (stop := blockCount * blockLength * w).
    assert (Hstop : stop <= length filled) by (subst stop; nia).
    rewrite slice_prefix.
    assert (Hraw : length (firstn stop filled) = stop)
      by (rewrite length_firstn; lia).
    unfold w at 1. rewrite swap_wide; fold w.
    2:{ exact Hwide. }
    2:{ rewrite Hraw. subst stop. apply Nat.Div0.mod_mul. }
    rewrite Hraw, swap_groups_length by (try exact Hw; lia). rewrite Hraw.
    eexists; eexists. split; [reflexivity|].
    split; [reflexivity|].
    split; [|split; [|exact Hd']].
    + intros i Hi. cbn [kind]. apply element_swapped; fold w.
      * exact Heq.
      * exact Hstop.
      * subst stop. nia.
    + rewrite Hq'. f_equal. subst stop. lia.
Qed.


(** X15.  A bulk read into a typed array, with [allowPart], when the queue
    holds enough bytes for the whole array: the call is fulfilled with the
    number of whole blocks the array holds, and every element of these
    blocks is what a machine of the byte order asked for reads from the
    queued bytes as they came; without the [endianness] option that order
    is the reader's [defaultEndianness].  What follows the whole blocks
    stays queued. *)
Theorem read_typed_array_in_byte_order native typedArray blockLength
    endianness n r :
  let order := match endianness with
               | Some e => e
               | None => DEFAULT_ENDIANNESS r
               end in
  1 <= blockLength ->
  length (bytes typedArray) = n * BYTES_PER_ELEMENT (kind typedArray) ->
  Listening r ->
  n * BYTES_PER_ELEMENT (kind typedArray) <= length (queued r) ->
  order = native \/ 1 < BYTES_PER_ELEMENT (kind typedArray) ->
  exists typedArray' r',
    fst (read native (TypedArrayC typedArray)
              {| blockLength := blockLength; endianness := endianness;
                 allowPart := true |} r)
    = Fulfilled (Some (Int (Z.of_nat (n / blockLength))),
                 TypedArrayC typedArray', r') /\
    kind typedArray' = kind typedArray /\
    (forall i, i < n / blockLength * blockLength ->
       element native typedArray' i
       = element order
           {| kind := kind typedArray;
              bytes := firstn (n * BYTES_PER_ELEMENT (kind typedArray))
                              (queued r) |} i) /\
    queued r'
    = skipn (n / blockLength * blockLength * BYTES_PER_ELEMENT (kind typedArray))
            (queued r).
Proof.
  intros order Hbl Hlen Hl Hq Hswap.
  destruct (@READ_TYPED_ARRAY_served native order typedArray blockLength n r
              Hbl Hlen Hl Hq Hswap)
    as (typedArray' & r' & Hread & Hk & Hel & Hq' & _).
  exists typedArray', r'. split; [|split; [exact Hk | split; [exact Hel | exact Hq']]].
  unfold read. cbn [Reader.endianness Reader.blockLength Reader.allowPart].
  fold order. rewrite Hread. reflexivity.
Qed.

Lemma read_typed_array_in_byte_order_witness :
  (1 <= 1 /\
   length (bytes (new_TypedArray Uint16Array 2))
   = 2 * BYTES_PER_ELEMENT (kind (new_TypedArray Uint16Array 2)) /\
   Listening (writes [[x01; x02; x03]; [x04; x05]] (constructor BE)) /\
   2 * BYTES_PER_ELEMENT (kind (new_TypedArray Uint16Array 2))
   <= length (queued (writes [[x01; x02; x03]; [x04; x05]] (constructor BE))) /\
   (DEFAULT_ENDIANNESS (writes [[x01; x02; x03]; [x04; x05]] (constructor BE))
    = LE \/ 1 < BYTES_PER_ELEMENT (kind (new_TypedArray Uint16Array 2)))) /\
  exists typedArray' r',
    fst (read LE (TypedArrayC (new_TypedArray Uint16Array 2))
              {| blockLength := 1; endianness := None; allowPart := true |}
              (writes [[x01; x02; x03]; [x04; x05]] (constructor BE)))
    = Fulfilled (Some (Int 2), TypedArrayC typedArray', r') /\
    kind typedArray' = Uint16Array /\
    (forall i, i < 2 ->
       element LE typedArray' i
       = element BE {| kind := Uint16Array; bytes := [x01; x02; x03; x04] |} i) /\
    queued r' = [x05].
Proof.
  assert (Hl : Listening (writes [[x01; x02; x03]; [x04; x05]] (constructor BE)))
    by (repeat split).
  assert (Hq : 2 * BYTES_PER_ELEMENT (kind (new_TypedArray Uint16Array 2))
               <= length (queued (writes [[x01; x02; x03]; [x04; x05]]
                                    (constructor BE))))
    by (simpl; lia).
  assert (Hswap : DEFAULT_ENDIANNESS
                    (writes [[x01; x02; x03]; [x04; x05]] (constructor BE))
                  = LE \/ 1 < BYTES_PER_ELEMENT (kind (new_TypedArray Uint16Array 2)))
    by (right; simpl; lia).
  split; [split; [lia | split; [reflexivity | split; [exact Hl | split; [exact Hq | exact Hswap]]]]|].
  exact (@read_typed_array_in_byte_order LE (new_TypedArray Uint16Array 2) 1
           None 2 (writes [[x01; x02; x03]; [x04; x05]] (constructor BE))
           ltac:(lia) eq_refl Hl Hq Hswap).
Defined.

(** X16.  A scalar read that finds the bytes of its element queued returns
    what a machine of the byte order asked for reads from the first of
    them, and takes exactly these bytes from the queue.  The bytes of a
    single-byte element must need no swap. *)
Theorem readX_decodes native methodTypeName e r :
  Listening r ->
  BYTES_PER_ELEMENT (TypedArrayOf methodTypeName) <= length (queued r) ->
  e = native \/ 1 < BYTES_PER_ELEMENT (TypedArrayOf methodTypeName) ->
  exists r',
    readX native methodTypeName (Some e) r
    = Returned
        (element e
           {| kind := TypedArrayOf methodTypeName;
              bytes := firstn (BYTES_PER_ELEMENT (TypedArrayOf methodTypeName))
                              (queued r) |} 0) r' /\
    queued r'
    = skipn (BYTES_PER_ELEMENT (TypedArrayOf methodTypeName)) (queued r).
Proof.
  intros Hl Hq Hswap.
  set (w := BYTES_PER_ELEMENT (TypedArrayOf methodTypeName)) in *.
  destruct (@READ_TYPED_ARRAY_served native e
              (new_TypedArray (TypedArrayOf methodTypeName) 1) 1 1 r)
    as (typedArray' & r' & Hread & Hk & Hel & Hq' & _).
  { lia. }
  { unfold new_TypedArray. cbn [bytes kind]. now rewrite repeat_length. }
  { exact Hl. }
  { cbn [new_TypedArray kind]. fold w. lia. }
  { exact Hswap. }
  cbn [new_TypedArray kind] in Hread, Hel, Hq'. fold w in Hel, Hq'.
  change (1 / 1) with 1 in Hread, Hel, Hq'.
  rewrite !Nat.mul_1_l in Hq'.
  exists r'. split; [|exact Hq'].
  unfold readX. cbn [new_TypedArray]. rewrite Hread.
  cbv beta iota zeta delta [await]. cbn [Num_is_zero Z.of_nat Z.eqb Pos.of_succ_nat].
  rewrite Hel by lia. now rewrite Nat.mul_1_l.
Qed.

Lemma readX_decodes_witness :
  (Listening (writes [[x12; x34; x56]; [x78; x9a]] (constructor LE)) /\
   BYTES_PER_ELEMENT (TypedArrayOf UInt32)
   <= length (queued (writes [[x12; x34; x56]; [x78; x9a]] (constructor LE))) /\
   (BE = LE \/ 1 < BYTES_PER_ELEMENT (TypedArrayOf UInt32))) /\
  exists r',
    readX LE UInt32 (Some BE)
      (writes [[x12; x34; x56]; [x78; x9a]] (constructor LE))
    = Returned (Integer 0x12345678) r' /\
    queued r' = [x9a].
Proof.
  assert (Hl : Listening (writes [[x12; x34; x56]; [x78; x9a]] (constructor LE)))
    by (repeat split).
  assert (Hq : BYTES_PER_ELEMENT (TypedArrayOf UInt32)
               <= length (queued (writes [[x12; x34; x56]; [x78; x9a]]
                                    (constructor LE))))
    by (simpl; lia).
  assert (Hswap : BE = LE \/ 1 < BYTES_PER_ELEMENT (TypedArrayOf UInt32))
    by (right; simpl; lia).
  split; [split; [exact Hl | split; [exact Hq | exact Hswap]]|].
  exact (@readX_decodes LE UInt32 BE
           (writes [[x12; x34; x56]; [x78; x9a]] (constructor LE))
           Hl Hq Hswap).
Defined.

End TypedReads.

(** ** What the bulk read reports *)

Module ReadReports.
Import Reader ReaderFacts ReaderReads Scenarios.

(** The only error a fill raises is the one of the stream that refuses a
    push-back. *)
Lemma READ_BUFFER_loop_throws fuel : forall buffer offset r e r',
  READ_BUFFER_loop fuel buffer offset r = Threw e r' -> e = StreamError.
Proof.
  induction fuel as [|fuel IH]; intros buffer offset r e r'; simpl.
  - destruct (offset <? length buffer); discriminate.
  - destruct (offset <? length buffer); [|discriminate].
    destruct (await_READ_CHUNK r) as [r1 signal].
    destruct signal as [|[chunk|]|]; try discriminate.
    destruct (_ =? length chunk); [apply IH|].
    destruct (UNREAD_CHUNK _ r1); [apply IH|].
    now intros [= <- _].
Qed.

Lemma READ_BUFFER_throws buffer blockLength r e r' :
  READ_BUFFER buffer blockLength r = Threw e r' -> e = StreamError.
Proof.
  unfold READ_BUFFER.
  destruct (READ_BUFFER_loop (length buffer) buffer 0 r)
    as [[filled offset] r1|e1 r1|r1|] eqn:Hloop; simpl; try discriminate.
  - unfold READ_BUFFER_finish. destruct (UNREAD_CHUNK _ r1); [discriminate|].
    now intros [= <- _].
  - intros [= <- _]. now apply READ_BUFFER_loop_throws in Hloop.
Qed.

Lemma swap_throws kind raw e :
  swap (BYTES_PER_ELEMENT kind * 8) raw = inl e ->
  e = TypeError \/ e = RangeError.
Proof.
  destruct kind; cbn [BYTES_PER_ELEMENT Nat.mul Nat.add]; unfold swap;
    try (intros [= <-]; now left);
    (destruct (_ =? 0); [discriminate | intros [= <-]; now right]).
Qed.

Lemma READ_TYPED_ARRAY_throws native typedArray blockLength e r error r' :
  READ_TYPED_ARRAY native typedArray blockLength e r = Threw error r' ->
  error = StreamError \/ error = TypeError \/ error = RangeError.
Proof.
  unfold READ_TYPED_ARRAY.
  destruct (READ_BUFFER _ _ r) as [[n filled] r1|e1 r1|r1|] eqn:Hread;
    simpl; try discriminate.
  - destruct (negb _); [|discriminate].
    destruct (swap _ _) as [e2|readPart] eqn:Hswap; [|discriminate].
    intros [= <- _]. right. now apply swap_throws in Hswap.
  - intros [= <- _]. left. now apply READ_BUFFER_throws in Hread.
Qed.

(** X14.  [read] never fails with EndOfInput, whatever the container, the
    options and the state of the reader: neither the call nor the fill it
    starts.  The errors that can reach the caller are those of a refused
    push-back and of a missing or misaligned swap. *)
Theorem read_never_fails_with_EndOfInput native container options r :
  (forall error,
     fst (read native container options r) = Rejected error ->
     error = StreamError \/ error = TypeError \/ error = RangeError) /\
  (forall error r',
     snd (read native container options r) = Threw error r' ->
     error = StreamError \/ error = TypeError \/ error = RangeError).
Proof.
  assert (Hfill : forall error r',
            snd (read native container options r) = Threw error r' ->
            error = StreamError \/ error = TypeError \/ error = RangeError).
  { intros error r'. unfold read.
    assert (Hinner : forall error r',
              match container with
              | BufferC buffer =>
                  let* (n, buffer), r :=
                    await READ_BUFFER buffer (blockLength options) r in
                  Returned (n, BufferC buffer) r
              | TypedArrayC typedArray =>
                  let* (n, typedArray), r :=
                    await READ_TYPED_ARRAY native typedArray
                            (blockLength options)
                            match endianness options with
                            | Some e => e
                            | None => DEFAULT_ENDIANNESS r
                            end r in
                  Returned (n, TypedArrayC typedArray) r
              end = Threw error r' ->
              error = StreamError \/ error = TypeError \/ error = RangeError).
    { clear error r'. intros error r'. destruct container as [buffer|typedArray].
      - destruct (READ_BUFFER _ _ r) as [[n filled] r1|e1 r1|r1|] eqn:Hread;
          simpl; try discriminate.
        intros [= <- _]. left. now apply READ_BUFFER_throws in Hread.
      - destruct (READ_TYPED_ARRAY _ _ _ _ r) as [[n filled] r1|e1 r1|r1|] eqn:Hread;
          simpl; try discriminate.
        intros [= <- _]. now apply READ_TYPED_ARRAY_throws in Hread. }
    destruct (allowPart options); [exact (Hinner error r')|].
    destruct (Num_ltb _ _); exact (Hinner error r'). }
  split; [|exact Hfill].
  intros error. unfold read in *.
  destruct (allowPart options).
  - cbn [fst snd] in *.
    match goal with
    | |- match ?o with _ => _ end = _ -> _ =>
        destruct o as [[n filled] r1|e1 r1|r1|] eqn:Ho; try discriminate
    end.
    intros [= <-]. exact (Hfill _ _ eq_refl).
  - cbn [Num_mul Num_ltb]. cbn [fst]. discriminate.
Qed.




End ReadReports.

(** ** reader.js: the queue, its count and the error of the source *)

Module EventQueue.
Import EventReader EventReaderFacts.

(** X18.  reader.js: a push-back is the very next chunk delivered, whatever
    the state of the reader, and the request that takes it leaves the
    queue of events, the stream and the count of remaining bytes as they
    were before the push-back. *)
Theorem unreadChunk_then_readChunk chunk r :
  await_readChunk (_unreadChunk chunk r)
  = (set_resolve false r, resolve (Some chunk)).
Proof.
  destruct r as [l s ev br res].
  unfold await_readChunk, _readChunk, _unreadChunk, _dispatch, set_resolve,
    set_bytesRemain, set_events; simpl.
  destruct br as [n|]; simpl; [|reflexivity].
  repeat f_equal. lia.
Qed.

(** What a chunk request does to the count of remaining bytes. *)
Lemma await_readChunk_bytesRemain r r' d :
  Steady r \/ Ended r ->
  await_readChunk r = (r', d) ->
  match d with
  | resolve (Some chunk) =>
      _bytesRemain r'
      = option_map (fun n => (n - chunk_length chunk)%Z) (_bytesRemain r)
  | resolve None => _bytesRemain r' = Some 0%Z
  | _ => True
  end.
Proof.
  destruct r as [l [b e ee f dl el] ev br res].
  unfold Steady, Ended; simpl.
  intros [(-> & Hev & -> & -> & -> & ->) | (-> & Hev & ->)].
  - destruct (chunks_of ev) as [|chunk chunks] eqn:Hc; simpl in Hev; subst ev.
    + unfold await_readChunk, _readChunk, _dispatch, run; simpl.
      destruct b as [|chunk rest]; simpl.
      * unfold emit_end, _endHandler, _dispatch; simpl.
        destruct e; simpl; intros [= <- <-]; reflexivity.
      * unfold emit_data, _dataHandler, _dispatch, emit_end; simpl.
        destruct rest; [destruct e|]; simpl; intros [= <- <-]; reflexivity.
    + unfold await_readChunk, _readChunk, _dispatch; simpl.
      intros [= <- <-]; reflexivity.
  - destruct (chunks_of ev) as [|chunk chunks] eqn:Hc; simpl in Hev; subst ev.
    + unfold await_readChunk, _readChunk, _dispatch; simpl.
      intros [= <- <-]; reflexivity.
    + unfold await_readChunk, _readChunk, _dispatch; simpl.
      intros [= <- <-]; reflexivity.
Qed.

Lemma _unreadChunk_Exact chunk r : Exact r -> Exact (_unreadChunk chunk r).
Proof.
  intros (He & Hb).
  destruct (_unreadChunk_queued chunk r) as (_ & Hq & _ & Hend).
  split; [now apply Hend|].
  rewrite Hq, length_app. unfold _unreadChunk. simpl. rewrite Hb. simpl.
  f_equal. unfold chunk_length. lia.
Qed.

Lemma _readBuffer_loop_counts fuel : forall buffer offset r filled stop r',
  Steady r \/ Ended r ->
  offset <= length buffer ->
  _readBuffer_loop fuel buffer offset r = Returned (filled, stop) r' ->
  length filled = length buffer /\
  (Steady r' \/ Ended r') /\
  (Exact r -> Exact r') /\
  (stop < length buffer -> Exact r').
Proof.
  induction fuel as [|fuel IH]; intros buffer offset r filled stop r' Hr Hle;
    simpl.
  - destruct (offset <? length buffer) eqn:Hlt; [discriminate|].
    apply Nat.ltb_ge in Hlt. intros [= <- <- <-].
    split; [reflexivity|]. split; [exact Hr|]. split; [auto | intros; lia].
  - destruct (offset <? length buffer) eqn:Hlt.
    2:{ apply Nat.ltb_ge in Hlt. intros [= <- <- <-].
        split; [reflexivity|]. split; [exact Hr|].
        split; [auto | intros; lia]. }
    apply Nat.ltb_lt in Hlt.
    destruct (await_readChunk r) as [r1 d] eqn:Hawait.
    pose proof (await_readChunk_bytesRemain Hr Hawait) as Hcount.
    destruct (@await_readChunk_spec r Hr) as (r1' & Hcases).
    destruct Hcases as [(chunk & Ha & Hq & _ & Hst & Hee)
                       | [(Ha & Hq & Hq1 & He1 & _) | (Ha & _)]];
      rewrite Hawait in Ha; injection Ha as <- ->.
    + set (n := Nat.min (length buffer - offset) (length chunk)).
      assert (Hlen : length (copy chunk buffer offset n) = length buffer)
        by (apply copy_length; subst n; lia).
      assert (Hst1 : Steady r1 \/ Ended r1)
        by (destruct Hst as [[Hs _]|He]; [now left | now right]).
      assert (Hex1 : Exact r -> Exact r1).
      { intros (He & Hb). split; [now apply Hee|].
        rewrite Hcount, Hb. simpl. rewrite Hq, length_app.
        f_equal. unfold chunk_length. lia. }
      destruct (n =? length chunk); intros Hloop.
      * apply IH in Hloop; [|exact Hst1 | rewrite Hlen; subst n; lia].
        rewrite Hlen in Hloop.
        destruct Hloop as (Hl' & Hs' & He' & Hshort).
        split; [exact Hl'|]. split; [exact Hs'|]. split; [auto | exact Hshort].
      * apply IH in Hloop.
        -- rewrite Hlen in Hloop.
           destruct Hloop as (Hl' & Hs' & He' & Hshort).
           split; [exact Hl'|]. split; [exact Hs'|]. split; [|exact Hshort].
           intros Hex. apply He', _unreadChunk_Exact, Hex1, Hex.
        -- destruct (_unreadChunk_queued (skipn n chunk) r1)
             as (_ & _ & Hs & He).
           destruct Hst1; [left; now apply Hs | right; now apply He].
        -- rewrite Hlen; subst n; lia.
    + intros [= <- <- <-].
      assert (Hex : Exact r1).
      { split; [exact He1|]. rewrite Hcount, Hq1. reflexivity. }
      split; [reflexivity|]. split; [now right|]. split; auto.
    + discriminate.
Qed.


(** X19.  reader.js: once a read has run into the end of the source,
    [bytesRemain] is the number of bytes that wait in the queue, and every
    later read keeps it so. *)
Theorem bytesRemain_counts_the_queue buffer blockLength r :
  1 <= blockLength ->
  (Steady r /\
   (Stream.ended (_stream r) = true \/ length buffer <= length (queued r)))
  \/ Ended r ->
  exists blockCount filled r',
    _readBuffer buffer blockLength r = Returned (blockCount, filled) r' /\
    (length (queued r) < length buffer ->
     bytesRemain r' = Some (Z.of_nat (length (queued r')))) /\
    (Ended r -> bytesRemain r = Some (Z.of_nat (length (queued r))) ->
     bytesRemain r' = Some (Z.of_nat (length (queued r')))).
Proof.
  intros Hbl Hr.
  destruct (@_readBuffer_loop_spec
              (S (length (_events r) + length (Stream.buffer (_stream r))))
              buffer 0 r) as (r1 & Hloop & Hq1).
  { now rewrite Nat.sub_0_r. }
  { lia. }
  { pose proof (chunks_of_length (_events r)). lia. }
  rewrite Nat.sub_0_r in Hloop, Hq1. rewrite Nat.add_0_l in Hloop.
  assert (Hst : Steady r \/ Ended r)
    by (destruct Hr as [[Hs _]|He]; [now left | now right]).
  destruct (@_readBuffer_loop_counts _ _ _ _ _ _ _ Hst (Nat.le_0_l _) Hloop)
    as (_ & _ & Hkeep & Hshort).
  unfold _readBuffer. rewrite Hloop. unfold await, _readBuffer_finish.
  eexists; eexists; eexists. split; [reflexivity|]. split.
  - intros Hlt. apply _unreadChunk_Exact, Hshort. lia.
  - intros He Hb. apply _unreadChunk_Exact, Hkeep. now split.
Qed.

Lemma bytesRemain_counts_the_queue_witness :
  (1 <= 2 /\
   ((Steady (fst (source_end (fst (source_write [x01; x02; x03] constructor)))) /\
     (Stream.ended
        (_stream (fst (source_end (fst (source_write [x01; x02; x03] constructor)))))
      = true \/
      length [x00; x00; x00; x00]
      <= length (queued (fst (source_end
                                (fst (source_write [x01; x02; x03] constructor)))))))
    \/ Ended (fst (source_end (fst (source_write [x01; x02; x03] constructor)))))) /\
  exists blockCount filled r',
    _readBuffer [x00; x00; x00; x00] 2
      (fst (source_end (fst (source_write [x01; x02; x03] constructor))))
    = Returned (blockCount, filled) r' /\
    (length (queued (fst (source_end
                            (fst (source_write [x01; x02; x03] constructor)))))
     < length [x00; x00; x00; x00] ->
     bytesRemain r' = Some (Z.of_nat (length (queued r')))) /\
    (Ended (fst (source_end (fst (source_write [x01; x02; x03] constructor)))) ->
     bytesRemain (fst (source_end (fst (source_write [x01; x02; x03] constructor))))
     = Some (Z.of_nat
               (length (queued (fst (source_end
                                       (fst (source_write [x01; x02; x03]
                                               constructor))))))) ->
     bytesRemain r' = Some (Z.of_nat (length (queued r')))).
Proof.
  assert (H : (Steady (fst (source_end (fst (source_write [x01; x02; x03] constructor)))) /\
     (Stream.ended
        (_stream (fst (source_end (fst (source_write [x01; x02; x03] constructor)))))
      = true \/
      length [x00; x00; x00; x00]
      <= length (queued (fst (source_end
                                (fst (source_write [x01; x02; x03] constructor)))))))
    \/ Ended (fst (source_end (fst (source_write [x01; x02; x03] constructor))))).
  { left. split; [repeat split | left; reflexivity]. }
  split; [split; [lia | exact H]|].
  exact (@bytesRemain_counts_the_queue [x00; x00; x00; x00] 2
           (fst (source_end (fst (source_write [x01; x02; x03] constructor))))
           ltac:(lia) H).
Defined.

(** X20.  reader.js: an error of the source is handed to one chunk request.
    When it comes to a reader that waits with nothing queued, the next
    request is rejected with it, and the reader is then as it was before
    the error, except that it takes no second error from the source. *)
Theorem source_error_reaches_one_request e r :
  Steady r -> errorListener r = true -> _events r = [] ->
  let r' := mk false (_stream r) [] (_bytesRemain r) false in
  source_error e r
  = (mk false (_stream r) [error e] (_bytesRemain r) false, Idle) /\
  await_readChunk (fst (source_error e r)) = (r', reject e) /\
  Steady r' /\
  (forall e', source_error e' r' = (r', Idle)).
Proof.
  destruct r as [l [b en ee f dl el] ev br res].
  unfold Steady; simpl.
  intros (-> & _ & -> & -> & -> & ->) -> ->. simpl.
  repeat split.
Qed.

Lemma source_error_reaches_one_request_witness :
  (Steady constructor /\ errorListener constructor = true /\
   _events constructor = []) /\
  source_error 7 constructor
  = (mk false (_stream constructor) [error 7] (_bytesRemain constructor) false,
     Idle) /\
  await_readChunk (fst (source_error 7 constructor))
  = (mk false (_stream constructor) [] (_bytesRemain constructor) false,
     reject 7) /\
  Steady (mk false (_stream constructor) [] (_bytesRemain constructor) false) /\
  (forall e',
     source_error e'
       (mk false (_stream constructor) [] (_bytesRemain constructor) false)
     = (mk false (_stream constructor) [] (_bytesRemain constructor) false,
        Idle)).
Proof.
  assert (Hs : Steady constructor) by (repeat split).
  split; [split; [exact Hs | split; reflexivity]|].
  exact (@source_error_reaches_one_request 7 constructor Hs eq_refl eq_refl).
Defined.

End EventQueue.

Module EventTypedReads.
Import EventReader EventReaderFacts.




End EventTypedReads.

(** ** proreader.js: the count of remaining bytes *)

Module ProReaderFacts.
Import ProReader.

Lemma total_from data : forall n,
  fold_left (fun n chunk => (n + chunk_length chunk)%Z) data n
  = (n + total data)%Z.
Proof.
  unfold total. induction data as [|chunk data IH]; intros n; simpl.
  - lia.
  - rewrite IH, (IH (chunk_length chunk)). lia.
Qed.

Lemma total_cons chunk data :
  total (chunk :: data) = (chunk_length chunk + total data)%Z.
Proof. unfold total at 1. simpl. apply total_from. Qed.

Lemma total_length data : total data = Z.of_nat (length (concat data)).
Proof.
  induction data as [|chunk data IH]; [reflexivity|].
  rewrite total_cons, IH. simpl. rewrite length_app.
  unfold chunk_length. lia.
Qed.

Lemma _dispatch_Counted r : Counted r -> Counted (fst (_dispatch r)).
Proof.
  destruct r as [l [b e ee f dl el] er d en br res].
  unfold Counted, _dispatch, finished; simpl.
  destruct res; simpl.
  - destruct d as [|chunk rest]; simpl.
    + destruct en; simpl; [tauto|].
      destruct er; simpl; tauto.
    + destruct en; simpl.
      * intros (-> & H). simpl. rewrite total_cons. split; [f_equal; lia | exact H].
      * destruct er; simpl.
        -- intros (-> & H). simpl. rewrite total_cons.
           split; [f_equal; lia | exact H].
        -- tauto.
  - destruct en; simpl; [tauto|]. destruct er; simpl; tauto.
Qed.

Lemma _ungetChunk_Counted chunk r : Counted r -> Counted (_ungetChunk chunk r).
Proof.
  destruct r as [l [b e ee f dl el] er d en br res].
  unfold Counted, _ungetChunk, finished; simpl.
  destruct en; simpl.
  - intros (-> & H). simpl. rewrite total_cons. split; [f_equal; lia | exact H].
  - destruct er; simpl; [|tauto].
    intros (-> & H). simpl. rewrite total_cons. split; [f_equal; lia | exact H].
Qed.

Lemma _endHandler_Counted r :
  Stream.endListener (_stream r) = false ->
  Counted (fst (_endHandler r)).
Proof.
  intros Hel. unfold _endHandler. apply _dispatch_Counted.
  unfold Counted, finished. simpl. repeat split; assumption.
Qed.

Lemma emit_end_Counted r : Counted r -> Counted (fst (emit_end r)).
Proof.
  intros Hc. unfold emit_end.
  destruct (Stream.buffer (_stream r)); [|exact Hc].
  destruct (Stream.ended (_stream r) && negb (Stream.endEmitted (_stream r)));
    [|exact Hc].
  destruct (Stream.endListener (_stream r)) eqn:Hel.
  - apply _endHandler_Counted. reflexivity.
  - destruct r as [l [b e ee f dl el] er d en br res].
    unfold Counted, finished in *; simpl in *.
    destruct (en || _); [|exact Hc].
    destruct Hc as (H1 & H2 & H3 & H4). repeat split; assumption.
Qed.

Lemma emit_data_Counted chunk r : Counted r -> Counted (fst (emit_data chunk r)).
Proof.
  intros Hc. unfold emit_data.
  destruct (Stream.dataListener (_stream r)) eqn:Hdl; [|exact Hc].
  unfold _dataHandler. apply _dispatch_Counted.
  unfold Counted in *. unfold finished in *. simpl.
  destruct (_end r || _); [|exact Hc].
  destruct Hc as (_ & _ & Habs & _). congruence.
Qed.

Lemma flow_Counted chunks : forall r, Counted r -> Counted (fst (flow chunks r)).
Proof.
  induction chunks as [|chunk rest IH]; intros r Hc; simpl.
  - apply emit_end_Counted. exact Hc.
  - pose proof (@emit_data_Counted chunk
                  (set_stream (Stream.set_buffer rest (_stream r)) r) Hc) as H1.
    destruct (emit_data chunk _) as [r1 d]. simpl in H1.
    destruct d.
    + destruct (Stream.flowing (_stream r1)); [now apply IH|].
      now apply emit_end_Counted.
    + now apply emit_end_Counted.
    + now apply emit_end_Counted.
Qed.

Lemma run_Counted r : Counted r -> Counted (fst (run r)).
Proof.
  intros Hc. unfold run.
  destruct (Stream.flowing (_stream r)); [now apply flow_Counted | exact Hc].
Qed.

Lemma await_getChunk_Counted r : Counted r -> Counted (fst (await_getChunk r)).
Proof.
  intros Hc. unfold await_getChunk, _getChunk.
  pose proof (@_dispatch_Counted (set_resolve true r) Hc) as H1.
  destruct (_dispatch (set_resolve true r)) as [r1 d]. simpl in H1.
  destruct d; [now apply run_Counted | exact H1 | exact H1].
Qed.

Lemma _fillBuffer_loop_Counted fuel : forall buffer offset r,
  Counted r ->
  match _fillBuffer_loop fuel buffer offset r with
  | Returned _ r' | Threw _ r' | Suspended r' => Counted r'
  | OutOfFuel => True
  end.
Proof.
  induction fuel as [|fuel IH]; intros buffer offset r Hc; simpl.
  - destruct (offset <? length buffer); [exact I | exact Hc].
  - destruct (offset <? length buffer); [|exact Hc].
    pose proof (@await_getChunk_Counted r Hc) as H1.
    destruct (await_getChunk r) as [r1 d]. simpl in H1.
    destruct d as [|[chunk|]|e]; try exact H1.
    destruct (_ =? length chunk); [now apply IH|].
    apply IH. now apply _ungetChunk_Counted.
Qed.

End ProReaderFacts.

(** ** proreader.js: fills *)

Module ProReaderFills.
Import ProReader ProReaderFacts.

Lemma _ungetChunk_queued chunk r :
  queued (_ungetChunk chunk r) = chunk ++ queued r /\
  (Open r -> Open (_ungetChunk chunk r)) /\
  (Closed r -> Closed (_ungetChunk chunk r)).
Proof.
  destruct r as [l s er d en br res].
  unfold _ungetChunk, queued, Open, Closed, finished; simpl.
  split; [destruct (en || _); simpl; now rewrite app_assoc|].
  split.
  - intros (-> & -> & H). simpl. exact (conj eq_refl (conj eq_refl H)).
  - intros (-> & H). simpl. exact (conj eq_refl H).
Qed.

(** A chunk request: the next chunk in order, be it empty, or [null] at the
    end of the source, or nothing yet. *)
Lemma await_getChunk_spec r :
  Open r \/ Closed r ->
  exists r',
    (exists chunk,
       await_getChunk r = (r', resolve (Some chunk)) /\
       queued r = chunk ++ queued r' /\
       length (_data r') + length (Stream.buffer (_stream r'))
       < length (_data r) + length (Stream.buffer (_stream r)) /\
       (Open r' /\ Stream.ended (_stream r') = Stream.ended (_stream r)
        \/ Closed r') /\
       (Closed r -> Closed r'))
    \/ (await_getChunk r = (r', resolve None) /\
        queued r = [] /\ queued r' = [] /\ Closed r' /\
        (Open r -> Stream.ended (_stream r) = true))
    \/ (await_getChunk r = (r', Idle) /\
        queued r = [] /\ Open r /\ Stream.ended (_stream r) = false).
Proof.
  destruct r as [l [b e ee f dl el] er d en br res].
  unfold Open, Closed, queued, Stream.bytes; simpl.
  intros [(-> & -> & -> & -> & -> & -> & ->) | (-> & -> & ->)].
  - (* neither end nor error *)
    destruct d as [|chunk rest].
    + unfold await_getChunk, _getChunk, _dispatch, finished, run; simpl.
      destruct b as [|chunk rest]; simpl.
      * unfold emit_end, _endHandler, _dispatch, finished; simpl.
        destruct e; simpl; eexists.
        -- right; left. split; [reflexivity|]. simpl. repeat split.
        -- right; right. repeat split.
      * unfold emit_data, _dataHandler, _dispatch, finished, emit_end; simpl.
        destruct rest; [destruct e|]; simpl; eexists; left; exists chunk;
          (split; [reflexivity|]); simpl; rewrite ?app_nil_r;
          (split; [reflexivity|]); (split; [lia|]);
          (split; [|intros (Habs & _); discriminate]).
        -- right. repeat split.
        -- left. repeat split.
        -- left. repeat split.
    + unfold await_getChunk, _getChunk, _dispatch, finished; simpl.
      eexists; left; exists chunk. split; [reflexivity|]. simpl.
      rewrite <- app_assoc.
      split; [reflexivity|]. split; [lia|].
      split; [left; repeat split | intros (Habs & _); discriminate].
  - (* the end was seen *)
    destruct d as [|chunk rest].
    + unfold await_getChunk, _getChunk, _dispatch, finished; simpl.
      eexists; right; left. split; [reflexivity|]. simpl.
      repeat split. intros (Habs & _). discriminate.
    + unfold await_getChunk, _getChunk, _dispatch, finished; simpl.
      eexists; left; exists chunk. split; [reflexivity|]. simpl.
      rewrite !app_nil_r.
      split; [reflexivity|]. split; [lia|].
      split; [right; repeat split | intros _; repeat split].
Qed.

Lemma _fillBuffer_loop_full fuel buffer r :
  _fillBuffer_loop fuel buffer (length buffer) r
  = Returned (buffer, length buffer) r.
Proof. destruct fuel; simpl; now rewrite Nat.ltb_irrefl. Qed.

(** The loop copies the queued bytes, in order, until the buffer is full
    or the source is exhausted, and leaves the rest queued in order. *)
Lemma _fillBuffer_loop_spec fuel : forall buffer offset r,
  (Open r /\
   (Stream.ended (_stream r) = true \/ length buffer - offset <= length (queued r)))
  \/ Closed r ->
  offset <= length buffer ->
  length (_data r) + length (Stream.buffer (_stream r)) < fuel ->
  let n := Nat.min (length buffer - offset) (length (queued r)) in
  exists r',
    _fillBuffer_loop fuel buffer offset r
    = Returned (copy (queued r) buffer offset n, offset + n) r' /\
    queued r' = skipn n (queued r) /\
    (Open r' \/ Closed r').
Proof.
  induction fuel as [|fuel IH]; intros buffer offset r Hr Hle Hfuel n; [lia|].
  assert (Hst : Open r \/ Closed r)
    by (destruct Hr as [[Hs _]|He]; [now left | now right]).
  simpl. destruct (offset <? length buffer) eqn:Hlt.
  2:{ apply Nat.ltb_ge in Hlt. subst n.
      replace (length buffer - offset) with 0 by lia. simpl.
      rewrite copy_nothing, Nat.add_0_r. now exists r. }
  apply Nat.ltb_lt in Hlt.
  destruct (@await_getChunk_spec r Hst) as (r1 & Hcases).
  destruct Hcases as [(chunk & Hawait & Hq & Hm & Hst1 & Hee)
                     | [(Hawait & Hq & Hq1 & He1 & Hend)
                       | (Hawait & Hq & Hs & Hend)]];
    rewrite Hawait.
  - destruct (Nat.min (length buffer - offset) (length chunk) =? length chunk)
      eqn:Hmin.
    + apply Nat.eqb_eq in Hmin. rewrite Hmin.
      assert (Hlen := @copy_length chunk buffer offset (length chunk)
                        ltac:(lia) ltac:(lia)).
      destruct (IH (copy chunk buffer offset (length chunk))
                   (offset + length chunk) r1) as (r' & Hrun & Hq' & Hst').
      { destruct Hr as [[_ Hin]|He]; [|right; now apply Hee].
        destruct Hst1 as [[Hs1 Hen]|He1]; [left; split; [exact Hs1|] | now right].
        rewrite Hen, Hlen.
        destruct Hin as [Hin|Hin]; [now left | right].
        rewrite Hq, length_app in Hin. lia. }
      { lia. }
      { lia. }
      exists r'. rewrite Hrun, Hlen, copy_twice by lia.
      subst n. rewrite Hq, length_app.
      replace (Nat.min (length buffer - offset)
                 (length chunk + length (queued r1)))
        with (length chunk
              + Nat.min (length buffer - (offset + length chunk))
                  (length (queued r1))) by lia.
      rewrite Nat.add_assoc. split; [reflexivity|]. split; [|exact Hst'].
      rewrite Hlen in Hq'. rewrite Hq', skipn_app.
      set (m := Nat.min _ _).
      rewrite (skipn_all2 chunk) by lia.
      now replace (length chunk + m - length chunk) with m by lia.
    + apply Nat.eqb_neq in Hmin.
      assert (Hcut : Nat.min (length buffer - offset) (length chunk)
                     = length buffer - offset) by lia.
      rewrite Hcut.
      destruct (_ungetChunk_queued (skipn (length buffer - offset) chunk) r1)
        as (Hq2 & Ho2 & Hc2).
      assert (Hlen := @copy_length chunk buffer offset (length buffer - offset)
                        ltac:(lia) ltac:(lia)).
      replace (offset + (length buffer - offset))
        with (length (copy chunk buffer offset (length buffer - offset)))
        by lia.
      rewrite _fillBuffer_loop_full.
      eexists. subst n. rewrite Hq, length_app.
      replace (Nat.min (length buffer - offset)
                 (length chunk + length (queued r1)))
        with (length buffer - offset) by lia.
      rewrite copy_prefix by lia.
      rewrite Hlen. replace (offset + (length buffer - offset)) with (length buffer) by lia.
      split; [reflexivity|]. split.
      * rewrite Hq2, skipn_app.
        now replace (length buffer - offset - length chunk) with 0 by lia.
      * destruct Hst1 as [[Hs1 _]|He1]; [left; now apply Ho2 | right; now apply Hc2].
  - subst n. rewrite Hq. simpl. rewrite Nat.min_0_r.
    rewrite copy_nothing, Nat.add_0_r. exists r1.
    split; [reflexivity|]. split; [exact Hq1 | now right].
  - destruct Hr as [[_ [Hin|Hin]]|He].
    + congruence.
    + rewrite Hq in Hin. simpl in Hin. lia.
    + destruct Hs as (Hen & _). destruct He as (Hen' & _). congruence.
Qed.

(** What [_fillBuffer] achieves on a reader that can serve it. *)
Lemma _fillBuffer_served buffer r :
  (Open r /\
   (Stream.ended (_stream r) = true \/ length buffer <= length (queued r)))
  \/ Closed r ->
  let n := Nat.min (length buffer) (length (queued r)) in
  exists r',
    _fillBuffer buffer r = Returned (copy (queued r) buffer 0 n, n) r' /\
    queued r' = skipn n (queued r) /\
    (Open r' \/ Closed r').
Proof.
  intros Hr n.
  destruct (@_fillBuffer_loop_spec
              (S (length (_data r) + length (Stream.buffer (_stream r))))
              buffer 0 r) as (r' & Hloop & Hq & Hst).
  { now rewrite Nat.sub_0_r. }
  { lia. }
  { lia. }
  rewrite Nat.sub_0_r in Hloop, Hq. rewrite Nat.add_0_l in Hloop.
  exists r'. split; [exact Hloop | split; [exact Hq | exact Hst]].
Qed.

End ProReaderFills.

(** ** proreader.js: what the public methods report *)

Module ProReaderReads.
Import ProReader ProReaderFacts ProReaderFills.

(** X24.  proreader.js: [fill] on a Buffer, on a reader that can serve it.
    With [partial] it returns the number of bytes obtained.  Without, it
    fails with NotEnoughError exactly when the source ended before the
    buffer was full, the error carrying the buffer as filled and the
    number of bytes obtained; else it returns the buffer, filled with the
    first bytes of the queue.  The bytes obtained are taken from the
    queue either way. *)
Theorem fill_reports_a_short_fill native buffer endianness partial r :
  (Open r /\
   (Stream.ended (_stream r) = true \/ length buffer <= length (queued r)))
  \/ Closed r ->
  let n := Nat.min (length buffer) (length (queued r)) in
  let filled := copy (queued r) buffer 0 n in
  exists r',
    fill native (BufferC buffer) endianness partial r
    = (if partial then Returned (Count n) r'
       else if (length (queued r) <? length buffer)%nat
            then Threw (NotEnoughError (Some (BufferC filled))
                                       (Some (Int (Z.of_nat n)))) r'
            else Returned (Whole (BufferC filled)) r') /\
    queued r' = skipn n (queued r).
Proof.
  intros Hr n filled.
  destruct (_fillBuffer_served buffer Hr) as (r' & Hfill & Hq & _).
  fold n in Hfill, Hq. fold filled in Hfill.
  exists r'. split; [|exact Hq].
  unfold fill. rewrite Hfill. cbv beta iota zeta delta [await].
  destruct partial; [reflexivity|].
  assert (Hlen : length filled = length buffer)
    by (subst filled; apply copy_length; subst n; lia).
  cbn [Container_length]. rewrite Hlen.
  destruct (length (queued r) <? length buffer)%nat eqn:Hlt.
  - apply Nat.ltb_lt in Hlt.
    replace (n <? length buffer)%nat with true
      by (symmetry; apply Nat.ltb_lt; subst n; lia).
    reflexivity.
  - apply Nat.ltb_ge in Hlt.
    replace (n <? length buffer)%nat with false
      by (symmetry; apply Nat.ltb_ge; subst n; lia).
    reflexivity.
Qed.

Lemma fill_reports_a_short_fill_witness :
  ((Open (fst (source_end (fst (source_write [x01; x02] constructor)))) /\
    (Stream.ended
       (_stream (fst (source_end (fst (source_write [x01; x02] constructor)))))
     = true \/
     length [x00; x00; x00]
     <= length (queued (fst (source_end
                               (fst (source_write [x01; x02] constructor)))))))
   \/ Closed (fst (source_end (fst (source_write [x01; x02] constructor))))) /\
  exists r',
    fill LE (BufferC [x00; x00; x00]) None false
      (fst (source_end (fst (source_write [x01; x02] constructor))))
    = Threw (NotEnoughError (Some (BufferC [x01; x02; x00])) (Some (Int 2))) r' /\
    queued r' = [].
Proof.
  assert (H : (Open (fst (source_end (fst (source_write [x01; x02] constructor)))) /\
    (Stream.ended
       (_stream (fst (source_end (fst (source_write [x01; x02] constructor)))))
     = true \/
     length [x00; x00; x00]
     <= length (queued (fst (source_end
                               (fst (source_write [x01; x02] constructor)))))))
   \/ Closed (fst (source_end (fst (source_write [x01; x02] constructor))))).
  { left. split; [repeat split | left; reflexivity]. }
  split; [exact H|].
  exact (@fill_reports_a_short_fill LE [x00; x00; x00] None false
           (fst (source_end (fst (source_write [x01; x02] constructor)))) H).
Defined.






Lemma write_Counted chunk r :
  Counted r -> Counted (set_stream (Stream.write chunk (_stream r)) r).
Proof.
  destruct r as [l [b e ee f dl el] er d en br res].
  unfold Counted, finished, Stream.write; simpl.
  destruct e; [|destruct (length chunk =? 0)%nat]; exact (fun H => H).
Qed.

(** X26.  proreader.js: [bytesRemain] is undefined until the end or an error
    of the source was seen, and from then on it is the number of bytes
    that wait in [_data].  Whatever the source does and whatever chunk is
    asked for or pushed back, this stays so, through a whole fill as
    well. *)
Theorem bytesRemain_is_exact r :
  Counted r ->
  bytesRemain r
  = (if finished r then Some (Z.of_nat (length (concat (_data r)))) else None) /\
  (forall chunk, Counted (fst (source_write chunk r))) /\
  Counted (fst (source_end r)) /\
  (forall error, Counted (fst (source_error error r))) /\
  Counted (fst (await_getChunk r)) /\
  (forall chunk, Counted (_ungetChunk chunk r)) /\
  (forall buffer,
     match _fillBuffer buffer r with
     | Returned _ r' | Threw _ r' | Suspended r' => Counted r'
     | OutOfFuel => True
     end).
Proof.
  intros Hc.
  split.
  { unfold Counted in Hc. unfold bytesRemain.
    destruct (finished r); [|exact Hc].
    destruct Hc as (-> & _). now rewrite total_length. }
  split; [intros chunk; apply run_Counted, write_Counted, Hc|].
  split; [apply run_Counted; exact Hc|].
  split.
  { intros error. unfold source_error.
    destruct (errorListener r); [|exact Hc].
    unfold _errorHandler. apply _dispatch_Counted.
    unfold Counted, finished. simpl. rewrite orb_true_r. repeat split. }
  split; [now apply await_getChunk_Counted|].
  split; [intros chunk; now apply _ungetChunk_Counted|].
  intros buffer. now apply _fillBuffer_loop_Counted.
Qed.

Lemma bytesRemain_is_exact_witness :
  Counted (fst (source_error 7 constructor)) /\
  bytesRemain (fst (source_error 7 constructor)) = Some 0%Z /\
  (forall chunk,
     Counted (fst (source_write chunk (fst (source_error 7 constructor))))) /\
  Counted (fst (source_end (fst (source_error 7 constructor)))) /\
  (forall error,
     Counted (fst (source_error error (fst (source_error 7 constructor))))) /\
  Counted (fst (await_getChunk (fst (source_error 7 constructor)))) /\
  (forall chunk, Counted (_ungetChunk chunk (fst (source_error 7 constructor)))) /\
  (forall buffer,
     match _fillBuffer buffer (fst (source_error 7 constructor)) with
     | Returned _ r' | Threw _ r' | Suspended r' => Counted r'
     | OutOfFuel => True
     end).
Proof.
  assert (Hc : Counted (fst (source_error 7 constructor))) by (repeat split).
  split; [exact Hc|].
  exact (@bytesRemain_is_exact (fst (source_error 7 constructor)) Hc).
Defined.

End ProReaderReads.

(** ** The byte order found by native-endianness.js *)

Module ByteOrder.
Import NativeEndianness.

Lemma low_byte_value value :
  Z.of_N (Byte.to_N (low_byte value)) = (value mod 256)%Z.
Proof.
  unfold low_byte.
  assert (Hr : (0 <= value mod 256 < 256)%Z) by (apply Z.mod_pos_bound; lia).
  destruct (Byte.of_N (Z.to_N (value mod 256))) as [b|] eqn:Hb.
  - apply Byte.to_of_N in Hb. rewrite Hb. lia.
  - apply Byte.of_N_None_iff in Hb. lia.
Qed.

Lemma le_value_le_bytes width : forall value,
  le_value (le_bytes width value) = (value mod 256 ^ Z.of_nat width)%Z.
Proof.
  induction width as [|width IH]; intros value.
  - simpl. now rewrite Z.mod_1_r.
  - cbn [le_bytes le_value]. rewrite low_byte_value, IH.
    rewrite Nat2Z.inj_succ, Z.pow_succ_r by lia.
    rewrite (Z.mul_comm 256), Z.rem_mul_r by lia. lia.
Qed.

(** X27.  native-endianness.js exports the byte order of the machine that
    loads it: on either machine the 16-bit element it stores reads back
    as stored, and the first byte of its storage tells the order. *)
Theorem nativeEndianness_is_the_byte_order_of_the_machine machine :
  nativeEndianness machine = machine /\
  (forall value, (0 <= value < 65536)%Z ->
     element machine (TypedArray_of machine Uint16Array value) 0
     = Integer value).
Proof.
  split; [destruct machine; reflexivity|].
  intros value Hv. unfold element, TypedArray_of. cbn [kind bytes BYTES_PER_ELEMENT].
  assert (Hraw : forall bs : list byte, length bs = 2 -> slice bs (0 * 2) (0 * 2 + 2) = bs).
  { intros bs Hbs. unfold slice. simpl skipn. apply firstn_all2. simpl. lia. }
  assert (Hval : le_value (le_bytes 2 value) = value).
  { rewrite le_value_le_bytes. apply Z.mod_small. simpl. lia. }
  destruct machine.
  - rewrite Hraw by reflexivity. now rewrite Hval.
  - rewrite Hraw by reflexivity. rewrite rev_involutive. now rewrite Hval.
Qed.

End ByteOrder.
